(** * A query cache: registry, entries, deduplicated fetches, observers

    Shallow embedding of [src/query.tsx]: the [QueryClient] registry
    ([getQuery]) and the entries built by [createQuery] ([fetch],
    [setState], [subsribe]), with the JavaScript values request keys are
    made of and [JSON.stringify], which turns a key into its hash.

    - JavaScript values live in a heap of objects, so that two keys can be
      equal in structure and still be two objects, and a key can be
      cyclic.
    - Code that can throw returns a [completion]; code that changes the
      cache runs in the monad [M] over the [world]: the entries, the
      promises made by [fetch], and a log of what an observer of the
      cache can see happen.
    - An async function is cut at its [await]: [fetch_async] is the part
      that runs when it is called, [fetch_settled] the part that runs
      when the awaited promise has settled ([resume]).
    - The callbacks the cache invokes ([sub.notify()], [queryFn()]) are
      client code.  A [client] says, for each of their invocations, which
      cache calls it makes and whether it then returns or throws: so
      callbacks may call back into the entry that is calling them, and a
      [notify] that throws ends the broadcast it is part of.
    - To the entries an observer is known by its identity.  The observer
      objects of [createQueryObserver] and the hook [useQuery] come on
      top, over a [page]: the cache, the observer objects, and what React
      keeps for each component instance (its [observerRef], the function
      its effect returned).  React itself is the environment: it decides
      when a component renders and when its effect and the effect's
      cleanup run. *)

From Stdlib Require Import Ascii String.
From stdpp Require Import base option list gmap strings pretty numbers.

Set Warnings "-register-all".

(** ** JavaScript values *)

Definition loc := nat.          (* address of an object or array *)
Definition fn := nat.           (* identity of a function object *)

(** Values that are not arrays or plain objects.  Numbers are the
    integers (of a size JavaScript prints in plain decimal) and the three
    non-finite ones; a function is known by its identity; [PErrorObj] is
    an [Error] instance, named by its class. *)
Inductive prim : Type :=
  | PUndefined
  | PNull
  | PBool (b : bool)
  | PNum (z : Z)
  | PNaN
  | PInfinity (negative : bool)
  | PStr (s : string)
  | PBigInt (z : Z)
  | PFun (f : fn)
  | PErrorObj (name : string).

Inductive jsval : Type :=
  | VPrim (p : prim)
  | VRef (a : loc).

(** An array, or a plain object with its own enumerable properties in
    enumeration order. *)
Inductive jsobj : Type :=
  | OArr (elems : list jsval)
  | OObj (props : list (string * jsval)).

Abbreviation heap := (gmap loc jsobj).

(** The structure of a value, with every reference followed. *)
Inductive jtree : Type :=
  | TPrim (p : prim)
  | TArr (elems : list jtree)
  | TObj (props : list (string * jtree)).

Definition undefined : jsval := VPrim PUndefined.
Definition TypeError : jsval := VPrim (PErrorObj "TypeError").

#[global] Instance prim_eq_dec : EqDecision prim.
Proof. solve_decision. Defined.
#[global] Instance jsval_eq_dec : EqDecision jsval.
Proof. solve_decision. Defined.

(** ** Completions *)

Inductive completion (A : Type) : Type :=
  | Normal (a : A)
  | Throw (e : jsval).
Arguments Normal {A} a.
Arguments Throw {A} e.

Definition cbind {A B} (c : completion A) (k : A → completion B) : completion B :=
  match c with
  | Normal a => k a
  | Throw e => Throw e
  end.

(** ** JSON.stringify *)

Module JSON.

#[local] Open Scope string_scope.

(** [unfold n h v]: the tree below [v] in heap [h].  An object that is
    being unfolded is taken out of the heap for its own members, so
    meeting it again (a cycle) finds nothing; [n] bounds the nesting
    depth and [size h] is always enough. *)
Fixpoint unfold (n : nat) (h : heap) (v : jsval) : option jtree :=
  match v with
  | VPrim p => Some (TPrim p)
  | VRef a =>
      match h !! a, n with
      | Some o, S n' =>
          let h' := delete a h in
          match o with
          | OArr elems => TArr <$> mapM (unfold n' h') elems
          | OObj props =>
              TObj <$> mapM (λ kv, pair kv.1 <$> unfold n' h' kv.2) props
          end
      | _, _ => None
      end
  end.

Definition tree_of (h : heap) (v : jsval) : option jtree :=
  unfold (size h) h v.

Definition hex_digit (n : N) : ascii :=
  match n with
  | 0 => "0" | 1 => "1" | 2 => "2" | 3 => "3" | 4 => "4" | 5 => "5"
  | 6 => "6" | 7 => "7" | 8 => "8" | 9 => "9" | 10 => "a" | 11 => "b"
  | 12 => "c" | 13 => "d" | 14 => "e" | _ => "f"
  end%N%char.

Definition dquote : ascii := ascii_of_nat 34.
Definition backslash : ascii := ascii_of_nat 92.
Definition escape (s : string) : string := String backslash s.

(** QuoteJSONString, one code unit at a time. *)
Definition quote_char (c : ascii) : string :=
  let n := N_of_ascii c in
  if decide (n = 34%N) then escape (String dquote "")
  else if decide (n = 92%N) then escape (String backslash "")
  else if decide (n = 8%N) then escape "b"
  else if decide (n = 9%N) then escape "t"
  else if decide (n = 10%N) then escape "n"
  else if decide (n = 12%N) then escape "f"
  else if decide (n = 13%N) then escape "r"
  else if decide (n < 32)%N then
    escape ("u00" +:+ String (hex_digit (n / 16)) (String (hex_digit (n mod 16)) ""))
  else String c "".

Fixpoint quote_body (s : string) : string :=
  match s with
  | EmptyString => ""
  | String c s' => quote_char c +:+ quote_body s'
  end.

Definition quote (s : string) : string :=
  String dquote (quote_body s +:+ String dquote "").

Fixpoint join (sep : string) (l : list string) : string :=
  match l with
  | [] => ""
  | [s] => s
  | s :: l' => s +:+ sep +:+ join sep l'
  end.

Definition serialize_prim (p : prim) : completion (option string) :=
  match p with
  | PUndefined => Normal None
  | PNull => Normal (Some "null")
  | PBool true => Normal (Some "true")
  | PBool false => Normal (Some "false")
  | PNum z => Normal (Some (pretty z))
  | PNaN | PInfinity _ => Normal (Some "null")
  | PStr s => Normal (Some (quote s))
  | PBigInt _ => Throw TypeError
  | PFun _ => Normal None
  | PErrorObj _ => Normal (Some "{}")
  end.

(** SerializeJSONProperty: a string, or [None] for JavaScript's
    [undefined].  An array element without a rendering is written
    [null]; an object property without one is left out. *)
Fixpoint serialize (t : jtree) : completion (option string) :=
  match t with
  | TPrim p => serialize_prim p
  | TArr elems =>
      cbind
        ((fix go (l : list jtree) : completion (list string) :=
            match l with
            | [] => Normal []
            | x :: l' =>
                cbind (serialize x) (λ s,
                cbind (go l') (λ ss, Normal (default "null" s :: ss)))
            end) elems)
        (λ parts, Normal (Some ("[" +:+ join "," parts +:+ "]")))
  | TObj props =>
      cbind
        ((fix go (l : list (string * jtree)) : completion (list string) :=
            match l with
            | [] => Normal []
            | (k, x) :: l' =>
                cbind (serialize x) (λ s,
                cbind (go l') (λ ss,
                  Normal (match s with
                          | Some str => (quote k +:+ ":" +:+ str) :: ss
                          | None => ss
                          end)))
            end) props)
        (λ parts, Normal (Some ("{" +:+ join "," parts +:+ "}")))
  end.

(** [JSON.stringify(v)]: a cyclic value throws a [TypeError], as does a
    BigInt anywhere inside. *)
Definition stringify (h : heap) (v : jsval) : completion (option string) :=
  match tree_of h v with
  | None => Throw TypeError
  | Some t => serialize t
  end.

End JSON.

(** ** Equality of keys in structure *)

(** [struct_eq]: the two values unfold to the same tree: the same shape
    and values, each object's properties in the same order. *)
Definition struct_eq (h : heap) (v1 v2 : jsval) : Prop :=
  ∃ t, JSON.tree_of h v1 = Some t ∧ JSON.tree_of h v2 = Some t.

(** [deep_equal]: equality in structure as deep comparison in JavaScript
    has it, where the order of an object's properties does not count:
    the two objects have as many properties, and each property of the
    first is in the second with an equal value. *)
Fixpoint tree_equal (t1 t2 : jtree) : bool :=
  match t1, t2 with
  | TPrim p1, TPrim p2 => bool_decide (p1 = p2)
  | TArr l1, TArr l2 =>
      (fix go (l1 l2 : list jtree) : bool :=
         match l1, l2 with
         | [], [] => true
         | x :: l1', y :: l2' => tree_equal x y && go l1' l2'
         | _, _ => false
         end) l1 l2
  | TObj ps1, TObj ps2 =>
      bool_decide (length ps1 = length ps2)
      && (fix go (ps : list (string * jtree)) : bool :=
            match ps with
            | [] => true
            | (k, x) :: ps' =>
                match list_find (λ kv, kv.1 = k) ps2 with
                | Some (_, (_, y)) => tree_equal x y
                | None => false
                end && go ps'
            end) ps1
  | _, _ => false
  end.

Definition deep_equal (h : heap) (v1 v2 : jsval) : bool :=
  match JSON.tree_of h v1, JSON.tree_of h v2 with
  | Some t1, Some t2 => tree_equal t1 t2
  | _, _ => false
  end.

Definition num (z : Z) : jsval := VPrim (PNum z).
Definition str (s : string) : jsval := VPrim (PStr s).

(** Sample heap: 0 and 1 are two arrays [c, 1] (c a string); 2 is
    [null]; 3 is [undefined]; 4 is an array holding itself; 5 and 6 each
    hold one function (7, 8); 7 holds the BigInt 1n; 8 is {a: 1, b: 2}
    and 9 is {b: 2, a: 1}; 10 is the array holding 8 and 11 the array
    holding 9. *)
Definition sample_heap : heap :=
  list_to_map
    [ (0, OArr [str "c"; num 1]);
      (1, OArr [str "c"; num 1]);
      (2, OArr [VPrim PNull]);
      (3, OArr [undefined]);
      (4, OArr [VRef 4]);
      (5, OArr [VPrim (PFun 7)]);
      (6, OArr [VPrim (PFun 8)]);
      (7, OArr [VPrim (PBigInt 1)]);
      (8, OObj [("a", num 1); ("b", num 2)]);
      (9, OObj [("b", num 2); ("a", num 1)]);
      (10, OArr [VRef 8]);
      (11, OArr [VRef 9]) ].

(** ** The data of the cache *)

Definition obs := nat.          (* identity of an observer object *)
Definition pid := nat.          (* identity of a promise made by [fetch] *)

Inductive Status : Type := Loading | Error | Success.

Record QueryState : Type := mkQueryState {
  status : Status;
  isFetching : bool;
  data : jsval;
  error : jsval;
}.

(** A [Query] object; [queryFn] is the function its [fetch] closure holds. *)
Record Query : Type := mkQuery {
  queryKey : jsval;
  queryHash : option string;
  promise : option pid;
  subscribers : list obs;
  state : QueryState;
  queryFn : fn;
}.

Definition set_state (st : QueryState) (Q : Query) : Query :=
  mkQuery (queryKey Q) (queryHash Q) (promise Q) (subscribers Q) st (queryFn Q).
Definition set_promise (p : option pid) (Q : Query) : Query :=
  mkQuery (queryKey Q) (queryHash Q) p (subscribers Q) (state Q) (queryFn Q).
Definition set_subscribers (l : list obs) (Q : Query) : Query :=
  mkQuery (queryKey Q) (queryHash Q) (promise Q) l (state Q) (queryFn Q).

#[global] Instance Status_eq_dec : EqDecision Status.
Proof. solve_decision. Defined.
#[global] Instance QueryState_eq_dec : EqDecision QueryState.
Proof. solve_decision. Defined.

(** The promise of one call of the async function in [fetch]: its body is
    still in its synchronous part, or waits for [queryFn]'s promise, or is
    over. *)
Inductive pstate : Type :=
  | Running (q : nat)
  | Awaiting (q : nat)
  | Fulfilled
  | RejectedWith (e : jsval).

(** What an outside observer can see happen. [EvNotify b q sub]: the
    broadcast that started at position [b] of the log calls
    [sub.notify()]. *)
Inductive event : Type :=
  | EvState (q : nat) (st : QueryState)
  | EvNotify (b : nat) (q : nat) (sub : obs)
  | EvQueryFn (q : nat) (f : fn).

(** [queries] is [client.queries]: an entry is known by its position. *)
Record world : Type := mkWorld {
  queries : list Query;
  promises : list pstate;
  log : list event;
}.

Definition empty_world : world := mkWorld [] [] [].

(** ** Client code *)

(** The calls client code makes on an entry.  [CUnsubscribe q sub] invokes
    the function that [subsribe] returned for [sub]. *)
Inductive cmd : Type :=
  | CFetch (q : nat)
  | CSubscribe (q : nat) (sub : obs)
  | CUnsubscribe (q : nat) (sub : obs).

(** How a call of a callback ends: it returns ([queryFn()]: something
    to await), or it throws on the spot. *)
Inductive fn_result : Type :=
  | Returns
  | Throws (e : jsval).

(** The client: the objects its keys are made of, and, for the [n]-th call
    ([n] from 0) of an observer's [notify] or of a fetch function, the cache
    calls made from inside that call and how the call then ends. *)
Record client : Type := mkClient {
  objects : heap;
  on_notify : obs → nat → list cmd * fn_result;
  on_queryFn : fn → nat → list cmd * fn_result;
}.

(** Every call of every observer's [notify] returns. *)
Definition notify_returns (env : client) : Prop :=
  ∀ sub n, (on_notify env sub n).2 = Returns.

(** Callbacks make no cache calls, and every [notify] returns. *)
Definition passive (env : client) : Prop :=
  (∀ sub n, on_notify env sub n = ([], Returns))
  ∧ (∀ f n, (on_queryFn env f n).1 = []).

(** ** The monad of cache code

    [None]: the run was cut off (client code nested deeper than the fuel
    of [run] allows). *)
Definition M (A : Type) : Type := world → option (completion A * world).

Definition mret {A} (a : A) : M A := λ w, Some (Normal a, w).
Definition mbind {A B} (m : M A) (k : A → M B) : M B := λ w,
  match m w with
  | Some (Normal a, w') => k a w'
  | Some (Throw e, w') => Some (Throw e, w')
  | None => None
  end.
Definition lift {A} (c : completion A) : M A := λ w, Some (c, w).
Definition gets {A} (f : world → A) : M A := λ w, Some (Normal (f w), w).
Definition modify (f : world → world) : M unit := λ w, Some (Normal tt, f w).

Notation "'let*' x := m 'in' k" := (mbind m (λ x, k))
  (at level 10, x name, m at level 100, k at level 200).
Notation "m ;; k" := (mbind m (λ _, k))
  (at level 100, k at level 200, right associativity).

(** [attempt m] runs [m] and hands back how it completed. *)
Definition attempt {A} (m : M A) : M (completion A) := λ w,
  match m w with
  | Some (c, w') => Some (Normal c, w')
  | None => None
  end.

Definition try_catch {A} (body : M A) (handler : jsval → M A) : M A :=
  let* c := attempt body in
  match c with
  | Normal a => mret a
  | Throw e => handler e
  end.

Definition try_finally {A} (body : M A) (finalizer : M unit) : M A :=
  let* c := attempt body in
  finalizer ;;
  lift c.

Fixpoint forEach {A} (l : list A) (f : A → M unit) : M unit :=
  match l with
  | [] => mret tt
  | x :: l' => f x ;; forEach l' f
  end.

Definition emit (e : event) : M unit :=
  modify (λ w, mkWorld (queries w) (promises w) (log w ++ [e])).
Definition update_query (q : nat) (f : Query → Query) : M unit :=
  modify (λ w, mkWorld (alter f q (queries w)) (promises w) (log w)).
Definition push_query (Q : Query) : M unit :=
  modify (λ w, mkWorld (queries w ++ [Q]) (promises w) (log w)).
Definition new_promise (s : pstate) : M pid := λ w,
  Some (Normal (length (promises w)),
        mkWorld (queries w) (promises w ++ [s]) (log w)).
Definition set_pstate (p : pid) (s : pstate) : M unit :=
  modify (λ w, mkWorld (queries w) (<[p:=s]> (promises w)) (log w)).

(** Runs [k] on the entry at [q]; a reference to no entry does nothing. *)
Definition with_query {A} (q : nat) (k : Query → M A) (none : A) : M A := λ w,
  match queries w !! q with
  | Some Q => k Q w
  | None => Some (Normal none, w)
  end.

Definition is_notify_of (sub : obs) (e : event) : bool :=
  match e with
  | EvNotify _ _ sub' => bool_decide (sub' = sub)
  | _ => false
  end.
Definition is_call_of (f : fn) (e : event) : bool :=
  match e with
  | EvQueryFn _ f' => bool_decide (f' = f)
  | _ => false
  end.
Definition count_if {A} (P : A → bool) (l : list A) : nat :=
  length (List.filter P l).

(** ** The entry: [createQuery] *)

Section Entry.

Context (env : client).
(** How client code called from a callback is run. *)
Context (nested : list cmd → world → option world).

Definition client_code (cs : list cmd) : M unit := λ w,
  match nested cs w with
  | Some w' => Some (Normal tt, w')
  | None => None
  end.

(** [sub.notify()]: the cache calls the callback makes, then its return
    or its throw. *)
Definition notify (b q : nat) (sub : obs) : M unit :=
  let* n := gets (λ w, count_if (is_notify_of sub) (log w)) in
  emit (EvNotify b q sub) ;;
  client_code (on_notify env sub n).1 ;;
  match (on_notify env sub n).2 with
  | Returns => mret tt
  | Throws e => lift (Throw e)
  end.

(** [setState]: the array that [forEach] walks is the one in place when
    the walk starts; [subsribe] only appends to it and the unsubscribe
    function replaces it, so the walk visits exactly those elements, up
    to the first one whose [notify] throws: nothing catches that, so the
    walk ends there and [setState] throws. *)
Definition setState (q : nat) (updater : QueryState → QueryState) : M unit :=
  with_query q (λ Q,
    let st := updater (state Q) in
    update_query q (set_state st) ;;
    let* b := gets (λ w, length (log w)) in
    emit (EvState q st) ;;
    forEach (subscribers Q) (notify b q)) tt.

(** [queryFn()], as called by the entry at [q]. *)
Definition call_queryFn (q : nat) : M fn_result :=
  with_query q (λ Q,
    let f := queryFn Q in
    let* n := gets (λ w, count_if (is_call_of f) (log w)) in
    emit (EvQueryFn q f) ;;
    client_code (on_queryFn env f n).1 ;;
    mret (on_queryFn env f n).2) Returns.

(** The async function of [fetch] from its [await] on: [awaited] is the
    value the awaited promise was fulfilled with, or the reason it was
    rejected with (or what [queryFn] threw), which [await] throws. *)
Definition fetch_settled (q : nat) (awaited : completion jsval) : M unit :=
  try_finally
    (try_catch
       (let* data := lift awaited in
        setState q (λ old,
          mkQueryState Success (isFetching old) data (error old)))
       (λ error,
        setState q (λ old,
          mkQueryState Error (isFetching old) (data old) error)))
    (update_query q (set_promise None) ;;
     setState q (λ old,
       mkQueryState (status old) false (data old) (error old))).

Inductive progress : Type := Suspended | Finished.

(** The async function of [fetch], run until it first suspends. *)
Definition fetch_async (q : nat) : M progress :=
  setState q (λ old, mkQueryState (status old) true (data old) undefined) ;;
  let* r := call_queryFn q in
  match r with
  | Returns => mret Suspended
  | Throws e => fetch_settled q (Throw e) ;; mret Finished
  end.

(** Calling an async function: its promise is made, its body runs up to
    the first [await], and the promise is handed to the caller. *)
Definition async_call (q : nat) (body : M progress) : M pid :=
  let* p := new_promise (Running q) in
  let* c := attempt body in
  set_pstate p (match c with
                | Normal Suspended => Awaiting q
                | Normal Finished => Fulfilled
                | Throw e => RejectedWith e
                end) ;;
  mret p.

(** [query.fetch()] *)
Definition fetch (q : nat) : M (option pid) :=
  with_query q (λ Q,
    match promise Q with
    | None =>
        let* p := async_call q (fetch_async q) in
        update_query q (set_promise (Some p))
    | Some _ => mret tt
    end ;;
    gets (λ w, Q' ← queries w !! q; promise Q')) None.

(** The promise awaited by the async call [p] settles: its body goes on
    to the end. *)
Definition resume (p : pid) (awaited : completion jsval) : M unit := λ w,
  match promises w !! p with
  | Some (Awaiting q) =>
      (let* c := attempt (fetch_settled q awaited) in
       set_pstate p (match c with
                     | Normal _ => Fulfilled
                     | Throw e => RejectedWith e
                     end)) w
  | _ => Some (Normal tt, w)
  end.

(** [query.subsribe(subscriber)]; the function it returns is
    [unsubscribe q subscriber]. *)
Definition subsribe (q : nat) (subscriber : obs) : M unit :=
  update_query q (λ Q, set_subscribers (subscribers Q ++ [subscriber]) Q).

Definition unsubscribe (q : nat) (subscriber : obs) : M unit :=
  update_query q (λ Q,
    set_subscribers (filter (λ sub, sub ≠ subscriber) (subscribers Q)) Q).

Definition exec (c : cmd) : M unit :=
  match c with
  | CFetch q => fetch q ;; mret tt
  | CSubscribe q sub => subsribe q sub
  | CUnsubscribe q sub => unsubscribe q sub
  end.

End Entry.

(** Client code run from inside a callback; [fuel] bounds how deep
    callbacks nest. *)
Fixpoint run (env : client) (fuel : nat) (cs : list cmd) (w : world) : option world :=
  match fuel with
  | 0 => match cs with [] => Some w | _ => None end
  | S n =>
      (fix go (cs : list cmd) (w : world) : option world :=
         match cs with
         | [] => Some w
         | c :: cs' =>
             match exec env (run env n) c w with
             | Some (_, w') => go cs' w'
             | None => None
             end
         end) cs w
  end.

(** ** The registry: [QueryClient] *)

Definition createQuery (env : client) (key : jsval) (f : fn) : M Query :=
  let* hash := lift (JSON.stringify (objects env) key) in
  mret (mkQuery key hash None []
          (mkQueryState Loading true undefined undefined) f).

(** [client.getQuery({queryKey, queryFn})], returning the entry's
    position in [client.queries]. *)
Definition getQuery (env : client) (key : jsval) (f : fn) : M nat :=
  let* hash := lift (JSON.stringify (objects env) key) in
  let* found := gets (λ w, list_find (λ d, queryHash d = hash) (queries w)) in
  match found with
  | Some (i, _) => mret i
  | None =>
      let* query := createQuery env key f in
      let* i := gets (λ w, length (queries w)) in
      push_query query ;;
      mret i
  end.

(** ** Runs *)

Inductive input : Type :=
  | GetQuery (key : jsval) (f : fn)
  | Call (c : cmd)
  | Settle (p : pid) (awaited : completion jsval).

Definition step (env : client) (fuel : nat) (i : input) (w : world) : option world :=
  match i with
  | GetQuery key f => snd <$> getQuery env key f w
  | Call c => snd <$> exec env (run env fuel) c w
  | Settle p awaited => snd <$> resume env (run env fuel) p awaited w
  end.

Fixpoint steps (env : client) (fuel : nat) (ins : list input) (w : world) : option world :=
  match ins with
  | [] => Some w
  | i :: ins' =>
      match step env fuel i w with
      | Some w' => steps env fuel ins' w'
      | None => None
      end
  end.

(** ** The observer: [createQueryObserver] *)

(** An observer object: [query] is the entry its closures hold;
    [callback] is its [notify] field, [None] while that is the function
    that does nothing, and the callback given to [subscribe] afterwards
    (a callback is known by its identity).  What the callback in an
    observer does when an entry calls it is the client's [on_notify] for
    that observer. *)
Record QueryObserver : Type := mkQueryObserver {
  query : nat;
  callback : option nat;
}.

(** [observers]: the observer objects made so far, each known by its
    position, which is the identity the entries see in [subscribers].
    [observerRef] and [cleanups] are React's: for a component instance,
    [observerRef.current] when it is set, and the function its effect
    returned (as the call that invokes it) until React has called it. *)
Record page : Type := mkPage {
  cache : world;
  observers : list QueryObserver;
  observerRef : gmap nat obs;
  cleanups : gmap nat cmd;
}.

(** [new QueryClient()], no observer made, nothing rendered. *)
Definition empty_page : page := mkPage empty_world [] ∅ ∅.

Definition in_cache {A} (m : M A) (a : page) : option (completion A * page) :=
  match m (cache a) with
  | Some (c, w') => Some (c, mkPage w' (observers a) (observerRef a) (cleanups a))
  | None => None
  end.

Definition createQueryObserver (env : client) (key : jsval) (f : fn) (a : page)
  : option (completion obs * page) :=
  match in_cache (getQuery env key f) a with
  | Some (Normal q, a') =>
      Some (Normal (length (observers a')),
            mkPage (cache a') (observers a' ++ [mkQueryObserver q None])
              (observerRef a') (cleanups a'))
  | Some (Throw e, a') => Some (Throw e, a')
  | None => None
  end.

(** [observer.getResult()]: the state of the observer's entry as it is
    now.  (For a reference to no observer, which the code cannot hold,
    the state of a new entry.) *)
Definition getResult (o : obs) (a : page) : QueryState :=
  default (mkQueryState Loading true undefined undefined)
    (ob ← observers a !! o; Q ← queries (cache a) !! query ob; Some (state Q)).

(** [observer.subscribe(callback)]: what it returns is the function that
    [subsribe] returned. *)
Definition observer_subscribe (env : client)
    (nested : list cmd → world → option world) (o : obs) (cb : nat) (a : page)
  : option (completion (option cmd) * page) :=
  match observers a !! o with
  | Some ob =>
      let q := query ob in
      in_cache
        (subsribe q o;;
         fetch env nested q;;
         mret (Some (CUnsubscribe q o)))
        (mkPage (cache a) (<[o:=mkQueryObserver q (Some cb)]> (observers a))
           (observerRef a) (cleanups a))
  | None => Some (Normal None, a)
  end.

(** ** The hook: [useQuery] *)

(** What [new Error()] makes. *)
Definition new_Error : jsval := VPrim (PErrorObj "Error").

(** The body of [useQuery] in the component instance [h].  [client]:
    the context holds the [QueryClient] (there is one), or [null].  The
    instance's [rerender] is the callback [h]. *)
Definition useQuery (env : client) (client : bool) (key : jsval) (f : fn)
    (h : nat) (a : page) : option (completion QueryState * page) :=
  if client then
    match
      match observerRef a !! h with
      | Some o => Some (Normal o, a)
      | None =>
          match createQueryObserver env key f a with
          | Some (Normal o, a') =>
              Some (Normal o,
                    mkPage (cache a') (observers a') (<[h:=o]> (observerRef a'))
                      (cleanups a'))
          | r => r
          end
      end
    with
    | Some (Normal o, a') => Some (Normal (getResult o a'), a')
    | Some (Throw e, a') => Some (Throw e, a')
    | None => None
    end
  else Some (Throw new_Error, a).

(** The effect of [useQuery]:
    [observerRef.current?.subscribe(rerender)]. *)
Definition effect (env : client) (nested : list cmd → world → option world)
    (h : nat) (a : page) : option (completion (option cmd) * page) :=
  match observerRef a !! h with
  | Some o => observer_subscribe env nested o h a
  | None => Some (Normal None, a)
  end.

(** ** Components *)

(** What React does with a component that calls [useQuery]: it renders
    it, runs its effect and keeps what that returned, calls that function
    later; and a promise that a fetch awaits settles. *)
Inductive action : Type :=
  | Render (h : nat) (client : bool) (key : jsval) (f : fn)
  | Effect (h : nat)
  | Cleanup (h : nat)
  | Settled (p : pid) (awaited : completion jsval).

Definition page_step (env : client) (fuel : nat) (act : action) (a : page) : option page :=
  match act with
  | Render h client key f => snd <$> useQuery env client key f h a
  | Effect h =>
      match effect env (run env fuel) h a with
      | Some (Normal (Some c), a') =>
          Some (mkPage (cache a') (observers a') (observerRef a')
                  (<[h:=c]> (cleanups a')))
      | Some (_, a') => Some a'
      | None => None
      end
  | Cleanup h =>
      match cleanups a !! h with
      | Some c =>
          match in_cache (exec env (run env fuel) c) a with
          | Some (_, a') =>
              Some (mkPage (cache a') (observers a') (observerRef a')
                      (delete h (cleanups a')))
          | None => None
          end
      | None => Some a
      end
  | Settled p awaited => snd <$> in_cache (resume env (run env fuel) p awaited) a
  end.

Fixpoint page_steps (env : client) (fuel : nat) (acts : list action) (a : page) : option page :=
  match acts with
  | [] => Some a
  | act :: acts' =>
      match page_step env fuel act a with
      | Some a' => page_steps env fuel acts' a'
      | None => None
      end
  end.

(** * Definitions for the properties *)

(** ** What every call on an entry respects

    [evolves lo keep w w']: from [w] to [w'] the entries stay the same
    objects with the same key, hash and fetch function (and the same
    [data], when [keep] is set); the log only grows, a new [notify] event
    belongs to a broadcast that started at position [lo] or later, a new
    [queryFn] event calls the fetch function of the entry it names; no
    promise is lost.  This holds however the call completes. *)

Definition same_entry (keep : bool) (Q Q' : Query) : Prop :=
  queryKey Q' = queryKey Q ∧ queryHash Q' = queryHash Q
  ∧ queryFn Q' = queryFn Q
  ∧ (keep = true → data (state Q') = data (state Q)).

Definition fresh_event (lo : nat) (w : world) (e : event) : Prop :=
  match e with
  | EvState _ _ => True
  | EvNotify b _ _ => lo ≤ b
  | EvQueryFn q f => ∃ Q, queries w !! q = Some Q ∧ queryFn Q = f
  end.

Record evolves (lo : nat) (keep : bool) (w w' : world) : Prop := mkEvolves {
  ev_length : length (queries w') = length (queries w);
  ev_entries : ∀ q Q Q',
    queries w !! q = Some Q → queries w' !! q = Some Q' → same_entry keep Q Q';
  ev_log : ∃ l, log w' = log w ++ l ∧ Forall (fresh_event lo w) l;
  ev_promises_length : length (promises w) ≤ length (promises w');
}.

(** [respects lo keep m w]: run from [w], whose log has reached [lo],
    [m] [evolves], whether it returns or throws. *)
Definition respects {A} (lo : nat) (keep : bool) (m : M A) (w : world) : Prop :=
  lo ≤ length (log w) →
  ∀ c w', m w = Some (c, w') → evolves lo keep w w'.

(** ** What a call does when no [notify] throws *)

(** No promise is rejected in [w'] that was not in [w]. *)
Definition no_new_rejection (w w' : world) : Prop :=
  ∀ p e, promises w' !! p = Some (RejectedWith e) →
         promises w !! p = Some (RejectedWith e).

(** [returns_normally m w]: run from [w], [m] completes normally and
    rejects no promise. *)
Definition returns_normally {A} (m : M A) (w : world) : Prop :=
  ∀ c w', m w = Some (c, w') → (∃ a, c = Normal a) ∧ no_new_rejection w w'.

(** No promise made by [fetch] has been rejected. *)
Definition none_rejected (w : world) : Prop :=
  ∀ p e, promises w !! p ≠ Some (RejectedWith e).

(** [unused f w]: [f] is the fetch function of no entry and has not been
    called. *)
Definition unused (f : fn) (w : world) : Prop :=
  (∀ q Q, queries w !! q = Some Q → queryFn Q ≠ f)
  ∧ (∀ q, EvQueryFn q f ∉ log w).

(** The input is a [getQuery] that hands in [f]. *)
Definition registers (f : fn) (i : input) : Prop :=
  match i with
  | GetQuery _ f' => f' = f
  | _ => False
  end.

(** ** What one broadcast delivers *)

(** The observers whose [notify] was called, in order, by the broadcast
    of entry [q] that started at position [b]. *)
Definition notified (b q : nat) (l : list event) : list obs :=
  omap (λ e, match e with
             | EvNotify b' q' sub =>
                 if decide (b' = b ∧ q' = q) then Some sub else None
             | _ => None
             end) l.

(** [delivered env c subs got]: what a walk over [subs] that completed
    as [c] has called, [got]: all of [subs] if it returned; if it threw,
    [subs] up to and including the observer whose [notify] threw. *)
Definition delivered (env : client) (c : completion unit) (subs got : list obs) : Prop :=
  match c with
  | Normal _ => got = subs
  | Throw e =>
      ∃ before sub rest n,
        subs = before ++ sub :: rest
        ∧ got = before ++ [sub]
        ∧ (on_notify env sub n).2 = Throws e
  end.

(** ** The operations when callbacks make no cache calls

    A client is [passive] when its callbacks make no cache calls and its
    [notify] callbacks return; its fetch functions may throw.  With a
    [passive] client every operation is a plain function of the
    world: [broadcast] is what [setState] does, [settled] what
    [fetch_settled] does, [fetched] what [fetch] does, [resumed] what
    [resume] does and [stepped] what [step] does (lemmas
    [setState_passive] to [step_passive]). *)

(** The four updaters of [fetch], and the entry [createQuery] makes. *)
Definition starting (old : QueryState) : QueryState :=
  mkQueryState (status old) true (data old) undefined.
Definition succeeded (d : jsval) (old : QueryState) : QueryState :=
  mkQueryState Success (isFetching old) d (error old).
Definition failed (e : jsval) (old : QueryState) : QueryState :=
  mkQueryState Error (isFetching old) (data old) e.
Definition finished (old : QueryState) : QueryState :=
  mkQueryState (status old) false (data old) (error old).
Definition outcome (awaited : completion jsval) : QueryState → QueryState :=
  match awaited with
  | Normal d => succeeded d
  | Throw e => failed e
  end.

Definition initial_state : QueryState :=
  mkQueryState Loading true undefined undefined.

Definition new_entry (key : jsval) (hash : option string) (f : fn) : Query :=
  mkQuery key hash None [] initial_state f.

Definition logged (l : list event) (w : world) : world :=
  mkWorld (queries w) (promises w) (log w ++ l).
Definition put_query (q : nat) (f : Query → Query) (w : world) : world :=
  mkWorld (alter f q (queries w)) (promises w) (log w).
Definition put_pstate (p : pid) (s : pstate) (w : world) : world :=
  mkWorld (queries w) (<[p:=s]> (promises w)) (log w).

Definition broadcast (q : nat) (updater : QueryState → QueryState) (w : world) : world :=
  match queries w !! q with
  | Some Q =>
      let st := updater (state Q) in
      logged (EvState q st :: map (EvNotify (length (log w)) q) (subscribers Q))
        (put_query q (set_state st) w)
  | None => w
  end.

Definition settled (q : nat) (awaited : completion jsval) (w : world) : world :=
  broadcast q finished
    (put_query q (set_promise None) (broadcast q (outcome awaited) w)).

Definition fetched (env : client) (q : nat) (w : world) : world :=
  match queries w !! q with
  | Some Q =>
      match promise Q with
      | Some _ => w
      | None =>
          let p := length (promises w) in
          let f := queryFn Q in
          let w1 :=
            broadcast q starting
              (mkWorld (queries w) (promises w ++ [Running q]) (log w)) in
          let w2 := logged [EvQueryFn q f] w1 in
          put_query q (set_promise (Some p))
            match (on_queryFn env f (count_if (is_call_of f) (log w1))).2 with
            | Returns => put_pstate p (Awaiting q) w2
            | Throws e => put_pstate p Fulfilled (settled q (Throw e) w2)
            end
      end
  | None => w
  end.

Definition resumed (p : pid) (awaited : completion jsval) (w : world) : world :=
  match promises w !! p with
  | Some (Awaiting q) => put_pstate p Fulfilled (settled q awaited w)
  | _ => w
  end.

Definition stepped (env : client) (i : input) (w : world) : world :=
  match i with
  | GetQuery key f =>
      match getQuery env key f w with
      | Some (_, w') => w'
      | None => w
      end
  | Call (CFetch q) => fetched env q w
  | Call (CSubscribe q sub) =>
      put_query q (λ Q, set_subscribers (subscribers Q ++ [sub]) Q) w
  | Call (CUnsubscribe q sub) =>
      put_query q
        (λ Q, set_subscribers (filter (λ s, s ≠ sub) (subscribers Q)) Q) w
  | Settle p awaited => resumed p awaited w
  end.

(** ** Invariants of such runs *)

(** An operation waiting for its fetch function is the one its entry's
    [promise] field names; so no entry has two. *)
Definition single_flight (w : world) : Prop :=
  ∀ p q, promises w !! p = Some (Awaiting q) →
    ∃ Q, queries w !! q = Some Q ∧ promise Q = Some p.

Definition is_set (v : jsval) : Prop := v ≠ undefined.

(** [status = success] comes with [data]; [status = error] comes with
    [error], except while a fetch is under way. *)
Definition consistent (st : QueryState) : Prop :=
  (status st = Success → is_set (data st))
  ∧ (status st = Error → is_set (error st) ∨ isFetching st = true).

(** The entries' states, and every state ever written, are [consistent]. *)
Definition all_consistent (w : world) : Prop :=
  (∀ q Q, queries w !! q = Some Q → consistent (state Q))
  ∧ (∀ q st, EvState q st ∈ log w → consistent st).

(** The fetch function settles, or throws, with something other than
    [undefined]. *)
Definition defined (awaited : completion jsval) : Prop :=
  match awaited with
  | Normal v | Throw v => is_set v
  end.

Definition settles_defined (i : input) : Prop :=
  match i with
  | Settle _ awaited => defined awaited
  | _ => True
  end.

Definition throws_defined (env : client) : Prop :=
  ∀ f n e, (on_queryFn env f n).2 = Throws e → is_set e.

(** ** Sample clients and worlds *)

(** Callbacks that make no cache calls; every fetch function returns a
    promise. *)
Definition quiet : client :=
  mkClient sample_heap (λ _ _, ([], Returns)) (λ _ _, ([], Returns)).

(** Every fetch function throws the string boom when it is called. *)
Definition thrower : client :=
  mkClient sample_heap (λ _ _, ([], Returns))
    (λ _ _, ([], Throws (str "boom"))).

(** Observer 10 calls [fetch] on entry 0 the first time it is notified. *)
Definition eager : client :=
  mkClient sample_heap
    (λ sub n, (match sub, n with 10, 0 => [CFetch 0] | _, _ => [] end, Returns))
    (λ _ _, ([], Returns)).

(** Observer 10 calls [fetch] on entry 0 at its first and at its fifth
    notification. *)
Definition eager_twice : client :=
  mkClient sample_heap
    (λ sub n,
       (match sub, n with 10, 0 | 10, 4 => [CFetch 0] | _, _ => [] end, Returns))
    (λ _ _, ([], Returns)).

(** The [notify] of observer 10 throws the string oops the second time
    it is called; no callback makes cache calls. *)
Definition grumpy : client :=
  mkClient sample_heap
    (λ sub n, ([], match sub, n with 10, 1 => Throws (str "oops") | _, _ => Returns end))
    (λ _ _, ([], Returns)).

(** What [observer.subscribe(callback)] of [createQueryObserver] does on
    its entry: it subscribes the observer, then fetches. *)
Definition attach (q : nat) (sub : obs) : list input :=
  [Call (CSubscribe q sub); Call (CFetch q)].

(** An entry with two observers, 10 and 11. *)
Definition two_observers : world :=
  mkWorld [mkQuery (VRef 0) None None [10; 11] initial_state 1] [] [].

(** The same, after one broadcast. *)
Definition two_observers_notified : world :=
  mkWorld [mkQuery (VRef 0) None None [10; 11] initial_state 1] []
    [EvState 0 initial_state; EvNotify 0 0 10; EvNotify 0 0 11].

(** Entry 0 waits for its fetch function (operation 0), with data X from
    an earlier fetch. *)
Definition refetching : world :=
  mkWorld
    [mkQuery (VRef 0) None (Some 0) [10]
       (mkQueryState Success true (str "X") undefined) 1]
    [Awaiting 0] [].

(** Entry 0 has not fetched yet. *)
Definition fresh_entry : world :=
  mkWorld [mkQuery (VRef 0) None None [10] initial_state 1] [] [].

(** Entry 0 holds data X from a fetch that is over. *)
Definition fetched_once : world :=
  mkWorld
    [mkQuery (VRef 0) None None [10]
       (mkQueryState Success false (str "X") undefined) 1]
    [Fulfilled] [].

(** ** Definitions for the further properties *)

(** Every entry's hash is the JSON text of its key, and no two entries
    have the same hash. *)
Definition well_keyed (env : client) (w : world) : Prop :=
  (∀ q Q, queries w !! q = Some Q →
     JSON.stringify (objects env) (queryKey Q) = Normal (queryHash Q))
  ∧ (∀ i j Qi Qj, queries w !! i = Some Qi → queries w !! j = Some Qj →
       queryHash Qi = queryHash Qj → i = j).

(** Every entry of [w] is still there in [w'], at its position, with its
    key, hash and fetch function. *)
Definition keeps_entries (w w' : world) : Prop :=
  ∀ q Q, queries w !! q = Some Q →
    ∃ Q', queries w' !! q = Some Q'
          ∧ queryKey Q' = queryKey Q ∧ queryHash Q' = queryHash Q
          ∧ queryFn Q' = queryFn Q.

(** A value made of arrays and primitives only. *)
Fixpoint object_free (t : jtree) : bool :=
  match t with
  | TPrim _ => true
  | TArr l =>
      (fix go (l : list jtree) : bool :=
         match l with
         | [] => true
         | x :: l' => object_free x && go l'
         end) l
  | TObj _ => false
  end.

(** The entry an input works on, if any: the entry named by a call, the
    entry whose operation a settlement resumes. *)
Definition target (i : input) (w : world) : option nat :=
  match i with
  | GetQuery _ _ => None
  | Call (CFetch q) | Call (CSubscribe q _) | Call (CUnsubscribe q _) => Some q
  | Settle p _ =>
      match promises w !! p with
      | Some (Awaiting q) => Some q
      | _ => None
      end
  end.

(** An entry with an operation in flight says it is fetching. *)
Definition in_flight_fetching (w : world) : Prop :=
  ∀ p q, promises w !! p = Some (Awaiting q) →
    ∃ Q, queries w !! q = Some Q ∧ isFetching (state Q) = true.

(** [related R w w']: every entry of [w] is in [w'], at its position, in
    a state that [R] relates to the one it had. *)
Definition related (R : QueryState → QueryState → Prop) (w w' : world) : Prop :=
  ∀ q Q, queries w !! q = Some Q →
    ∃ Q', queries w' !! q = Some Q' ∧ R (state Q) (state Q').

(** [keeps R m w]: however [m] completes from [w], it leaves a world
    [related] to [w]. *)
Definition keeps {A} (R : QueryState → QueryState → Prop) (m : M A) (w : world) : Prop :=
  ∀ c w', m w = Some (c, w') → related R w w'.

(** What a settlement may carry for the relation to hold: [allowed] of
    the value it resolves with. *)
Definition settles_with (allowed : jsval → Prop) (awaited : completion jsval) : Prop :=
  match awaited with
  | Normal d => allowed d
  | Throw _ => True
  end.

Definition input_settles_with (allowed : jsval → Prop) (i : input) : Prop :=
  match i with
  | Settle _ awaited => settles_with allowed awaited
  | _ => True
  end.

(** The input is not a settlement with a value (a successful fetch). *)
Definition no_success (i : input) : Prop :=
  match i with
  | Settle _ (Normal _) => False
  | _ => True
  end.

(** The value of a successful settlement, if the input is one, is not
    [undefined]. *)
Definition resolves_defined (i : input) : Prop :=
  match i with
  | Settle _ (Normal d) => is_set d
  | _ => True
  end.

(** The relations looked at: the data is the same; *)
Definition same_data (st st' : QueryState) : Prop := data st' = data st.

(** an entry in [error] stays in [error]; *)
Definition stays_error (st st' : QueryState) : Prop :=
  status st = Error → status st' = Error.

(** once out of [loading], not back into it; *)
Definition stays_settled (st st' : QueryState) : Prop :=
  status st ≠ Loading → status st' ≠ Loading.

(** a successful entry holds data, provided it did so before. *)
Definition success_has_data (st : QueryState) : Prop :=
  status st = Success → is_set (data st).
Definition keeps_success_data (st st' : QueryState) : Prop :=
  success_has_data st → success_has_data st'.

(** ** What holds of observers and component instances *)

(** [bound a]: an instance's [observerRef] holds an observer that was
    made, and no two instances hold the same; an observer's entry is in
    the cache; whoever is in an entry's [subscribers] is an observer of
    that entry with a callback put in; the callback in an observer is the
    [rerender] of the instance that holds it; the function kept for an
    instance's cleanup unsubscribes its observer from its entry. *)
Record bound (a : page) : Prop := mkBound {
  bound_ref : ∀ h o, observerRef a !! h = Some o → o < length (observers a);
  bound_ref_inj : ∀ h1 h2 o,
    observerRef a !! h1 = Some o → observerRef a !! h2 = Some o → h1 = h2;
  bound_query : ∀ o ob,
    observers a !! o = Some ob → query ob < length (queries (cache a));
  bound_subscriber : ∀ q Q o,
    queries (cache a) !! q = Some Q → o ∈ subscribers Q →
    ∃ cb, observers a !! o = Some (mkQueryObserver q (Some cb));
  bound_callback : ∀ o ob cb,
    observers a !! o = Some ob → callback ob = Some cb →
    observerRef a !! cb = Some o;
  bound_cleanup : ∀ h c,
    cleanups a !! h = Some c →
    ∃ o ob, observerRef a !! h = Some o ∧ observers a !! o = Some ob
            ∧ c = CUnsubscribe (query ob) o;
}.

(** Two components ask for the same data and mount. *)
Definition mount_two (h1 h2 : nat) (k1 k2 : jsval) (f1 f2 : fn) : list action :=
  [Render h1 true k1 f1; Render h2 true k2 f2; Effect h1; Effect h2].

(** An instance's effect runs, is cleaned up and runs again, as React
    does in a development build. *)
Definition mount_twice (h : nat) : list action := [Effect h; Cleanup h; Effect h].

(** * Reasoning about cache code *)

(** ** JSON.stringify *)

(** More depth than the heap has objects changes nothing. *)
Lemma unfold_enough n h v :
  size h ≤ n → JSON.unfold n h v = JSON.tree_of h v.
Proof.
  unfold JSON.tree_of. revert h v. induction n as [|n IH]; intros h v Hn.
  - assert (size h = 0) as Hz by lia. rewrite Hz. done.
  - destruct v as [p|a]; [destruct (size h); reflexivity|].
    destruct (h !! a) as [o|] eqn:Ha.
    2:{ simpl. rewrite Ha. destruct (size h); simpl; by rewrite ?Ha. }
    pose proof (map_size_delete_Some a h (mk_is_Some _ _ Ha)) as Hs.
    destruct (size h) as [|m] eqn:Hm.
    { apply map_size_empty_inv in Hm. subst h. by rewrite lookup_empty in Ha. }
    simpl. rewrite Ha.
    assert (size (delete a h) = m) as Hd by lia.
    destruct o as [elems|props]; f_equal.
    + apply mapM_ext. intros x. rewrite IH by lia. by rewrite Hd.
    + apply mapM_ext. intros [k x]. simpl. rewrite IH by lia. by rewrite Hd.
Qed.

Example stringify_c1 :
  JSON.stringify sample_heap (VRef 0)
  = Normal (Some ("[" +:+ JSON.quote "c" +:+ ",1]")).
Proof. vm_compute. reflexivity. Qed.

Example stringify_cyclic : JSON.stringify sample_heap (VRef 4) = Throw TypeError.
Proof. vm_compute. reflexivity. Qed.

Example stringify_bigint : JSON.stringify sample_heap (VRef 7) = Throw TypeError.
Proof. vm_compute. reflexivity. Qed.

Example stringify_object :
  JSON.stringify sample_heap (VRef 8)
  = Normal (Some ("{" +:+ JSON.quote "a" +:+ ":1," +:+ JSON.quote "b" +:+ ":2}")).
Proof. vm_compute. reflexivity. Qed.

(** ** Inversion of the monad's combinators *)

Lemma mbind_inv {A B} (m : M A) (k : A → M B) w c w' :
  mbind m k w = Some (c, w') →
  (∃ a w1, m w = Some (Normal a, w1) ∧ k a w1 = Some (c, w'))
  ∨ (∃ e, m w = Some (Throw e, w') ∧ c = Throw e).
Proof.
  unfold mbind. destruct (m w) as [[[a|e] w1]|] eqn:E; intros H.
  - left. eauto.
  - right. injection H as <- <-. eauto.
  - discriminate.
Qed.

Lemma attempt_inv {A} (m : M A) w c w' :
  attempt m w = Some (c, w') → ∃ c0, c = Normal c0 ∧ m w = Some (c0, w').
Proof.
  unfold attempt. destruct (m w) as [[c0 w1]|]; intros H; [|discriminate].
  injection H as <- <-. eauto.
Qed.

Lemma with_query_some {A} q (k : Query → M A) none w Q :
  queries w !! q = Some Q → with_query q k none w = k Q w.
Proof. unfold with_query. by intros ->. Qed.

Lemma with_query_none {A} q (k : Query → M A) none w :
  queries w !! q = None → with_query q k none w = Some (Normal none, w).
Proof. unfold with_query. by intros ->. Qed.

(** ** [evolves] is a preorder, and the monad's combinators keep it *)

Lemma same_entry_refl keep Q : same_entry keep Q Q.
Proof. by repeat split. Qed.

Lemma same_entry_trans keep Q1 Q2 Q3 :
  same_entry keep Q1 Q2 → same_entry keep Q2 Q3 → same_entry keep Q1 Q3.
Proof.
  intros (?&?&?&Hd1) (?&?&?&Hd2). repeat split; try congruence.
  intros Hk. rewrite (Hd2 Hk). exact (Hd1 Hk).
Qed.

Lemma evolves_refl lo keep w : evolves lo keep w w.
Proof.
  split; [done| |exists []; by rewrite app_nil_r|done].
  intros q Q Q' H1 H2. assert (Q' = Q) as -> by congruence.
  apply same_entry_refl.
Qed.

Lemma fresh_event_back lo keep w1 w2 e :
  evolves lo keep w1 w2 → fresh_event lo w2 e → fresh_event lo w1 e.
Proof.
  intros [Hlen Hent _ _]. destruct e as [| b q sub | q f]; simpl; [done..|].
  intros (Q2 & HQ2 & <-).
  destruct (lookup_lt_is_Some_2 (queries w1) q) as [Q1 HQ1].
  { rewrite <- Hlen. by eapply lookup_lt_Some. }
  exists Q1. split; [done|]. symmetry. by apply (Hent q Q1 Q2).
Qed.

Lemma evolves_trans lo keep w1 w2 w3 :
  evolves lo keep w1 w2 → evolves lo keep w2 w3 → evolves lo keep w1 w3.
Proof.
  intros H12 H23.
  pose proof H12 as [Hlen1 Hent1 [l1 [Hl1 Hf1]] Hpl1].
  destruct H23 as [Hlen2 Hent2 [l2 [Hl2 Hf2]] Hpl2].
  split.
  - congruence.
  - intros q Q1 Q3 HQ1 HQ3.
    destruct (lookup_lt_is_Some_2 (queries w2) q) as [Q2 HQ2].
    { rewrite Hlen1. by eapply lookup_lt_Some. }
    eapply same_entry_trans; eauto.
  - exists (l1 ++ l2). split.
    + by rewrite Hl2, Hl1, app_assoc.
    + apply Forall_app. split; [done|].
      eapply List.Forall_impl; [|exact Hf2].
      intros e. by apply (fresh_event_back lo keep w1 w2).
  - lia.
Qed.

Lemma evolves_weaken lo lo' keep w w' :
  lo' ≤ lo → evolves lo true w w' → evolves lo' keep w w'.
Proof.
  intros Hlo [Hlen Hent (l & Hl & Hf) Hpl]. split; try done.
  - intros q Q Q' H1 H2. destruct (Hent q Q Q' H1 H2) as (?&?&?&?).
    repeat split; auto.
  - exists l. split; [done|]. eapply List.Forall_impl; [|exact Hf].
    intros [| b ? ? | ? ?]; simpl; [done| lia | done].
Qed.

Lemma evolves_log_length lo keep w w' :
  evolves lo keep w w' → length (log w) ≤ length (log w').
Proof. intros [_ _ (l & -> & _) _]. rewrite length_app. lia. Qed.

Lemma respects_mret {A} lo keep (a : A) w : respects lo keep (mret a) w.
Proof. intros _ c w' [= <- <-]. apply evolves_refl. Qed.

Lemma respects_lift {A} lo keep (c0 : completion A) w :
  respects lo keep (lift c0) w.
Proof. intros _ c w' [= <- <-]. apply evolves_refl. Qed.

Lemma respects_gets {A} lo keep (f : world → A) w : respects lo keep (gets f) w.
Proof. intros _ c w' [= <- <-]. apply evolves_refl. Qed.

Lemma respects_mbind {A B} lo keep (m : M A) (k : A → M B) w :
  respects lo keep m w →
  (∀ a w1, m w = Some (Normal a, w1) → respects lo keep (k a) w1) →
  respects lo keep (mbind m k) w.
Proof.
  intros Hm Hk Hlo c w' H.
  apply mbind_inv in H as [(a & w1 & H1 & H2)|(e & H1 & ->)].
  - pose proof (Hm Hlo _ _ H1) as E1.
    pose proof (evolves_log_length _ _ _ _ E1) as Hlen.
    pose proof (Hk _ _ H1 ltac:(lia) _ _ H2) as E2.
    by eapply evolves_trans.
  - by apply (Hm Hlo _ _ H1).
Qed.

Lemma respects_attempt {A} lo keep (m : M A) w :
  respects lo keep m w → respects lo keep (attempt m) w.
Proof.
  intros Hm Hlo c w' H. apply attempt_inv in H as (c0 & -> & H).
  by apply (Hm Hlo _ _ H).
Qed.

Lemma respects_emit lo keep e w :
  fresh_event lo w e → respects lo keep (emit e) w.
Proof.
  intros He _ c w' [= <- <-].
  split; simpl; [done| |by eexists [e]; eauto|done].
  intros q Q Q' H1 H2. assert (Q' = Q) as -> by congruence.
  apply same_entry_refl.
Qed.

Lemma respects_update_query lo keep q f w :
  (∀ Q, queries w !! q = Some Q → same_entry keep Q (f Q)) →
  respects lo keep (update_query q f) w.
Proof.
  intros Hf _ c w' [= <- <-].
  split; simpl; [apply length_alter| |exists []; by rewrite app_nil_r|done].
  intros i Q Q' H1 H2. rewrite list_lookup_alter in H2.
  case_decide as Hi; [subst i|]; rewrite H1 in H2; simpl in H2;
    injection H2 as <-.
  - by apply Hf.
  - apply same_entry_refl.
Qed.

Lemma respects_new_promise lo keep s w : respects lo keep (new_promise s) w.
Proof.
  intros _ c w' [= <- <-].
  split; simpl; [done| |exists []; by rewrite app_nil_r|].
  - intros q Q Q' H1 H2. assert (Q' = Q) as -> by congruence.
    apply same_entry_refl.
  - rewrite length_app. lia.
Qed.

Lemma respects_set_pstate lo keep p s w : respects lo keep (set_pstate p s) w.
Proof.
  intros _ c w' [= <- <-].
  split; simpl; [done| |exists []; by rewrite app_nil_r|].
  - intros q Q Q' H1 H2. assert (Q' = Q) as -> by congruence.
    apply same_entry_refl.
  - by rewrite length_insert.
Qed.

Lemma respects_with_query {A} lo keep q (k : Query → M A) none w :
  (∀ Q, queries w !! q = Some Q → respects lo keep (k Q) w) →
  respects lo keep (with_query q k none) w.
Proof.
  intros Hk Hlo c w'. destruct (queries w !! q) as [Q|] eqn:E.
  - rewrite (with_query_some _ _ _ _ _ E). by apply Hk.
  - rewrite (with_query_none _ _ _ _ E). intros [= <- <-]. apply evolves_refl.
Qed.

(** What runs after an attempt runs whatever way the attempt ended. *)
Lemma respects_attempt_bind {A B} lo keep (m : M A) (k : completion A → M B) w :
  respects lo keep m w →
  (∀ c w1, m w = Some (c, w1) → respects lo keep (k c) w1) →
  respects lo keep (mbind (attempt m) k) w.
Proof.
  intros Hm Hk. apply respects_mbind; [by apply respects_attempt|].
  intros c w1 H. apply attempt_inv in H as (c0 & [= <-] & H). by eapply Hk.
Qed.

Lemma respects_try_catch {A} lo keep (body : M A) handler w :
  respects lo keep body w →
  (∀ e w1, body w = Some (Throw e, w1) → respects lo keep (handler e) w1) →
  respects lo keep (try_catch body handler) w.
Proof.
  intros Hb Hh. apply respects_attempt_bind; [done|].
  intros [a|e] w1 H; [apply respects_mret|by eapply Hh].
Qed.

Lemma respects_try_finally {A} lo keep (body : M A) finalizer w :
  respects lo keep body w →
  (∀ c w1, body w = Some (c, w1) → respects lo keep finalizer w1) →
  respects lo keep (try_finally body finalizer) w.
Proof.
  intros Hb Hf. apply respects_attempt_bind; [done|]. intros c w1 H1.
  apply respects_mbind; [by eapply Hf|]. intros _ w2 _. apply respects_lift.
Qed.

(** ** The entry's operations respect it, whatever the callbacks do *)

Section Respects.

Context (env : client) (nested : list cmd → world → option world).
Hypothesis nested_evolves : ∀ cs w w',
  nested cs w = Some w' → evolves (length (log w)) true w w'.

Lemma client_code_respects lo keep cs w :
  respects lo keep (client_code nested cs) w.
Proof.
  intros Hlo c w'. unfold client_code.
  destruct (nested cs w) as [w1|] eqn:E; [|done]. intros [= <- <-].
  eapply evolves_weaken; [exact Hlo|]. by apply (nested_evolves cs).
Qed.

Lemma notify_respects lo keep b q sub w :
  lo ≤ b → respects lo keep (notify env nested b q sub) w.
Proof.
  intros Hb. unfold notify.
  apply respects_mbind; [apply respects_gets|]. intros n w1 _.
  apply respects_mbind; [by apply respects_emit|]. intros _ w2 _.
  apply respects_mbind; [apply client_code_respects|]. intros _ w3 _.
  destruct (on_notify env sub n).2; [apply respects_mret|apply respects_lift].
Qed.

Lemma forEach_notify_respects lo keep b q subs w :
  lo ≤ b → respects lo keep (forEach subs (notify env nested b q)) w.
Proof.
  intros Hb. revert w. induction subs as [|sub subs IH]; intros w; simpl.
  - apply respects_mret.
  - apply respects_mbind; [by apply notify_respects|]. intros _ w1 _. apply IH.
Qed.

Lemma setState_respects lo keep q updater w :
  (keep = true → ∀ st, data (updater st) = data st) →
  respects lo keep (setState env nested q updater) w.
Proof.
  intros Hd Hlo. generalize Hlo. apply respects_with_query. intros Q HQ.
  apply respects_mbind.
  { apply respects_update_query. intros Q0 HQ0.
    assert (Q0 = Q) as -> by congruence. repeat split. simpl. auto. }
  intros [] w1 [= <-].
  apply respects_mbind; [apply respects_gets|]. intros b w2 [= <- <-].
  apply respects_mbind; [apply respects_emit; exact I|]. intros _ w2 _.
  apply forEach_notify_respects. exact Hlo.
Qed.

Lemma call_queryFn_respects lo keep q w :
  respects lo keep (call_queryFn env nested q) w.
Proof.
  apply respects_with_query. intros Q HQ.
  apply respects_mbind; [apply respects_gets|]. intros n w1 [= <- <-].
  apply respects_mbind; [apply respects_emit; simpl; eauto|]. intros _ w1 _.
  apply respects_mbind; [apply client_code_respects|]. intros _ w2 _.
  apply respects_mret.
Qed.

Lemma fetch_settled_respects lo keep q awaited w :
  (keep = true → ∃ e, awaited = Throw e) →
  respects lo keep (fetch_settled env nested q awaited) w.
Proof.
  intros Hk. unfold fetch_settled. apply respects_try_finally.
  - apply respects_try_catch.
    + apply respects_mbind; [apply respects_lift|].
      intros d w1 [= -> <-]. apply setState_respects.
      intros ->. by destruct Hk as [e He].
    + intros e w1 _. by apply setState_respects.
  - intros _ w1 _.
    apply respects_mbind.
    { apply respects_update_query. intros Q _. by repeat split. }
    intros _ w2 _. by apply setState_respects.
Qed.

Lemma fetch_async_respects lo keep q w :
  respects lo keep (fetch_async env nested q) w.
Proof.
  unfold fetch_async.
  apply respects_mbind; [by apply setState_respects|]. intros _ w1 _.
  apply respects_mbind; [apply call_queryFn_respects|]. intros r w2 _.
  destruct r as [|e]; [apply respects_mret|].
  apply respects_mbind; [apply fetch_settled_respects; eauto|].
  intros _ w3 _. apply respects_mret.
Qed.

Lemma async_call_respects lo keep q w :
  respects lo keep (async_call q (fetch_async env nested q)) w.
Proof.
  unfold async_call.
  apply respects_mbind; [by apply respects_new_promise|]. intros p w1 _.
  apply respects_attempt_bind; [apply fetch_async_respects|]. intros c w2 _.
  apply respects_mbind; [apply respects_set_pstate|intros; apply respects_mret].
Qed.

Lemma fetch_respects lo keep q w : respects lo keep (fetch env nested q) w.
Proof.
  apply respects_with_query. intros Q HQ.
  apply respects_mbind; [|intros; apply respects_gets].
  destruct (promise Q); [apply respects_mret|].
  apply respects_mbind; [apply async_call_respects|]. intros p w1 _.
  apply respects_update_query. intros Q' _. by repeat split.
Qed.

Lemma resume_respects lo keep p awaited w :
  (keep = true → ∃ e, awaited = Throw e) →
  respects lo keep (resume env nested p awaited) w.
Proof.
  intros Hk Hlo c w'. unfold resume.
  destruct (promises w !! p) as [[q|q| |e]|] eqn:Hp;
    try (intros [= <- <-]; apply evolves_refl).
  revert Hlo c w'.
  apply respects_attempt_bind; [by apply fetch_settled_respects|].
  intros c w1 _. apply respects_set_pstate.
Qed.

Lemma subsribe_respects lo keep q sub w :
  respects lo keep (subsribe q sub) w.
Proof. apply respects_update_query. intros Q _. by repeat split. Qed.

Lemma unsubscribe_respects lo keep q sub w :
  respects lo keep (unsubscribe q sub) w.
Proof. apply respects_update_query. intros Q _. by repeat split. Qed.

Lemma exec_respects lo keep c w : respects lo keep (exec env nested c) w.
Proof.
  destruct c as [q|q sub|q sub]; simpl.
  - apply respects_mbind; [apply fetch_respects|intros; apply respects_mret].
  - apply subsribe_respects.
  - apply unsubscribe_respects.
Qed.

(** [fetch] hands back a promise, it never throws: a throw of the async
    function is the rejection of its promise. *)
Lemma fetch_never_throws q w c w' :
  fetch env nested q w = Some (c, w') → ∃ a, c = Normal a.
Proof.
  unfold fetch, with_query. destruct (queries w !! q) as [Q|]; [|intros [= <- _]; eauto].
  intros H. apply mbind_inv in H as [(a & w1 & H1 & H2)|(e & H1 & ->)].
  { injection H2 as <- _. eauto. }
  exfalso. destruct (promise Q); [done|].
  apply mbind_inv in H1 as [(p & w1 & H1 & H2)|(e' & H1 & _)]; [done|].
  unfold async_call in H1.
  apply mbind_inv in H1 as [(p & w1 & H1 & H2)|(e'' & H1 & _)]; [|done].
  apply mbind_inv in H2 as [(c1 & w2 & H2 & H3)|(e'' & H2 & _)].
  - apply mbind_inv in H3 as [(u & w3 & H3 & H4)|(e'' & H3 & _)]; done.
  - apply attempt_inv in H2 as (? & ? & _). done.
Qed.

End Respects.

(** Client code run from a callback, to any depth. *)
Lemma run_evolves env fuel cs w w' :
  run env fuel cs w = Some w' → evolves (length (log w)) true w w'.
Proof.
  revert cs w w'. induction fuel as [|n IH]; intros cs w w'; simpl.
  - destruct cs; [|done]. intros [= <-]. apply evolves_refl.
  - revert w. induction cs as [|c cs IHcs]; intros w.
    + intros [= <-]. apply evolves_refl.
    + destruct (exec env (run env n) c w) as [[c0 w1]|] eqn:E; [|done].
      intros H.
      pose proof (exec_respects env (run env n) IH (length (log w)) true c w
                    (le_n _) _ _ E) as E1.
      eapply evolves_trans; [exact E1|].
      eapply evolves_weaken; [|by apply IHcs].
      by eapply evolves_log_length.
Qed.

(** ** Calls return, and reject no promise, when no [notify] throws *)

Lemma no_new_rejection_refl w : no_new_rejection w w.
Proof. by intros p e H. Qed.

Lemma no_new_rejection_trans w1 w2 w3 :
  no_new_rejection w1 w2 → no_new_rejection w2 w3 → no_new_rejection w1 w3.
Proof. intros H1 H2 p e H. by apply H1, H2. Qed.

Lemma returns_same_promises {A} (m : M A) w :
  (∀ c w', m w = Some (c, w') → (∃ a, c = Normal a) ∧ promises w' = promises w) →
  returns_normally m w.
Proof.
  intros H c w' Hm. destruct (H _ _ Hm) as [Hc Hp]. split; [done|].
  intros p e. by rewrite Hp.
Qed.

Lemma returns_mret {A} (a : A) w : returns_normally (mret a) w.
Proof. apply returns_same_promises. intros c w' [= <- <-]. eauto. Qed.

Lemma returns_gets {A} (f : world → A) w : returns_normally (gets f) w.
Proof. apply returns_same_promises. intros c w' [= <- <-]. eauto. Qed.

Lemma returns_emit e w : returns_normally (emit e) w.
Proof. apply returns_same_promises. intros c w' [= <- <-]. eauto. Qed.

Lemma returns_update_query q f w : returns_normally (update_query q f) w.
Proof. apply returns_same_promises. intros c w' [= <- <-]. eauto. Qed.

Lemma returns_mbind {A B} (m : M A) (k : A → M B) w :
  returns_normally m w →
  (∀ a w1, m w = Some (Normal a, w1) → returns_normally (k a) w1) →
  returns_normally (mbind m k) w.
Proof.
  intros Hm Hk c w' H.
  apply mbind_inv in H as [(a & w1 & H1 & H2)|(e & H1 & ->)].
  - destruct (Hm _ _ H1) as [_ N1]. destruct (Hk _ _ H1 _ _ H2) as [Hc N2].
    split; [done|]. by eapply no_new_rejection_trans.
  - destruct (Hm _ _ H1) as [[a Ha] _]. discriminate.
Qed.

Lemma returns_new_promise s w :
  (∀ e, s ≠ RejectedWith e) → returns_normally (new_promise s) w.
Proof.
  intros Hs c w' [= <- <-]. split; [eauto|]. intros p e H. simpl in H.
  apply lookup_app_Some in H as [H|[_ H]]; [done|].
  apply list_lookup_singleton_Some in H as [_ H]. by destruct (Hs e).
Qed.

Lemma returns_set_pstate p s w :
  (∀ e, s ≠ RejectedWith e) → returns_normally (set_pstate p s) w.
Proof.
  intros Hs c w' [= <- <-]. split; [eauto|]. intros p' e H. simpl in H.
  destruct (decide (p = p')) as [<-|Hne].
  - destruct (decide (p < length (promises w))) as [Hlt|Hge].
    + rewrite list_lookup_insert_eq in H by done. injection H as ->.
      by destruct (Hs e).
    + rewrite list_insert_ge in H by lia. done.
  - by rewrite list_lookup_insert_ne in H.
Qed.

Lemma returns_with_query {A} q (k : Query → M A) none w :
  (∀ Q, queries w !! q = Some Q → returns_normally (k Q) w) →
  returns_normally (with_query q k none) w.
Proof.
  intros Hk c w'. destruct (queries w !! q) as [Q|] eqn:E.
  - rewrite (with_query_some _ _ _ _ _ E). by apply Hk.
  - rewrite (with_query_none _ _ _ _ E). intros [= <- <-].
    split; [eauto|apply no_new_rejection_refl].
Qed.

Lemma returns_attempt_bind {A B} (m : M A) (k : completion A → M B) w :
  returns_normally m w →
  (∀ a w1, m w = Some (Normal a, w1) → returns_normally (k (Normal a)) w1) →
  returns_normally (mbind (attempt m) k) w.
Proof.
  intros Hm Hk c w' H.
  apply mbind_inv in H as [(c0 & w1 & H1 & H2)|(e & H1 & ->)].
  - apply attempt_inv in H1 as (c1 & [= <-] & H1).
    destruct (Hm _ _ H1) as [[a ->] N1].
    destruct (Hk _ _ H1 _ _ H2) as [Hc N2].
    split; [done|]. by eapply no_new_rejection_trans.
  - apply attempt_inv in H1 as (? & ? & _). discriminate.
Qed.

(** A body that may throw rejects nothing, and what it throws is
    handled. *)
Lemma returns_try_catch {A} (body : M A) handler w :
  (∀ c w1, body w = Some (c, w1) → no_new_rejection w w1) →
  (∀ e w1, body w = Some (Throw e, w1) → returns_normally (handler e) w1) →
  returns_normally (try_catch body handler) w.
Proof.
  intros Hb Hh c w' H. unfold try_catch in H.
  apply mbind_inv in H as [(c0 & w1 & H1 & H2)|(e & H1 & ->)].
  - apply attempt_inv in H1 as (c1 & [= <-] & H1).
    pose proof (Hb _ _ H1) as N1. destruct c0 as [a|e].
    + injection H2 as <- <-. eauto.
    + destruct (Hh _ _ H1 _ _ H2) as [Hc N2].
      split; [done|]. by eapply no_new_rejection_trans.
  - apply attempt_inv in H1 as (? & ? & _). discriminate.
Qed.

Lemma returns_try_finally {A} (body : M A) finalizer w :
  returns_normally body w →
  (∀ a w1, body w = Some (Normal a, w1) → returns_normally finalizer w1) →
  returns_normally (try_finally body finalizer) w.
Proof.
  intros Hb Hf. unfold try_finally.
  apply returns_attempt_bind; [done|]. intros a w1 H1.
  apply returns_mbind; [by eapply Hf|]. intros _ w2 _.
  apply returns_same_promises. intros c w' [= <- <-]. eauto.
Qed.

Section Returns.

Context (env : client) (nested : list cmd → world → option world).
Hypothesis env_returns : notify_returns env.
Hypothesis nested_quiet : ∀ cs w w',
  nested cs w = Some w' → no_new_rejection w w'.

Lemma client_code_returns cs w : returns_normally (client_code nested cs) w.
Proof.
  intros c w'. unfold client_code.
  destruct (nested cs w) as [w1|] eqn:E; [|done]. intros [= <- <-].
  split; [eauto|]. by eapply nested_quiet.
Qed.

Lemma notify_returns_normally b q sub w :
  returns_normally (notify env nested b q sub) w.
Proof.
  unfold notify.
  apply returns_mbind; [apply returns_gets|]. intros n w1 _.
  apply returns_mbind; [apply returns_emit|]. intros _ w2 _.
  apply returns_mbind; [apply client_code_returns|]. intros _ w3 _.
  rewrite env_returns. apply returns_mret.
Qed.

Lemma forEach_notify_returns b q subs w :
  returns_normally (forEach subs (notify env nested b q)) w.
Proof.
  revert w. induction subs as [|sub subs IH]; intros w; simpl.
  - apply returns_mret.
  - apply returns_mbind; [apply notify_returns_normally|]. intros _ w1 _.
    apply IH.
Qed.

Lemma setState_returns q updater w :
  returns_normally (setState env nested q updater) w.
Proof.
  apply returns_with_query. intros Q HQ.
  apply returns_mbind; [apply returns_update_query|]. intros _ w1 _.
  apply returns_mbind; [apply returns_gets|]. intros b w2 _.
  apply returns_mbind; [apply returns_emit|]. intros _ w3 _.
  apply forEach_notify_returns.
Qed.

Lemma call_queryFn_returns q w :
  returns_normally (call_queryFn env nested q) w.
Proof.
  apply returns_with_query. intros Q HQ.
  apply returns_mbind; [apply returns_gets|]. intros n w1 _.
  apply returns_mbind; [apply returns_emit|]. intros _ w2 _.
  apply returns_mbind; [apply client_code_returns|]. intros _ w3 _.
  apply returns_mret.
Qed.

Lemma fetch_settled_returns q awaited w :
  returns_normally (fetch_settled env nested q awaited) w.
Proof.
  unfold fetch_settled. apply returns_try_finally.
  - apply returns_try_catch.
    + intros c w1 H. destruct awaited as [d|e].
      * by destruct (setState_returns q _ w _ _ H).
      * injection H as _ <-. apply no_new_rejection_refl.
    + intros e w1 _. apply setState_returns.
  - intros _ w1 _.
    apply returns_mbind; [apply returns_update_query|].
    intros _ w2 _. apply setState_returns.
Qed.

Lemma fetch_async_returns q w :
  returns_normally (fetch_async env nested q) w.
Proof.
  unfold fetch_async.
  apply returns_mbind; [apply setState_returns|]. intros _ w1 _.
  apply returns_mbind; [apply call_queryFn_returns|]. intros r w2 _.
  destruct r as [|e]; [apply returns_mret|].
  apply returns_mbind; [apply fetch_settled_returns|].
  intros _ w3 _. apply returns_mret.
Qed.

Lemma async_call_returns q w :
  returns_normally (async_call q (fetch_async env nested q)) w.
Proof.
  unfold async_call.
  apply returns_mbind; [by apply returns_new_promise|]. intros p w1 _.
  apply returns_attempt_bind; [apply fetch_async_returns|]. intros a w2 _.
  apply returns_mbind; [|intros; apply returns_mret].
  apply returns_set_pstate. by destruct a.
Qed.

Lemma fetch_returns q w : returns_normally (fetch env nested q) w.
Proof.
  apply returns_with_query. intros Q HQ.
  apply returns_mbind; [|intros; apply returns_gets].
  destruct (promise Q); [apply returns_mret|].
  apply returns_mbind; [apply async_call_returns|]. intros p w1 _.
  apply returns_update_query.
Qed.

Lemma resume_returns p awaited w :
  returns_normally (resume env nested p awaited) w.
Proof.
  intros c w'. unfold resume.
  destruct (promises w !! p) as [[q|q| |e]|] eqn:Hp;
    try (intros [= <- <-]; split; [eauto|apply no_new_rejection_refl]).
  revert c w'.
  apply returns_attempt_bind; [apply fetch_settled_returns|].
  intros a w1 _. by apply returns_set_pstate.
Qed.

Lemma exec_returns c w : returns_normally (exec env nested c) w.
Proof.
  destruct c as [q|q sub|q sub]; simpl.
  - apply returns_mbind; [apply fetch_returns|intros; apply returns_mret].
  - apply returns_update_query.
  - apply returns_update_query.
Qed.

End Returns.

Lemma run_no_new_rejection env fuel cs w w' :
  notify_returns env → run env fuel cs w = Some w' → no_new_rejection w w'.
Proof.
  intros Henv. revert cs w w'. induction fuel as [|n IH]; intros cs w w'; simpl.
  - destruct cs; [|done]. intros [= <-]. apply no_new_rejection_refl.
  - revert w. induction cs as [|c cs IHcs]; intros w.
    + intros [= <-]. apply no_new_rejection_refl.
    + destruct (exec env (run env n) c w) as [[c0 w1]|] eqn:E; [|done].
      intros H.
      destruct (exec_returns env (run env n) Henv IH c w _ _ E) as [_ N1].
      eapply no_new_rejection_trans; [exact N1|by apply IHcs].
Qed.

(** ** What one broadcast delivers *)

Lemma notified_app b q l1 l2 :
  notified b q (l1 ++ l2) = notified b q l1 ++ notified b q l2.
Proof. apply omap_app. Qed.

Lemma notified_fresh b q lo w l :
  b < lo → Forall (fresh_event lo w) l → notified b q l = [].
Proof.
  intros Hb. induction 1 as [|e l He _ IH]; [done|].
  change (e :: l) with ([e] ++ l). rewrite notified_app, IH, app_nil_r.
  destruct e as [| b' q' sub |]; try done. simpl in He.
  unfold notified. simpl. case_decide as Hd; [|done]. lia.
Qed.

Section Broadcast.

Context (env : client) (nested : list cmd → world → option world).
Hypothesis nested_evolves : ∀ cs w w',
  nested cs w = Some w' → evolves (length (log w)) true w w'.

Lemma notify_log b q sub w c w' :
  b < length (log w) →
  notify env nested b q sub w = Some (c, w') →
  (∃ l, log w' = log w ++ EvNotify b q sub :: l ∧ notified b q l = [])
  ∧ (c = Normal tt
     ∨ ∃ e n, c = Throw e ∧ (on_notify env sub n).2 = Throws e).
Proof.
  intros Hb H. unfold notify, mbind, gets, emit, modify, client_code in H.
  simpl in H.
  destruct (nested _ _) as [w1|] eqn:E; [|done].
  assert (∃ l, log w1 = log w ++ EvNotify b q sub :: l ∧ notified b q l = [])
    as Hlog.
  { apply nested_evolves in E as [_ _ (l & Hl & Hf) _]. simpl in *.
    exists l. split; [by rewrite Hl, <- app_assoc|].
    eapply notified_fresh; [|exact Hf]. rewrite length_app. simpl. lia. }
  destruct (on_notify env sub _).2 as [|e] eqn:Hr; injection H as <- <-.
  - split; [done|by left].
  - split; [done|]. right. eauto.
Qed.

Lemma forEach_notify_log b q subs w c w' :
  b < length (log w) →
  forEach subs (notify env nested b q) w = Some (c, w') →
  ∃ l, log w' = log w ++ l ∧ delivered env c subs (notified b q l).
Proof.
  revert w. induction subs as [|sub subs IH]; intros w Hb H; simpl in H.
  - injection H as <- <-. exists []. by rewrite app_nil_r.
  - apply mbind_inv in H as [(a & w1 & H1 & H2)|(e & H1 & ->)].
    + apply notify_log in H1 as [(l1 & Hl1 & Hn1) _]; [|done].
      apply IH in H2 as (l2 & Hl2 & Hd).
      2:{ rewrite Hl1, length_app. lia. }
      exists (EvNotify b q sub :: l1 ++ l2). split.
      * by rewrite Hl2, Hl1, <- app_assoc.
      * change (EvNotify b q sub :: l1 ++ l2)
          with ([EvNotify b q sub] ++ l1 ++ l2).
        rewrite !notified_app, Hn1. unfold notified at 1. simpl.
        rewrite decide_True by done. simpl.
        destruct c as [u|e]; simpl in *.
        -- by rewrite Hd.
        -- destruct Hd as (before & s & rest & n & -> & -> & Hthrow).
           exists (sub :: before), s, rest, n. by rewrite Hthrow.
    + apply notify_log in H1 as [(l1 & Hl1 & Hn1) [?|(e' & n & [= <-] & Hthrow)]];
        [done| |done].
      exists (EvNotify b q sub :: l1). split; [done|]. unfold delivered.
      exists [], sub, subs, n. split_and!; [done| |done].
      change (EvNotify b q sub :: l1) with ([EvNotify b q sub] ++ l1).
      rewrite notified_app, Hn1. unfold notified. simpl.
      by rewrite decide_True.
Qed.

(** [setState] writes the new state, then calls [notify] for the elements
    of [subscribers], in order, once each: for all of them if none
    throws, and else up to the first that throws, whose exception it
    throws. *)
Lemma setState_log q Q updater w c w' :
  queries w !! q = Some Q →
  setState env nested q updater w = Some (c, w') →
  ∃ l, log w' = log w ++ EvState q (updater (state Q)) :: l
       ∧ delivered env c (subscribers Q) (notified (length (log w)) q l).
Proof.
  intros HQ H.
  unfold setState in H. rewrite (with_query_some _ _ _ _ _ HQ) in H.
  unfold mbind at 1, update_query at 1, modify in H.
  unfold mbind at 1, gets at 1 in H. simpl in H.
  unfold mbind at 1, emit at 1, modify in H. simpl in H.
  apply forEach_notify_log in H as (l & Hl & Hn).
  2:{ simpl. rewrite length_app. simpl. lia. }
  simpl in Hl. exists l. split; [by rewrite Hl, <- app_assoc|done].
Qed.

End Broadcast.

(** ** The operations when callbacks make no cache calls *)

Lemma run_nil env fuel w : run env fuel [] w = Some w.
Proof. by destruct fuel. Qed.

Lemma broadcast_queries q updater w :
  queries (broadcast q updater w)
  = alter (λ Q, set_state (updater (state Q)) Q) q (queries w).
Proof.
  unfold broadcast. destruct (queries w !! q) as [Q|] eqn:E; simpl.
  - apply list_alter_ext; [|done]. intros Q' HQ'. congruence.
  - symmetry. apply list_eq. intros i. rewrite list_lookup_alter.
    case_decide; [subst; by rewrite E|done].
Qed.

Lemma broadcast_promises q updater w :
  promises (broadcast q updater w) = promises w.
Proof. unfold broadcast. by destruct (queries w !! q). Qed.

Lemma broadcast_log q updater w :
  log (broadcast q updater w)
  = log w ++ match queries w !! q with
             | Some Q =>
                 EvState q (updater (state Q))
                 :: map (EvNotify (length (log w)) q) (subscribers Q)
             | None => []
             end.
Proof.
  unfold broadcast. destruct (queries w !! q); simpl; [done|].
  by rewrite app_nil_r.
Qed.

Lemma settled_queries q awaited w :
  queries (settled q awaited w)
  = alter (λ Q, mkQuery (queryKey Q) (queryHash Q) None (subscribers Q)
                  (finished (outcome awaited (state Q))) (queryFn Q))
      q (queries w).
Proof.
  unfold settled. rewrite broadcast_queries. unfold put_query. simpl.
  rewrite broadcast_queries, !list_alter_alter_eq. done.
Qed.

Lemma settled_promises q awaited w : promises (settled q awaited w) = promises w.
Proof. unfold settled. by rewrite broadcast_promises; simpl; rewrite broadcast_promises. Qed.

Section Passive.

Context (env : client) (nested : list cmd → world → option world).
Hypothesis env_passive : passive env.
Hypothesis nested_nil : ∀ w, nested [] w = Some w.

Lemma forEach_notify_passive b q subs w :
  forEach subs (notify env nested b q) w
  = Some (Normal tt, logged (map (EvNotify b q) subs) w).
Proof.
  revert w. induction subs as [|sub subs IH]; intros w; simpl.
  - unfold mret, logged. by rewrite app_nil_r; destruct w.
  - unfold mbind at 1. unfold notify at 1. unfold mbind, gets, emit, modify.
    rewrite (proj1 env_passive). unfold client_code. simpl.
    rewrite nested_nil. unfold mret.
    rewrite IH. unfold logged. simpl. by rewrite <- app_assoc.
Qed.

Lemma setState_passive q updater w :
  setState env nested q updater w = Some (Normal tt, broadcast q updater w).
Proof.
  unfold setState, broadcast, with_query.
  destruct (queries w !! q) as [Q|]; [|done].
  unfold mbind, update_query, gets, emit, modify. simpl.
  rewrite forEach_notify_passive. unfold logged, put_query. simpl.
  by rewrite <- app_assoc.
Qed.

Lemma fetch_settled_passive q awaited w :
  fetch_settled env nested q awaited w
  = Some (Normal tt, settled q awaited w).
Proof.
  unfold fetch_settled, try_finally, try_catch, settled.
  unfold mbind at 1. unfold attempt at 1. unfold mbind at 1.
  unfold attempt at 1.
  destruct awaited as [d|e].
  - unfold mbind at 1, lift at 1. rewrite setState_passive.
    unfold mret. unfold mbind at 1. unfold mbind at 1.
    unfold update_query at 1, modify. rewrite setState_passive. done.
  - unfold mbind at 1, lift at 1. rewrite setState_passive.
    unfold mbind at 1. unfold mbind at 1.
    unfold update_query at 1, modify. rewrite setState_passive. done.
Qed.

Lemma call_queryFn_passive q Q w :
  queries w !! q = Some Q →
  call_queryFn env nested q w
  = Some (Normal (on_queryFn env (queryFn Q)
                    (count_if (is_call_of (queryFn Q)) (log w))).2,
          logged [EvQueryFn q (queryFn Q)] w).
Proof.
  intros HQ. unfold call_queryFn. rewrite (with_query_some _ _ _ _ _ HQ).
  unfold mbind, gets, emit, modify, client_code. simpl.
  rewrite (proj2 env_passive). by rewrite nested_nil.
Qed.

Lemma fetch_passive q w :
  fetch env nested q w
  = Some (Normal (Q' ← queries (fetched env q w) !! q; promise Q'),
          fetched env q w).
Proof.
  unfold fetch, with_query.
  destruct (queries w !! q) as [Q|] eqn:HQ.
  2:{ unfold fetched. rewrite HQ. simpl. by rewrite HQ. }
  destruct (promise Q) as [p|] eqn:Hp.
  { unfold fetched. rewrite HQ, Hp. unfold mbind, mret, gets. simpl.
    by rewrite HQ. }
  unfold mbind at 1. unfold mbind at 1. unfold async_call.
  unfold mbind at 1. unfold new_promise at 1.
  unfold mbind at 1. unfold attempt at 1. unfold fetch_async.
  unfold mbind at 1. rewrite setState_passive.
  unfold fetched. rewrite HQ, Hp. fold starting.
  set (w1 := broadcast q _ _).
  assert (queries w1 !! q = Some (set_state (starting (state Q)) Q)) as HQ1.
  { unfold w1. rewrite broadcast_queries. simpl.
    by rewrite list_lookup_alter_eq, HQ. }
  unfold mbind at 1. rewrite (call_queryFn_passive q _ w1 HQ1). simpl.
  destruct (on_queryFn env (queryFn Q) _).2 as [|e]; [done|].
  unfold mbind at 1. by rewrite fetch_settled_passive.
Qed.

Lemma resume_passive p awaited w :
  resume env nested p awaited w = Some (Normal tt, resumed p awaited w).
Proof.
  unfold resume, resumed.
  destruct (promises w !! p) as [[q|q| |e]|]; try done.
  unfold mbind, attempt. by rewrite fetch_settled_passive.
Qed.

End Passive.

(** ** The registry *)

Lemma getQuery_cases env key f w :
  getQuery env key f w =
  match JSON.stringify (objects env) key with
  | Throw e => Some (Throw e, w)
  | Normal hash =>
      match list_find (λ d, queryHash d = hash) (queries w) with
      | Some (i, _) => Some (Normal i, w)
      | None =>
          Some (Normal (length (queries w)),
                mkWorld (queries w ++ [new_entry key hash f])
                  (promises w) (log w))
      end
  end.
Proof.
  unfold getQuery, createQuery. unfold mbind at 1, lift at 1.
  destruct (JSON.stringify (objects env) key) as [hash|e] eqn:E; [|done].
  unfold mbind at 1, gets at 1.
  destruct (list_find _ (queries w)) as [[i Q]|]; [done|].
  done.
Qed.

(** Keys with the same hash lead to the same entry, and the second
    [getQuery] changes nothing. *)
Lemma getQuery_same_hash env k1 k2 f1 f2 w i w1 :
  JSON.stringify (objects env) k1 = JSON.stringify (objects env) k2 →
  getQuery env k1 f1 w = Some (Normal i, w1) →
  getQuery env k2 f2 w1 = Some (Normal i, w1).
Proof.
  intros Heq. rewrite !getQuery_cases, <- Heq.
  destruct (JSON.stringify (objects env) k1) as [hash|e]; [|done].
  destruct (list_find _ (queries w)) as [[j Q]|] eqn:Hf.
  - intros [= <- <-]. by rewrite Hf.
  - intros [= <- <-]. simpl.
    rewrite list_find_app_r by done. simpl.
    rewrite decide_True by done. simpl. done.
Qed.

Lemma getQuery_entry env key f w i w' :
  getQuery env key f w = Some (Normal i, w') →
  ∃ hash Q,
    JSON.stringify (objects env) key = Normal hash
    ∧ queries w' !! i = Some Q ∧ queryHash Q = hash
    ∧ (w' = w
       ∨ (list_find (λ d, queryHash d = hash) (queries w) = None
          ∧ i = length (queries w) ∧ Q = new_entry key hash f
          ∧ w' = mkWorld (queries w ++ [Q]) (promises w) (log w))).
Proof.
  rewrite getQuery_cases.
  destruct (JSON.stringify (objects env) key) as [hash|e] eqn:HS; [|done].
  destruct (list_find _ _) as [[j Q]|] eqn:HF.
  - intros [= <- <-]. apply list_find_Some in HF as (HQ & HH & _).
    exists hash, Q. split_and!; auto.
  - intros [= <- <-]. exists hash, (new_entry key hash f).
    split_and!; auto.
    simpl. by rewrite lookup_app_r, Nat.sub_diag.
Qed.

(** Keys with the same hash: the first [getQuery] leaves an entry with
    that hash at the position it returns, and the second returns that
    position and changes nothing. *)
Lemma getQuery_shared env k1 k2 f1 f2 w i w1 :
  JSON.stringify (objects env) k1 = JSON.stringify (objects env) k2 →
  getQuery env k1 f1 w = Some (Normal i, w1) →
  (∃ Q, queries w1 !! i = Some Q
        ∧ JSON.stringify (objects env) k1 = Normal (queryHash Q)
        ∧ JSON.stringify (objects env) k2 = Normal (queryHash Q)
        ∧ (w1 = w
           ∨ (i = length (queries w) ∧ Q = new_entry k1 (queryHash Q) f1)))
  ∧ getQuery env k2 f2 w1 = Some (Normal i, w1).
Proof.
  intros Heq H. split; [|by eapply getQuery_same_hash].
  apply getQuery_entry in H as (hash & Q & HS & HQ & <- & HW).
  exists Q. split_and!; [done|done|by rewrite <- Heq|].
  destruct HW as [->|(_ & -> & -> & _)]; [by left|by right].
Qed.

Lemma struct_eq_stringify h k1 k2 :
  struct_eq h k1 k2 → JSON.stringify h k1 = JSON.stringify h k2.
Proof. intros (t & H1 & H2). unfold JSON.stringify. by rewrite H1, H2. Qed.

(** ** Runs from the outside *)

Lemma step_evolves env fuel i w w' :
  (∀ key f, i ≠ GetQuery key f) →
  step env fuel i w = Some w' → evolves (length (log w)) false w w'.
Proof.
  intros Hi H. destruct i as [key f|c|p awaited]; simpl in H.
  - by destruct (Hi key f).
  - destruct (exec _ _ c w) as [[c0 w1]|] eqn:E; [|done]. injection H as <-.
    exact (exec_respects env (run env fuel) (run_evolves env fuel)
             (length (log w)) false c w (le_n _) _ _ E).
  - destruct (resume _ _ p awaited w) as [[c0 w1]|] eqn:E; [|done].
    injection H as <-.
    exact (resume_respects env (run env fuel) (run_evolves env fuel)
             (length (log w)) false p awaited w ltac:(done) (le_n _)
             _ _ E).
Qed.

Lemma step_getQuery env fuel key f w w' :
  step env fuel (GetQuery key f) w = Some w' →
  w' = w ∨ ∃ hash, w' = mkWorld (queries w ++ [new_entry key hash f])
                          (promises w) (log w).
Proof.
  simpl. rewrite getQuery_cases.
  destruct (JSON.stringify _ _) as [hash|e]; [|intros [= <-]; by left].
  destruct (list_find _ _) as [[i Q]|]; intros [= <-]; [by left|].
  right. by exists hash.
Qed.

Lemma step_none_rejected env fuel i w w' :
  notify_returns env →
  step env fuel i w = Some w' → none_rejected w → none_rejected w'.
Proof.
  intros Henv H Hw p e Hp. destruct i as [key f|c|p0 awaited].
  - apply step_getQuery in H as [->|[hash ->]]; by apply (Hw p e).
  - simpl in H.
    destruct (exec _ _ c w) as [[c0 w1]|] eqn:E; [|done]. injection H as <-.
    destruct (exec_returns env (run env fuel) Henv
                (λ cs w0 w1, run_no_new_rejection env fuel cs w0 w1 Henv)
                c w _ _ E) as [_ N].
    apply (Hw p e). by apply N.
  - simpl in H.
    destruct (resume _ _ p0 awaited w) as [[c0 w1]|] eqn:E; [|done].
    injection H as <-.
    destruct (resume_returns env (run env fuel) Henv
                (λ cs w0 w1, run_no_new_rejection env fuel cs w0 w1 Henv)
                p0 awaited w _ _ E) as [_ N].
    apply (Hw p e). by apply N.
Qed.

Lemma steps_none_rejected env fuel ins w w' :
  notify_returns env →
  steps env fuel ins w = Some w' → none_rejected w → none_rejected w'.
Proof.
  intros Henv. revert w. induction ins as [|i ins IH]; intros w; simpl.
  - by intros [= <-].
  - destruct (step env fuel i w) as [w1|] eqn:E; [|done].
    intros H Hw. apply (IH w1 H). by eapply step_none_rejected.
Qed.

Lemma evolves_unused lo keep f w w' :
  evolves lo keep w w' → unused f w → unused f w'.
Proof.
  intros [Hlen Hent (l & Hl & Hf) _] [Hq Hlog]. split.
  - intros q Q' HQ'.
    destruct (lookup_lt_is_Some_2 (queries w) q) as [Q HQ].
    { rewrite <- Hlen. by eapply lookup_lt_Some. }
    destruct (Hent q Q Q' HQ HQ') as (_ & _ & -> & _). by eapply Hq.
  - intros q. rewrite Hl, elem_of_app. intros [H|H]; [by apply (Hlog q)|].
    rewrite Forall_forall in Hf. apply list_elem_of_In in H.
    destruct (Hf _ H) as (Q & HQ & Hfn). by apply (Hq q Q).
Qed.

Lemma step_unused env fuel f i w w' :
  ¬ registers f i → step env fuel i w = Some w' → unused f w → unused f w'.
Proof.
  intros Hi H Hw. destruct i as [key f'|c|p awaited].
  - apply step_getQuery in H as [->|[hash ->]]; [done|].
    destruct Hw as [Hq Hlog]. split; [|done]. simpl. intros q Q HQ.
    apply lookup_app_Some in HQ as [HQ|[_ HQ]]; [by eapply Hq|].
    apply list_lookup_singleton_Some in HQ as [_ <-]. simpl.
    intros ->. by apply Hi.
  - apply step_evolves in H; [|done]. by eapply evolves_unused.
  - apply step_evolves in H; [|done]. by eapply evolves_unused.
Qed.

Lemma steps_unused env fuel f ins w w' :
  Forall (λ i, ¬ registers f i) ins →
  steps env fuel ins w = Some w' → unused f w → unused f w'.
Proof.
  intros Hins. revert w. induction Hins as [|i ins Hi _ IH]; intros w; simpl.
  - by intros [= <-].
  - destruct (step env fuel i w) as [w1|] eqn:E; [|done].
    intros H Hw. apply (IH w1 H). by eapply step_unused.
Qed.

(** ** Relations between an entry's states that every call keeps *)

Section Related.

Context (R : QueryState → QueryState → Prop) (allowed : jsval → Prop).
Hypothesis R_refl : ∀ st, R st st.
Hypothesis R_trans : ∀ st1 st2 st3, R st1 st2 → R st2 st3 → R st1 st3.
Hypothesis R_starting : ∀ st, R st (starting st).
Hypothesis R_finished : ∀ st, R st (finished st).
Hypothesis R_failed : ∀ e st, R st (failed e st).
Hypothesis R_succeeded : ∀ d st, allowed d → R st (succeeded d st).

Lemma related_refl w : related R w w.
Proof. intros q Q HQ. eauto. Qed.

Lemma related_trans w1 w2 w3 :
  related R w1 w2 → related R w2 w3 → related R w1 w3.
Proof.
  intros H1 H2 q Q HQ. destruct (H1 _ _ HQ) as (Q2 & HQ2 & HR2).
  destruct (H2 _ _ HQ2) as (Q3 & HQ3 & HR3). eauto.
Qed.

Lemma related_same_queries w w' :
  queries w' = queries w → related R w w'.
Proof. intros E q Q HQ. rewrite E. eauto. Qed.

Lemma keeps_same_queries {A} (m : M A) w :
  (∀ c w', m w = Some (c, w') → queries w' = queries w) → keeps R m w.
Proof. intros H c w' Hm. apply related_same_queries. eauto. Qed.

Lemma keeps_mbind {A B} (m : M A) (k : A → M B) w :
  keeps R m w →
  (∀ a w1, m w = Some (Normal a, w1) → keeps R (k a) w1) →
  keeps R (mbind m k) w.
Proof.
  intros Hm Hk c w' H.
  apply mbind_inv in H as [(a & w1 & H1 & H2)|(e & H1 & _)].
  - eapply related_trans; [by eapply Hm|by eapply Hk].
  - by eapply Hm.
Qed.

Lemma keeps_attempt {A} (m : M A) w : keeps R m w → keeps R (attempt m) w.
Proof.
  intros Hm c w' H. apply attempt_inv in H as (c0 & _ & H). by eapply Hm.
Qed.

Lemma keeps_emit e w : keeps R (emit e) w.
Proof. apply keeps_same_queries. by intros c w' [= _ <-]. Qed.

Lemma keeps_new_promise s w : keeps R (new_promise s) w.
Proof. apply keeps_same_queries. by intros c w' [= _ <-]. Qed.

Lemma keeps_set_pstate p s w : keeps R (set_pstate p s) w.
Proof. apply keeps_same_queries. by intros c w' [= _ <-]. Qed.

Lemma keeps_update_query q f w :
  (∀ Q, queries w !! q = Some Q → R (state Q) (state (f Q))) →
  keeps R (update_query q f) w.
Proof.
  intros Hf c w' [= _ <-] q' Q' HQ'. simpl.
  rewrite list_lookup_alter. case_decide as Hd.
  - subst q'. rewrite HQ'. simpl. eauto.
  - eauto.
Qed.

Lemma keeps_with_query {A} q (k : Query → M A) none w :
  (∀ Q, queries w !! q = Some Q → keeps R (k Q) w) →
  keeps R (with_query q k none) w.
Proof.
  intros Hk c w'. unfold with_query.
  destruct (queries w !! q) as [Q|] eqn:HQ.
  - by apply Hk.
  - intros [= _ <-]. apply related_refl.
Qed.

Lemma keeps_try_catch {A} (body : M A) handler w :
  keeps R body w →
  (∀ e w1, body w = Some (Throw e, w1) → keeps R (handler e) w1) →
  keeps R (try_catch body handler) w.
Proof.
  intros Hb Hh. apply keeps_mbind; [by apply keeps_attempt|].
  intros c w1 H. apply attempt_inv in H as (c0 & [= <-] & H).
  destruct c as [a|e].
  - apply keeps_same_queries. by intros ? ? [= _ <-].
  - by eapply Hh.
Qed.

Lemma keeps_try_finally {A} (body : M A) finalizer w :
  keeps R body w →
  (∀ c w1, body w = Some (c, w1) → keeps R finalizer w1) →
  keeps R (try_finally body finalizer) w.
Proof.
  intros Hb Hf. apply keeps_mbind; [by apply keeps_attempt|].
  intros c w1 H. apply attempt_inv in H as (c0 & [= <-] & H).
  apply keeps_mbind; [by eapply Hf|].
  intros _ w2 _. apply keeps_same_queries. by intros ? ? [= _ <-].
Qed.

Context (env : client) (nested : list cmd → world → option world).
Hypothesis nested_related : ∀ cs w w', nested cs w = Some w' → related R w w'.

Lemma client_code_keeps cs w : keeps R (client_code nested cs) w.
Proof.
  intros c w'. unfold client_code.
  destruct (nested cs w) as [w1|] eqn:E; [|done]. intros [= _ <-].
  by eapply nested_related.
Qed.

Lemma notify_keeps b q sub w : keeps R (notify env nested b q sub) w.
Proof.
  apply keeps_mbind; [apply keeps_same_queries; by intros ? ? [= _ <-]|].
  intros n w1 _. apply keeps_mbind; [apply keeps_emit|].
  intros _ w2 _. apply keeps_mbind; [apply client_code_keeps|].
  intros _ w3 _. apply keeps_same_queries.
  destruct (on_notify env sub n).2; by intros ? ? [= _ <-].
Qed.

Lemma forEach_notify_keeps b q subs w :
  keeps R (forEach subs (notify env nested b q)) w.
Proof.
  revert w. induction subs as [|sub subs IH]; intros w; simpl.
  - apply keeps_same_queries. by intros ? ? [= _ <-].
  - apply keeps_mbind; [apply notify_keeps|]. intros _ w1 _. apply IH.
Qed.

Lemma setState_keeps q updater w :
  (∀ st, R st (updater st)) → keeps R (setState env nested q updater) w.
Proof.
  intros Hu. apply keeps_with_query. intros Q HQ.
  apply keeps_mbind.
  { apply keeps_update_query. intros Q0 HQ0. simpl.
    assert (Q0 = Q) as -> by congruence. apply Hu. }
  intros _ w1 _.
  apply keeps_mbind; [apply keeps_same_queries; by intros ? ? [= _ <-]|].
  intros b w2 _. apply keeps_mbind; [apply keeps_emit|].
  intros _ w3 _. apply forEach_notify_keeps.
Qed.

(** Where [setState] leaves the entry: in a state related to the one it
    wrote. *)
Lemma setState_written q Q updater w c w' :
  queries w !! q = Some Q →
  setState env nested q updater w = Some (c, w') →
  ∃ Q', queries w' !! q = Some Q' ∧ R (updater (state Q)) (state Q').
Proof.
  intros HQ H. unfold setState in H. rewrite (with_query_some _ _ _ _ _ HQ) in H.
  apply mbind_inv in H as [(u & w1 & H1 & H2)|(e & H1 & _)]; [|done].
  injection H1 as _ <-.
  assert (K : keeps R
            (let* b := gets (λ w0, length (log w0)) in
             emit (EvState q (updater (state Q)));;
             forEach (subscribers Q) (notify env nested b q))
            (mkWorld (alter (set_state (updater (state Q))) q (queries w))
               (promises w) (log w))).
  { apply keeps_mbind; [apply keeps_same_queries; by intros ? ? [= _ <-]|].
    intros b w2 _. apply keeps_mbind; [apply keeps_emit|].
    intros _ w3 _. apply forEach_notify_keeps. }
  apply (K _ _ H2 q (set_state (updater (state Q)) Q)).
  simpl. by rewrite list_lookup_alter_eq, HQ.
Qed.

Lemma call_queryFn_keeps q w : keeps R (call_queryFn env nested q) w.
Proof.
  apply keeps_with_query. intros Q HQ.
  apply keeps_mbind; [apply keeps_same_queries; by intros ? ? [= _ <-]|].
  intros n w1 _. apply keeps_mbind; [apply keeps_emit|].
  intros _ w2 _. apply keeps_mbind; [apply client_code_keeps|].
  intros _ w3 _. apply keeps_same_queries. by intros ? ? [= _ <-].
Qed.

Lemma fetch_settled_keeps q awaited w :
  settles_with allowed awaited → keeps R (fetch_settled env nested q awaited) w.
Proof.
  intros Ha. apply keeps_try_finally.
  - apply keeps_try_catch.
    + apply keeps_mbind; [apply keeps_same_queries; by intros ? ? [= _ <-]|].
      intros d w1 [= -> <-]. apply setState_keeps.
      intros st. by apply (R_succeeded d).
    + intros e w1 _. apply setState_keeps. intros st. apply (R_failed e).
  - intros c w1 _. apply keeps_mbind.
    + apply keeps_update_query. intros Q _. apply R_refl.
    + intros _ w2 _. apply setState_keeps. apply R_finished.
Qed.

Lemma fetch_async_keeps q w : keeps R (fetch_async env nested q) w.
Proof.
  apply keeps_mbind; [apply setState_keeps, R_starting|].
  intros _ w1 _. apply keeps_mbind; [apply call_queryFn_keeps|].
  intros [|e] w2 _.
  - apply keeps_same_queries. by intros ? ? [= _ <-].
  - apply keeps_mbind; [by apply fetch_settled_keeps|].
    intros _ w3 _. apply keeps_same_queries. by intros ? ? [= _ <-].
Qed.

Lemma fetch_keeps q w : keeps R (fetch env nested q) w.
Proof.
  apply keeps_with_query. intros Q HQ. apply keeps_mbind.
  - destruct (promise Q).
    + apply keeps_same_queries. by intros ? ? [= _ <-].
    + apply keeps_mbind.
      * apply keeps_mbind; [apply keeps_new_promise|].
        intros p w1 _. apply keeps_mbind; [apply keeps_attempt, fetch_async_keeps|].
        intros c w2 _. apply keeps_mbind; [apply keeps_set_pstate|].
        intros _ w3 _. apply keeps_same_queries. by intros ? ? [= _ <-].
      * intros p w1 _. apply keeps_update_query. intros Q0 _. apply R_refl.
  - intros _ w1 _. apply keeps_same_queries. by intros ? ? [= _ <-].
Qed.

Lemma resume_keeps p awaited w :
  settles_with allowed awaited → keeps R (resume env nested p awaited) w.
Proof.
  intros Ha c w'. unfold resume.
  destruct (promises w !! p) as [[q|q| |e]|];
    try (intros [= _ <-]; apply related_refl).
  revert c w'. apply keeps_mbind; [by apply keeps_attempt, fetch_settled_keeps|].
  intros c w1 _. apply keeps_set_pstate.
Qed.

Lemma exec_keeps c w : keeps R (exec env nested c) w.
Proof.
  destruct c as [q|q sub|q sub]; simpl.
  - apply keeps_mbind; [apply fetch_keeps|].
    intros _ w1 _. apply keeps_same_queries. by intros ? ? [= _ <-].
  - apply keeps_update_query. intros Q _. apply R_refl.
  - apply keeps_update_query. intros Q _. apply R_refl.
Qed.

End Related.

Section RelatedRuns.

Context (R : QueryState → QueryState → Prop) (allowed : jsval → Prop).
Hypothesis R_refl : ∀ st, R st st.
Hypothesis R_trans : ∀ st1 st2 st3, R st1 st2 → R st2 st3 → R st1 st3.
Hypothesis R_starting : ∀ st, R st (starting st).
Hypothesis R_finished : ∀ st, R st (finished st).
Hypothesis R_failed : ∀ e st, R st (failed e st).
Hypothesis R_succeeded : ∀ d st, allowed d → R st (succeeded d st).

Lemma run_related env fuel cs w w' :
  run env fuel cs w = Some w' → related R w w'.
Proof.
  revert cs w w'. induction fuel as [|n IH]; intros cs w w'; simpl.
  - destruct cs; [|done]. intros [= <-]. by apply related_refl.
  - revert w. induction cs as [|c cs IHcs]; intros w.
    + intros [= <-]. by apply related_refl.
    + destruct (exec env (run env n) c w) as [[c0 w1]|] eqn:E; [|done].
      intros H. eapply related_trans; [done| |by apply IHcs].
      eapply (exec_keeps R); eauto.
Qed.

Lemma step_related env fuel i w w' :
  input_settles_with allowed i →
  step env fuel i w = Some w' → related R w w'.
Proof.
  intros Hi H. destruct i as [key f|c|p awaited].
  - apply step_getQuery in H as [->|[hash ->]].
    + by apply related_refl.
    + intros q Q HQ. exists Q. split; [|done]. simpl. by apply lookup_app_l_Some.
  - simpl in H. destruct (exec _ _ c w) as [[c0 w1]|] eqn:E; [|done].
    injection H as <-. eapply (exec_keeps R allowed); eauto using run_related.
  - simpl in H. destruct (resume _ _ p awaited w) as [[c0 w1]|] eqn:E; [|done].
    injection H as <-. eapply (resume_keeps R allowed); eauto using run_related.
Qed.

Lemma steps_related env fuel ins w w' :
  Forall (input_settles_with allowed) ins →
  steps env fuel ins w = Some w' → related R w w'.
Proof.
  intros Hins. revert w. induction Hins as [|i ins Hi _ IH]; intros w; simpl.
  - intros [= <-]. by apply related_refl.
  - destruct (step env fuel i w) as [w1|] eqn:HS; [|done]. intros H.
    eapply related_trans; [done|by eapply step_related|by apply IH].
Qed.

End RelatedRuns.

(** ** Runs with a passive client *)

Lemma step_passive env fuel i w :
  passive env → step env fuel i w = Some (stepped env i w).
Proof.
  intros Hp. destruct i as [key f|[q|q sub|q sub]|p awaited]; simpl.
  - rewrite getQuery_cases. destruct (JSON.stringify _ _); [|done].
    by destruct (list_find _ _) as [[??]|].
  - unfold mbind. by rewrite (fetch_passive env _ Hp (run_nil env fuel)).
  - done.
  - done.
  - by rewrite (resume_passive env _ Hp (run_nil env fuel)).
Qed.

Lemma steps_passive env fuel ins w :
  passive env → steps env fuel ins w = Some (foldl (λ w i, stepped env i w) w ins).
Proof.
  intros Hp. revert w. induction ins as [|i ins IH]; intros w; simpl; [done|].
  by rewrite step_passive, IH.
Qed.

(** The states written by a broadcast, by the end of a fetch, by the
    start of one. *)
Lemma broadcast_written q updater w q' st :
  EvState q' st ∈ log (broadcast q updater w) →
  EvState q' st ∈ log w
  ∨ ∃ Q, queries w !! q = Some Q ∧ q' = q ∧ st = updater (state Q).
Proof.
  rewrite broadcast_log, elem_of_app. intros [H|H]; [by left|].
  destruct (queries w !! q) as [Q|]; [|by apply elem_of_nil in H].
  apply elem_of_cons in H as [[= -> ->]|H]; [right; eauto|].
  apply list_elem_of_fmap in H as (sub & [=] & _).
Qed.

Lemma settled_written q awaited w q' st :
  EvState q' st ∈ log (settled q awaited w) →
  EvState q' st ∈ log w
  ∨ ∃ Q, queries w !! q = Some Q ∧ q' = q
         ∧ (st = outcome awaited (state Q)
            ∨ st = finished (outcome awaited (state Q))).
Proof.
  unfold settled. intros H.
  apply broadcast_written in H as [H|(Q1 & HQ1 & -> & ->)].
  - simpl in H. apply broadcast_written in H as [H|(Q & HQ & -> & ->)];
      [by left|right; eauto 6].
  - right. simpl in HQ1. rewrite list_lookup_alter_eq, broadcast_queries in HQ1.
    rewrite list_lookup_alter_eq in HQ1.
    destruct (queries w !! q) as [Q|]; [|done]. simpl in HQ1.
    injection HQ1 as <-. simpl. eauto 6.
Qed.

Lemma alter_lookup_insert {A} (f : A → A) (l : list A) i x :
  l !! i = Some x → alter f i l = <[i:=f x]> l.
Proof.
  intros H. apply list_eq. intros j.
  rewrite list_lookup_alter, list_lookup_insert.
  pose proof (lookup_lt_Some _ _ _ H).
  destruct (decide (i = j)) as [<-|]; [|by rewrite decide_False by tauto].
  by rewrite decide_True, H by done.
Qed.

Lemma alter_insert {A} (f : A → A) (l : list A) i x :
  i < length l → alter f i (<[i:=x]> l) = <[i:=f x]> l.
Proof.
  intros H. rewrite (alter_lookup_insert f _ i x).
  - apply list_insert_insert_eq.
  - by apply list_lookup_insert_eq.
Qed.

Lemma insert_snoc {A} (l : list A) x y : <[length l:=y]> (l ++ [x]) = l ++ [y].
Proof. rewrite insert_app_r_alt by done. by rewrite Nat.sub_diag. Qed.

(** What a [fetch] that starts an operation leaves behind. *)
Lemma fetched_spec env q Q w :
  queries w !! q = Some Q → promise Q = None →
  ∃ s st,
    queries (fetched env q w)
    = <[q:=mkQuery (queryKey Q) (queryHash Q) (Some (length (promises w)))
             (subscribers Q) st (queryFn Q)]> (queries w)
    ∧ promises (fetched env q w) = promises w ++ [s]
    ∧ ((s = Awaiting q ∧ st = starting (state Q))
       ∨ (∃ e n, (on_queryFn env (queryFn Q) n).2 = Throws e
                 ∧ s = Fulfilled
                 ∧ st = finished (failed e (starting (state Q)))))
    ∧ (∀ q' st', EvState q' st' ∈ log (fetched env q w) →
         EvState q' st' ∈ log w
         ∨ (q' = q
            ∧ (st' = starting (state Q)
               ∨ ∃ e n, (on_queryFn env (queryFn Q) n).2 = Throws e
                        ∧ (st' = failed e (starting (state Q))
                           ∨ st' = finished (failed e (starting (state Q))))))).
Proof.
  intros HQ Hp. unfold fetched. rewrite HQ, Hp.
  set (w0 := mkWorld (queries w) (promises w ++ [Running q]) (log w)).
  set (w1 := broadcast q starting w0).
  assert (queries w1 = <[q:=set_state (starting (state Q)) Q]> (queries w)) as Hq1.
  { unfold w1. rewrite broadcast_queries. simpl.
    by rewrite (alter_lookup_insert _ _ _ _ HQ). }
  assert (promises w1 = promises w ++ [Running q]) as Hp1.
  { unfold w1. by rewrite broadcast_promises. }
  assert (∀ q' st', EvState q' st' ∈ log w1 →
            EvState q' st' ∈ log w ∨ (q' = q ∧ st' = starting (state Q))) as Hl1.
  { intros q' st' H. apply broadcast_written in H as [H|(Q0 & HQ0 & -> & ->)];
      [by left|right]. simpl in HQ0. by assert (Q0 = Q) as -> by congruence. }
  pose proof (lookup_lt_Some _ _ _ HQ) as Hlt.
  set (n := count_if _ (log w1)).
  destruct (on_queryFn env (queryFn Q) n).2 as [|e] eqn:Hr.
  - exists (Awaiting q), (starting (state Q)). simpl. split_and!.
    + by rewrite Hq1, alter_insert.
    + by rewrite Hp1, insert_snoc.
    + by left.
    + intros q' st' H. apply elem_of_app in H as [H|H].
      * destruct (Hl1 _ _ H) as [?|[-> ->]]; eauto.
      * apply list_elem_of_singleton in H. discriminate.
  - exists Fulfilled, (finished (failed e (starting (state Q)))). simpl.
    split_and!.
    + rewrite settled_queries. simpl. rewrite Hq1.
      by rewrite !alter_insert by (by rewrite ?length_insert).
    + by rewrite settled_promises; simpl; rewrite Hp1, insert_snoc.
    + right. eauto.
    + intros q' st' H.
      apply settled_written in H as [H|(Q1 & HQ1 & -> & H)].
      * simpl in H. apply elem_of_app in H as [H|H].
        -- destruct (Hl1 _ _ H) as [?|[-> ->]]; eauto.
        -- apply list_elem_of_singleton in H. discriminate.
      * right. split; [done|]. right. exists e, n. split; [done|].
        simpl in HQ1. rewrite Hq1, list_lookup_insert_eq in HQ1 by done.
        injection HQ1 as <-. exact H.
Qed.

Lemma fetched_idle env q w :
  (∀ Q, queries w !! q = Some Q → promise Q ≠ None) → fetched env q w = w.
Proof.
  intros H. unfold fetched. destruct (queries w !! q) as [Q|] eqn:HQ; [|done].
  destruct (promise Q) eqn:Hp; [done|]. by destruct (H Q).
Qed.

(** What a [fetch] whose fetch function throws on the spot leaves of the
    entry. *)
Lemma fetched_throws env q Q e w :
  queries w !! q = Some Q → promise Q = None →
  (∀ n, (on_queryFn env (queryFn Q) n).2 = Throws e) →
  queries (fetched env q w) !! q
  = Some (mkQuery (queryKey Q) (queryHash Q) (Some (length (promises w)))
            (subscribers Q) (mkQueryState Error false (data (state Q)) e)
            (queryFn Q)).
Proof.
  intros HQ Hp Hthrow. unfold fetched. rewrite HQ, Hp, Hthrow.
  pose proof (lookup_lt_Some _ _ _ HQ) as Hlt.
  simpl. rewrite list_lookup_alter_eq, settled_queries. simpl.
  rewrite list_lookup_alter_eq, broadcast_queries. simpl.
  by rewrite list_lookup_alter_eq, HQ.
Qed.

(** ** At most one operation in flight per entry *)

Lemma single_flight_unique w p1 p2 q :
  single_flight w →
  promises w !! p1 = Some (Awaiting q) → promises w !! p2 = Some (Awaiting q) →
  p1 = p2.
Proof.
  intros Hw H1 H2. destruct (Hw _ _ H1) as (Q1 & HQ1 & Hp1).
  destruct (Hw _ _ H2) as (Q2 & HQ2 & Hp2). congruence.
Qed.

Lemma put_query_single_flight q f w :
  (∀ Q, promise (f Q) = promise Q) →
  single_flight w → single_flight (put_query q f w).
Proof.
  intros Hf Hw p q' Hp. simpl in *. destruct (Hw p q' Hp) as (Q & HQ & HpQ).
  rewrite list_lookup_alter. case_decide as Hd; [subst q'|eauto].
  rewrite HQ. simpl. eexists. split; [done|]. by rewrite Hf.
Qed.

Lemma stepped_single_flight env i w :
  single_flight w → single_flight (stepped env i w).
Proof.
  intros Hw. destruct i as [key f|[q|q sub|q sub]|p awaited]; simpl.
  - rewrite getQuery_cases. destruct (JSON.stringify _ _) as [hash|e]; [|done].
    destruct (list_find _ _) as [[i Q]|]; [done|].
    intros p q Hp. simpl in *. destruct (Hw p q Hp) as (Q & HQ & HpQ).
    exists Q. split; [by apply lookup_app_l_Some|done].
  - destruct (queries w !! q) as [Q|] eqn:HQ.
    2:{ rewrite fetched_idle; [done|]. intros Q. by rewrite HQ. }
    destruct (promise Q) as [p0|] eqn:Hp0.
    { rewrite fetched_idle; [done|]. intros Q'. rewrite HQ. by intros [= <-] ?; congruence. }
    destruct (fetched_spec env q Q w HQ Hp0) as (s & st & Hq & Hps & Hs & _).
    pose proof (lookup_lt_Some _ _ _ HQ) as Hlt.
    intros p q' Hp. rewrite Hps in Hp. rewrite Hq.
    apply lookup_app_Some in Hp as [Hp|[Hge Hp]].
    + destruct (Hw p q' Hp) as (Q' & HQ' & HpQ').
      assert (q' ≠ q) by (intros ->; congruence).
      exists Q'. by rewrite list_lookup_insert_ne.
    + apply list_lookup_singleton_Some in Hp as [Hp0' ->].
      assert (p = length (promises w)) as -> by lia.
      destruct Hs as [[[= <-] _]|(? & ? & _ & [=] & _)].
      eexists. by rewrite list_lookup_insert_eq.
  - by apply put_query_single_flight.
  - by apply put_query_single_flight.
  - unfold resumed. destruct (promises w !! p) as [[q|q| |e]|] eqn:Hp; try done.
    destruct (Hw p q Hp) as (Q & HQ & HpQ).
    intros p' q' Hp'. simpl in *. rewrite settled_promises in Hp'.
    rewrite settled_queries.
    assert (p' ≠ p) as Hne.
    { intros ->. rewrite list_lookup_insert_eq in Hp'
        by (by eapply lookup_lt_Some). done. }
    rewrite list_lookup_insert_ne in Hp' by done.
    destruct (Hw p' q' Hp') as (Q' & HQ' & HpQ').
    assert (q' ≠ q) by (intros ->; congruence).
    exists Q'. by rewrite list_lookup_alter_ne.
Qed.

Lemma single_flight_empty : single_flight empty_world.
Proof. intros p q H. done. Qed.

Lemma passive_single_flight env fuel ins w :
  passive env → steps env fuel ins empty_world = Some w → single_flight w.
Proof.
  intros Hp. rewrite steps_passive by done. intros [= <-].
  generalize single_flight_empty. generalize empty_world.
  induction ins as [|i ins IH]; intros w0 Hw0; simpl; [done|].
  apply IH. by apply stepped_single_flight.
Qed.

(** ** The states an entry goes through *)

Lemma consistent_starting st : consistent st → consistent (starting st).
Proof. intros [H1 H2]. split; simpl; auto. Qed.

Lemma consistent_outcome awaited st :
  defined awaited → consistent (outcome awaited st).
Proof. destruct awaited; intros H; split; simpl; auto; done. Qed.

Lemma consistent_finished_outcome awaited st :
  defined awaited → consistent (finished (outcome awaited st)).
Proof. destruct awaited; intros H; split; simpl; auto; done. Qed.

Lemma put_query_all_consistent q f w :
  (∀ Q, state (f Q) = state Q) →
  all_consistent w → all_consistent (put_query q f w).
Proof.
  intros Hf [Hq Hl]. split; [|done]. simpl. intros q' Q' HQ'.
  rewrite list_lookup_alter in HQ'. case_decide; [subst q'|by eapply Hq].
  destruct (queries w !! q) as [Q|] eqn:HQ; [|done]. injection HQ' as <-.
  rewrite Hf. by eapply Hq.
Qed.

Lemma stepped_all_consistent env i w :
  throws_defined env → settles_defined i →
  all_consistent w → all_consistent (stepped env i w).
Proof.
  intros Henv Hi Hw. destruct i as [key f|[q|q sub|q sub]|p awaited]; simpl.
  - rewrite getQuery_cases. destruct (JSON.stringify _ _) as [hash|e]; [|done].
    destruct (list_find _ _) as [[i Q]|]; [done|].
    destruct Hw as [Hq Hl]. split; [|done]. simpl. intros q Q HQ.
    apply lookup_app_Some in HQ as [HQ|[_ HQ]]; [by eapply Hq|].
    apply list_lookup_singleton_Some in HQ as [_ <-]. by split.
  - destruct (queries w !! q) as [Q|] eqn:HQ.
    2:{ rewrite fetched_idle; [done|]. intros Q. by rewrite HQ. }
    destruct (promise Q) as [p0|] eqn:Hp0.
    { rewrite fetched_idle; [done|]. intros Q'. rewrite HQ.
      intros [= <-]. congruence. }
    destruct (fetched_spec env q Q w HQ Hp0) as (s & st & Hq & _ & Hs & Hl).
    destruct Hw as [Hwq Hwl]. pose proof (Hwq q Q HQ) as HcQ.
    pose proof (lookup_lt_Some _ _ _ HQ) as Hlt.
    split.
    + intros q' Q'. rewrite Hq. destruct (decide (q' = q)) as [->|Hne].
      * rewrite list_lookup_insert_eq by done. intros [= <-]. simpl.
        destruct Hs as [[_ ->]|(e & n & He & _ & ->)].
        -- by apply consistent_starting.
        -- apply (consistent_finished_outcome (Throw e)). by eapply Henv.
      * rewrite list_lookup_insert_ne by done. apply Hwq.
    + intros q' st' H. destruct (Hl q' st' H) as [?|[-> Hst]]; [by eapply Hwl|].
      destruct Hst as [->|(e & n & He & [->| ->])].
      * by apply consistent_starting.
      * apply (consistent_outcome (Throw e)). by eapply Henv.
      * apply (consistent_finished_outcome (Throw e)). by eapply Henv.
  - by apply put_query_all_consistent.
  - by apply put_query_all_consistent.
  - unfold resumed. destruct (promises w !! p) as [[q|q| |e]|] eqn:Hp; try done.
    destruct Hw as [Hwq Hwl]. split; simpl.
    + rewrite settled_queries. intros q' Q'. rewrite list_lookup_alter.
      case_decide; [subst q'|apply Hwq].
      destruct (queries w !! q) as [Q|]; [|done]. intros [= <-]. simpl.
      by apply consistent_finished_outcome.
    + intros q' st' H.
      apply settled_written in H as [H|(Q & HQ & -> & [->| ->])].
      * by eapply Hwl.
      * by apply consistent_outcome.
      * by apply consistent_finished_outcome.
Qed.

Lemma all_consistent_empty : all_consistent empty_world.
Proof. split; [done|]. intros q st H. by apply elem_of_nil in H. Qed.

(** ** How a failed fetch ends, whatever the callbacks do *)

Lemma stays_error_refl st : stays_error st st.
Proof. by intros H. Qed.

Lemma stays_error_trans st1 st2 st3 :
  stays_error st1 st2 → stays_error st2 st3 → stays_error st1 st3.
Proof. unfold stays_error. auto. Qed.

(** Client code run from a callback leaves an entry in [error] in
    [error]: only a settlement with a value makes a success. *)
Lemma run_stays_error env fuel cs w w' :
  run env fuel cs w = Some w' → related stays_error w w'.
Proof.
  apply (run_related stays_error (λ _, False)).
  - exact stays_error_refl.
  - exact stays_error_trans.
  - by intros st H.
  - by intros st H.
  - by intros e st H.
  - by intros d st [].
Qed.

Section Failure.

Context (env : client) (nested : list cmd → world → option world).
Hypothesis nested_evolves : ∀ cs w w',
  nested cs w = Some w' → evolves (length (log w)) true w w'.
Hypothesis nested_stays_error : ∀ cs w w',
  nested cs w = Some w' → related stays_error w w'.

(** [catch] writes the failure into the state before anything else
    happens; the entry is in [error] when the body is over, with the data
    it had. *)
Lemma fetch_settled_failure q Q e w c w' :
  queries w !! q = Some Q →
  fetch_settled env nested q (Throw e) w = Some (c, w') →
  (∃ l, log w' = log w ++ EvState q (failed e (state Q)) :: l)
  ∧ evolves (length (log w)) true w w'
  ∧ ∃ Q', queries w' !! q = Some Q' ∧ status (state Q') = Error.
Proof.
  intros HQ H.
  pose proof (fetch_settled_respects env nested nested_evolves
                (length (log w)) true q (Throw e) w ltac:(eauto) (le_n _) _ _ H)
    as Hev.
  unfold fetch_settled, try_finally, try_catch in H.
  apply mbind_inv in H as [(c1 & w1 & H1 & H2)|(? & H1 & _)].
  2:{ apply attempt_inv in H1 as (? & ? & _). discriminate. }
  apply attempt_inv in H1 as (c2 & [= <-] & H1).
  apply mbind_inv in H1 as [(c3 & w3 & H3 & H4)|(? & H3 & _)].
  2:{ apply attempt_inv in H3 as (? & ? & _). discriminate. }
  apply attempt_inv in H3 as (c4 & [= <-] & H3).
  injection H3 as <- <-.
  destruct (setState_log env nested nested_evolves q Q _ w _ _ HQ H4)
    as (l1 & Hl1 & _).
  destruct (setState_written stays_error stays_error_refl stays_error_trans
              env nested nested_stays_error q Q _ w _ _ HQ H4)
    as (Q1 & HQ1 & HE1).
  set (fin := (update_query q (set_promise None);;
               setState env nested q
                 (λ old, mkQueryState (status old) false (data old) (error old)))).
  assert (∃ cf, fin w1 = Some (cf, w')) as [cf Hf].
  { apply mbind_inv in H2 as [(u & w5 & H5 & H6)|(e' & H5 & _)]; [|eauto].
    injection H6 as _ <-. eauto. }
  clear H2.
  assert (respects 0 false fin w1) as Hr.
  { apply respects_mbind.
    - apply respects_update_query. intros Q0 _. by repeat split.
    - intros _ w2 _. by apply setState_respects. }
  assert (keeps stays_error fin w1) as Hk.
  { apply keeps_mbind; [exact stays_error_trans| |].
    - apply keeps_update_query; [exact stays_error_refl|]. by intros Q0 _ ?.
    - intros _ w2 _.
      apply setState_keeps;
        [exact stays_error_refl|exact stays_error_trans|done|by intros st ?]. }
  split_and!; [|done|].
  - destruct (Hr (Nat.le_0_l _) _ _ Hf) as [_ _ (l2 & Hl2 & _) _].
    exists (l1 ++ l2). rewrite Hl2, Hl1. by rewrite <- app_assoc.
  - destruct (Hk _ _ Hf _ _ HQ1) as (Q' & HQ' & HE'). exists Q'.
    split; [done|]. apply HE', HE1. done.
Qed.

(** [resume] itself returns; how the body ended is the state of the
    promise. *)
Lemma resume_failure p q Q e w c w' :
  promises w !! p = Some (Awaiting q) → queries w !! q = Some Q →
  resume env nested p (Throw e) w = Some (c, w') →
  c = Normal tt
  ∧ (∃ l, log w' = log w ++ EvState q (failed e (state Q)) :: l)
  ∧ (∃ Q', queries w' !! q = Some Q' ∧ status (state Q') = Error
           ∧ data (state Q') = data (state Q))
  ∧ ∃ c1 w1,
      fetch_settled env nested q (Throw e) w = Some (c1, w1)
      ∧ promises w' !! p
        = Some (match c1 with
                | Normal _ => Fulfilled
                | Throw e' => RejectedWith e'
                end).
Proof.
  intros Hp HQ H. unfold resume in H. rewrite Hp in H.
  apply mbind_inv in H as [(c1 & w1 & H1 & H2)|(? & H1 & _)].
  2:{ apply attempt_inv in H1 as (? & ? & _). discriminate. }
  apply attempt_inv in H1 as (c2 & [= <-] & H1).
  destruct (fetch_settled_failure q Q e w _ _ HQ H1)
    as (Hl & Hev & Q' & HQ' & HE).
  injection H2 as <- <-. simpl. split_and!; [done|done| |].
  - exists Q'. split_and!; [done..|].
    by destruct (ev_entries _ _ _ _ Hev q Q Q' HQ HQ') as (_ & _ & _ & ->).
  - exists c1, w1. split; [done|].
    apply list_lookup_insert_eq.
    pose proof (ev_promises_length _ _ _ _ Hev).
    apply lookup_lt_Some in Hp. lia.
Qed.

Lemma call_queryFn_inv q Q w c w' :
  queries w !! q = Some Q →
  call_queryFn env nested q w = Some (c, w') →
  (∃ n, c = Normal (on_queryFn env (queryFn Q) n).2)
  ∧ evolves (length (log w)) true w w'.
Proof.
  intros HQ H. split.
  - unfold call_queryFn in H. rewrite (with_query_some _ _ _ _ _ HQ) in H.
    unfold mbind, gets, emit, modify, client_code, mret in H. simpl in H.
    destruct (nested _ _); [|done]. injection H as <- _. eauto.
  - exact (call_queryFn_respects env nested nested_evolves
             (length (log w)) true q w (le_n _) _ _ H).
Qed.

Hypothesis env_returns : notify_returns env.
Hypothesis nested_quiet : ∀ cs w w',
  nested cs w = Some w' → no_new_rejection w w'.

(** When the fetch function throws on the spot and no [notify] throws,
    the whole body runs inside the call of [fetch]. *)
Lemma fetch_throwing q Q e w c w' :
  queries w !! q = Some Q → promise Q = None →
  (∀ n, (on_queryFn env (queryFn Q) n).2 = Throws e) →
  fetch env nested q w = Some (c, w') →
  let p := length (promises w) in
  c = Normal (Some p)
  ∧ promises w' !! p = Some Fulfilled
  ∧ (∃ Q', queries w' !! q = Some Q' ∧ promise Q' = Some p
           ∧ status (state Q') = Error
           ∧ data (state Q') = data (state Q))
  ∧ ∃ st l1 l2, log w' = log w ++ l1 ++ EvState q st :: l2
                ∧ status st = Error ∧ error st = e
                ∧ data st = data (state Q).
Proof.
  intros HQ Hp Hthrow H p.
  assert (∀ A (m : M A) w0 e0 w1, returns_normally m w0 →
            m w0 = Some (Throw e0, w1) → False) as Hnothrow.
  { intros A m w0 e0 w1 Hm Hr.
    destruct (Hm _ _ Hr) as [[? ?] _]. discriminate. }
  unfold fetch in H. rewrite (with_query_some _ _ _ _ _ HQ), Hp in H.
  apply mbind_inv in H as [(a & wa & H1 & H2)|(? & H1 & _)].
  2:{ apply mbind_inv in H1 as [(? & ? & _ & [=])|(? & H1 & _)].
    exfalso; by eapply Hnothrow; [apply async_call_returns|exact H1]. }
  injection H2 as <- <-.
  apply mbind_inv in H1 as [(p0 & wb & H1 & H2)|(? & H1 & _)].
  2:{ exfalso; by eapply Hnothrow; [apply async_call_returns|exact H1]. }
  injection H2 as <- <-.
  unfold async_call in H1.
  apply mbind_inv in H1 as [(p1 & w0 & H0 & H1)|(? & H0 & _)]; [|done].
  injection H0 as <- <-. fold p in H1.
  apply mbind_inv in H1 as [(c1 & w3 & H1 & H3)|(? & H1 & _)].
  2:{ apply attempt_inv in H1 as (? & ? & _). discriminate. }
  apply attempt_inv in H1 as (c2 & [= <-] & H1).
  injection H3 as <- <-.
  set (w0 := mkWorld (queries w) (promises w ++ [Running q]) (log w)) in *.
  unfold fetch_async in H1.
  apply mbind_inv in H1 as [(u & w1 & Hs & H1)|(? & Hs & _)].
  2:{ exfalso; by eapply Hnothrow; [apply setState_returns|exact Hs]. }
  assert (evolves (length (log w0)) true w0 w1) as E1.
  { eapply setState_respects; [exact nested_evolves| |apply le_n|exact Hs].
    done. }
  destruct (lookup_lt_is_Some_2 (queries w1) q) as [Q1 HQ1].
  { rewrite (ev_length _ _ _ _ E1). by eapply lookup_lt_Some. }
  destruct (ev_entries _ _ _ _ E1 q Q Q1 HQ HQ1) as (_ & _ & Hfn1 & Hd1).
  apply mbind_inv in H1 as [(r & w2 & Hc & H1)|(? & Hc & _)].
  2:{ exfalso; by eapply Hnothrow; [apply call_queryFn_returns|exact Hc]. }
  destruct (call_queryFn_inv q Q1 w1 _ _ HQ1 Hc) as [[n [= ->]] E2].
  rewrite Hfn1, Hthrow in H1.
  apply mbind_inv in H1 as [(u2 & w3' & Hf & H1)|(? & Hf & _)].
  2:{ exfalso; by eapply Hnothrow; [apply fetch_settled_returns|exact Hf]. }
  injection H1 as <- <-.
  destruct (lookup_lt_is_Some_2 (queries w2) q) as [Q2 HQ2].
  { rewrite (ev_length _ _ _ _ E2). by eapply lookup_lt_Some. }
  destruct (ev_entries _ _ _ _ E2 q Q1 Q2 HQ1 HQ2) as (_ & _ & _ & Hd2).
  destruct (fetch_settled_failure q Q2 e w2 _ _ HQ2 Hf)
    as ([l3 Hl3] & E3 & Q3 & HQ3 & HE3).
  destruct (ev_entries _ _ _ _ E3 q Q2 Q3 HQ2 HQ3) as (_ & _ & _ & Hd3).
  destruct E1 as [_ _ (l1 & Hl1 & _) Hpl1].
  destruct E2 as [_ _ (l2 & Hl2 & _) Hpl2].
  pose proof (ev_promises_length _ _ _ _ E3) as Hpl3.
  assert (p < length (promises w3')) as Hlt.
  { simpl in Hpl1. rewrite length_app in Hpl1. simpl in Hpl1. unfold p. lia. }
  simpl. split_and!.
  - by rewrite list_lookup_alter_eq, HQ3.
  - by apply list_lookup_insert_eq.
  - rewrite list_lookup_alter_eq, HQ3. simpl. eexists. split; [done|]. simpl.
    split_and!; [done|done|]. rewrite Hd3, Hd2, Hd1 by done. done.
  - exists (failed e (state Q2)), (l1 ++ l2), l3. split_and!; [|done|done|].
    + rewrite Hl3, Hl2, Hl1. simpl. by rewrite <- !app_assoc.
    + simpl. rewrite Hd2, Hd1 by done. done.
Qed.

End Failure.

(** * The properties of the cache *)

Lemma quiet_passive : passive quiet.
Proof. by split. Qed.

Lemma passive_notify_returns env : passive env → notify_returns env.
Proof. intros [H _] sub n. by rewrite H. Qed.

Lemma thrower_passive : passive thrower.
Proof. by split. Qed.

(** ** The scenarios of the specification *)

(** Scenario A: one observer, the fetch resolves to X.  Three broadcasts in all:
    the start, the result, the end. *)
Example scenario_resolve :
  ∃ w,
    steps quiet 0 (GetQuery (VRef 0) 1 :: attach 0 10
                   ++ [Settle 0 (Normal (str "X"))]) empty_world = Some w
    ∧ state <$> queries w !! 0
      = Some (mkQueryState Success false (str "X") undefined)
    ∧ omap (λ e, match e with EvState _ st => Some st | _ => None end) (log w)
      = [mkQueryState Loading true undefined undefined;
         mkQueryState Success true (str "X") undefined;
         mkQueryState Success false (str "X") undefined]
    ∧ count_if (is_notify_of 10) (log w) = 3.
Proof. eexists. split_and!; vm_compute; reflexivity. Qed.

(** Scenario B: the same, the fetch rejects with boom. *)
Example scenario_reject :
  ∃ w,
    steps quiet 0 (GetQuery (VRef 0) 1 :: attach 0 10
                   ++ [Settle 0 (Throw (str "boom"))]) empty_world = Some w
    ∧ state <$> queries w !! 0
      = Some (mkQueryState Error false undefined (str "boom")).
Proof. eexists. split_and!; vm_compute; reflexivity. Qed.

(** Scenario C: two observers attach before the fetch resolves; the
    fetch function runs once. *)
Example scenario_two_observers :
  ∃ w,
    steps quiet 0 (GetQuery (VRef 0) 1 :: attach 0 10 ++ attach 0 11
                   ++ [Settle 0 (Normal (str "X"))]) empty_world = Some w
    ∧ count_if (is_call_of 1) (log w) = 1
    ∧ promises w = [Fulfilled]
    ∧ state <$> queries w !! 0
      = Some (mkQueryState Success false (str "X") undefined).
Proof. eexists. split_and!; vm_compute; reflexivity. Qed.

(** ** The registry *)

(** C7. [getQuery] fails exactly when [JSON.stringify] of the key throws
    (a cyclic key, a BigInt inside it): it then throws that error at once
    and leaves the registry as it was, no entry made or stored.  For every
    other key it returns an entry. *)
Theorem getQuery_fails_only_unhashable env key f w :
  match JSON.stringify (objects env) key with
  | Throw e => getQuery env key f w = Some (Throw e, w)
  | Normal hash => ∃ i w', getQuery env key f w = Some (Normal i, w')
  end.
Proof.
  rewrite getQuery_cases. destruct (JSON.stringify _ _) as [hash|e]; [|done].
  destruct (list_find _ _) as [[i Q]|]; eauto.
Qed.

Lemma getQuery_fails_only_unhashable_witness :
  getQuery quiet (VRef 4) 1 empty_world = Some (Throw TypeError, empty_world)
  ∧ ∃ i w', getQuery quiet (VRef 0) 1 empty_world = Some (Normal i, w').
Proof.
  split.
  - exact (getQuery_fails_only_unhashable quiet (VRef 4) 1 empty_world).
  - exact (getQuery_fails_only_unhashable quiet (VRef 0) 1 empty_world).
Defined.

(** C2 fails for keys that are equal but for the order of an object's
    properties: the arrays holding {a: 1, b: 2} and {b: 2, a: 1} are equal
    in structure, [JSON.stringify] writes the properties in the order it
    finds them, and the second [getQuery] makes a second entry. *)
Lemma reordered_properties_make_two_entries :
  deep_equal sample_heap (VRef 10) (VRef 11) = true
  ∧ ∃ w1 w2,
      getQuery quiet (VRef 10) 1 empty_world = Some (Normal 0, w1)
      ∧ getQuery quiet (VRef 11) 2 w1 = Some (Normal 1, w2)
      ∧ length (queries w2) = 2.
Proof. split; [|eexists _, _; split_and!]; vm_compute; reflexivity. Qed.

(** C2, amended.  Two keys equal in structure with each object's
    properties in the same order, be they two different objects, resolve
    to the same entry: after the first [getQuery] there is an entry at
    the position it returned, whose hash is the JSON text of both keys
    (the entry was there before, or it is the one just made from the
    first key and fetch function), and the second [getQuery] returns that
    position and changes nothing.  Its fetch function is dropped: if no
    entry holds it and it was never called, it is never called in any run
    that follows, unless a later [getQuery] registers it. *)
Theorem getQuery_identity_stable env k1 k2 f1 f2 w i w1 :
  struct_eq (objects env) k1 k2 →
  getQuery env k1 f1 w = Some (Normal i, w1) →
  (∃ Q, queries w1 !! i = Some Q
        ∧ JSON.stringify (objects env) k1 = Normal (queryHash Q)
        ∧ JSON.stringify (objects env) k2 = Normal (queryHash Q)
        ∧ (w1 = w
           ∨ (i = length (queries w) ∧ Q = new_entry k1 (queryHash Q) f1)))
  ∧ getQuery env k2 f2 w1 = Some (Normal i, w1)
  ∧ ∀ fuel ins w2,
      unused f2 w1 → Forall (λ i, ¬ registers f2 i) ins →
      steps env fuel ins w1 = Some w2 → unused f2 w2.
Proof.
  intros Heq H.
  destruct (getQuery_shared env k1 k2 f1 f2 w i w1
              (struct_eq_stringify _ _ _ Heq) H) as [HQ H2].
  split_and!; [done..|].
  intros fuel ins w2 Hu Hins Hs. by eapply steps_unused.
Qed.

Lemma getQuery_identity_stable_witness :
  VRef 0 ≠ VRef 1
  ∧ ∃ i w1 Q,
      getQuery quiet (VRef 0) 1 empty_world = Some (Normal i, w1)
      ∧ queries w1 !! i = Some Q
      ∧ queryKey Q = VRef 0 ∧ queryFn Q = 1
      ∧ getQuery quiet (VRef 1) 2 w1 = Some (Normal i, w1).
Proof.
  split; [done|].
  pose (w1 := default empty_world
                (snd <$> getQuery quiet (VRef 0) 1 empty_world)).
  destruct (getQuery_identity_stable quiet (VRef 0) (VRef 1) 1 2 empty_world
              0 w1) as ((Q & HQ & _) & H2 & _).
  - eexists. split; vm_compute; reflexivity.
  - vm_compute. reflexivity.
  - exists 0, w1, Q. split; [vm_compute; reflexivity|]. split; [exact HQ|].
    vm_compute in HQ. injection HQ as <-.
    split; [reflexivity|]. split; [reflexivity|exact H2].
Defined.

(** C10. Keys that differ in structure can share one entry, because the
    entry is found by the key's JSON text: the arrays [null] and
    [undefined], and two arrays each holding a different function, differ
    under either notion of equality and have the same text.  After
    [getQuery] for the first key there is an entry at the position it
    returned, whose hash is the text of both keys, and [getQuery] for the
    second key returns that position and changes nothing.  The later
    key's fetch function is dropped as in C2. *)
Theorem distinct_keys_share_entry k1 k2 f1 f2 w i w1 :
  (k1, k2) = (VRef 2, VRef 3) ∨ (k1, k2) = (VRef 5, VRef 6) →
  getQuery quiet k1 f1 w = Some (Normal i, w1) →
  deep_equal sample_heap k1 k2 = false
  ∧ ¬ struct_eq sample_heap k1 k2
  ∧ (∃ Q, queries w1 !! i = Some Q
          ∧ JSON.stringify sample_heap k1 = Normal (queryHash Q)
          ∧ JSON.stringify sample_heap k2 = Normal (queryHash Q)
          ∧ (w1 = w
             ∨ (i = length (queries w) ∧ Q = new_entry k1 (queryHash Q) f1)))
  ∧ getQuery quiet k2 f2 w1 = Some (Normal i, w1)
  ∧ ∀ fuel ins w2,
      unused f2 w1 → Forall (λ i, ¬ registers f2 i) ins →
      steps quiet fuel ins w1 = Some w2 → unused f2 w2.
Proof.
  intros Hk H.
  assert (Heq : JSON.stringify (objects quiet) k1
                = JSON.stringify (objects quiet) k2).
  { destruct Hk as [[= -> ->]|[= -> ->]]; vm_compute; reflexivity. }
  destruct (getQuery_shared quiet k1 k2 f1 f2 w i w1 Heq H) as [HQ H2].
  split_and!; [| |exact HQ|exact H2|].
  - destruct Hk as [[= -> ->]|[= -> ->]]; vm_compute; reflexivity.
  - intros (t & H1 & H3).
    destruct Hk as [[= -> ->]|[= -> ->]]; vm_compute in H1, H3; congruence.
  - intros fuel ins w2 Hu Hins Hs. by eapply steps_unused.
Qed.

Lemma distinct_keys_share_entry_witness :
  ∃ i w1 Q,
    getQuery quiet (VRef 2) 1 empty_world = Some (Normal i, w1)
    ∧ deep_equal sample_heap (VRef 2) (VRef 3) = false
    ∧ queries w1 !! i = Some Q
    ∧ queryKey Q = VRef 2 ∧ queryFn Q = 1
    ∧ getQuery quiet (VRef 3) 2 w1 = Some (Normal i, w1).
Proof.
  pose (w1 := default empty_world
                (snd <$> getQuery quiet (VRef 2) 1 empty_world)).
  destruct (distinct_keys_share_entry (VRef 2) (VRef 3) 1 2 empty_world 0 w1)
    as (HD & _ & (Q & HQ & _) & H2 & _).
  - by left.
  - vm_compute. reflexivity.
  - exists 0, w1, Q. split; [vm_compute; reflexivity|]. split; [exact HD|].
    split; [exact HQ|]. vm_compute in HQ. injection HQ as <-.
    split; [reflexivity|]. split; [reflexivity|exact H2].
Defined.

(** ** Subscribers and broadcasts *)

Lemma filter_idempotent {A} (P : A → Prop) `{!∀ x, Decision (P x)} (l : list A) :
  filter P (filter P l) = filter P l.
Proof. rewrite list_filter_filter. apply list_filter_iff. tauto. Qed.

Lemma filter_absent (sub : obs) (l : list obs) :
  sub ∉ l → filter (λ s, s ≠ sub) l = l.
Proof.
  induction l as [|x l IH]; [done|]. rewrite not_elem_of_cons.
  intros [Hne Hl]. rewrite filter_cons_True by done. by rewrite IH.
Qed.

Lemma unsubscribe_removes q Q sub w :
  queries w !! q = Some Q →
  ∃ w' Q', unsubscribe q sub w = Some (Normal tt, w')
           ∧ queries w' !! q = Some Q' ∧ sub ∉ subscribers Q'.
Proof.
  intros HQ. eexists _, _. split; [done|]. simpl.
  rewrite list_lookup_alter_eq, HQ. split; [done|]. simpl.
  rewrite list_elem_of_filter. tauto.
Qed.

(** C9. Calling the function returned by [subsribe] twice leaves the
    cache exactly as calling it once does, so nothing that follows can
    tell the difference; and when the observer is not in the list the
    call changes nothing. *)
Theorem unsubscribe_idempotent q sub w :
  (unsubscribe q sub;; unsubscribe q sub) w = unsubscribe q sub w
  ∧ ∀ Q, queries w !! q = Some Q → sub ∉ subscribers Q →
         unsubscribe q sub w = Some (Normal tt, w).
Proof.
  split.
  - unfold unsubscribe, mbind, update_query, modify. simpl.
    rewrite list_alter_alter_eq. do 3 f_equal.
    apply list_alter_ext; [|done]. intros Q _. unfold set_subscribers. simpl.
    by rewrite filter_idempotent.
  - intros Q HQ Hsub. unfold unsubscribe, update_query, modify.
    rewrite (alter_lookup_insert _ _ _ _ HQ), filter_absent by done.
    rewrite list_insert_id; [by destruct w|]. by destruct Q.
Qed.

Lemma unsubscribe_idempotent_witness :
  ∃ w, steps quiet 0 [GetQuery (VRef 0) 1; Call (CSubscribe 0 10);
                      Call (CUnsubscribe 0 10)] empty_world = Some w
       ∧ unsubscribe 0 10 w = Some (Normal tt, w).
Proof.
  eexists. split; [vm_compute; reflexivity|].
  eapply (proj2 (unsubscribe_idempotent 0 10 _)).
  - vm_compute. reflexivity.
  - vm_compute. apply not_elem_of_nil.
Defined.


(** A [notify] that throws ends the broadcast: observer 10 throws at
    its second call, so of the subscribers 10 and 11 only 10 is called;
    the state has been written, and [setState] throws what 10 threw. *)
Example throwing_notify_ends_broadcast :
  ∃ w' Q',
    setState grumpy (run grumpy 0) 0 finished two_observers_notified
    = Some (Throw (str "oops"), w')
    ∧ notified 3 0 (log w') = [10]
    ∧ queries w' !! 0 = Some Q' ∧ state Q' = finished initial_state.
Proof. eexists _, _. split_and!; vm_compute; reflexivity. Qed.



(** ** Failures of the fetch function *)

Lemma steps_passive_total env fuel ins w :
  passive env → ∃ w', steps env fuel ins w = Some w'.
Proof. intros Hp. eexists. by apply steps_passive. Qed.






(** ** Deduplication *)

Lemma count_if_app {A} (P : A → bool) l1 l2 :
  count_if P (l1 ++ l2) = count_if P l1 + count_if P l2.
Proof. unfold count_if. by rewrite List.filter_app, length_app. Qed.

Lemma broadcast_calls f q updater w :
  count_if (is_call_of f) (log (broadcast q updater w))
  = count_if (is_call_of f) (log w).
Proof.
  rewrite broadcast_log, count_if_app.
  destruct (queries w !! q) as [Q|]; [|by rewrite Nat.add_0_r].
  generalize (length (log w)). intros b.
  assert (count_if (is_call_of f) (map (EvNotify b q) (subscribers Q)) = 0) as H.
  { induction (subscribers Q) as [|s l IH]; [done|exact IH]. }
  unfold count_if in *. simpl. rewrite H. lia.
Qed.

Lemma settled_calls f q awaited w :
  count_if (is_call_of f) (log (settled q awaited w))
  = count_if (is_call_of f) (log w).
Proof. unfold settled. rewrite broadcast_calls. simpl. apply broadcast_calls. Qed.

Lemma fetched_calls env q Q w :
  queries w !! q = Some Q → promise Q = None →
  count_if (is_call_of (queryFn Q)) (log (fetched env q w))
  = S (count_if (is_call_of (queryFn Q)) (log w)).
Proof.
  intros HQ Hp. unfold fetched. rewrite HQ, Hp.
  destruct (on_queryFn env _ _).2 as [|e]; simpl.
  - rewrite count_if_app, broadcast_calls. unfold count_if. simpl.
    rewrite bool_decide_eq_true_2 by done. simpl. lia.
  - rewrite settled_calls. simpl. rewrite count_if_app, broadcast_calls.
    unfold count_if. simpl. rewrite bool_decide_eq_true_2 by done. simpl. lia.
Qed.

Lemma fetched_idempotent env q w :
  fetched env q (fetched env q w) = fetched env q w.
Proof.
  destruct (queries w !! q) as [Q|] eqn:HQ.
  2:{ rewrite (fetched_idle env q w); [|intros Q; by rewrite HQ].
      apply fetched_idle. intros Q. by rewrite HQ. }
  destruct (promise Q) as [p|] eqn:Hp.
  { rewrite (fetched_idle env q w); [|intros Q'; rewrite HQ; intros [= <-]; congruence].
    apply fetched_idle. intros Q'. rewrite HQ. intros [= <-]. congruence. }
  destruct (fetched_spec env q Q w HQ Hp) as (s & st & Hq & _).
  apply fetched_idle. intros Q'. rewrite Hq.
  rewrite list_lookup_insert_eq by (by eapply lookup_lt_Some).
  by intros [= <-].
Qed.

(** When callbacks make no cache calls and no [notify] throws, any number
    of [fetch] calls in a row on an idle entry are one [fetch]: the fetch function is called
    once, and by [passive_single_flight] no entry ever has two operations
    in flight. *)
Lemma fetch_dedup_passive env fuel n q Q w :
  passive env → queries w !! q = Some Q → promise Q = None →
  steps env fuel (replicate (S n) (Call (CFetch q))) w
  = Some (fetched env q w)
  ∧ count_if (is_call_of (queryFn Q)) (log (fetched env q w))
    = S (count_if (is_call_of (queryFn Q)) (log w)).
Proof.
  intros Hpas HQ Hp. split; [|by apply fetched_calls].
  rewrite steps_passive by done. f_equal. simpl.
  induction n as [|n IH]; [done|]. simpl. by rewrite fetched_idempotent.
Qed.

(** C1 (dedup), at the input where the code breaks it.  Observer 10 is
    subscribed to entry 0 and calls [fetch] from its [notify].  One
    outside call of [fetch] notifies it before [query.promise] is
    assigned, so its call finds no operation and starts another: the fetch
    function runs twice and two operations are in flight on the one
    entry. *)
Theorem fetch_from_notify_starts_second_operation :
  ∃ w,
    steps eager 1 [GetQuery (VRef 0) 1; Call (CSubscribe 0 10); Call (CFetch 0)]
      empty_world = Some w
    ∧ count_if (is_call_of 1) (log w) = 2
    ∧ promises w = [Awaiting 0; Awaiting 0].
Proof. eexists. split_and!; vm_compute; reflexivity. Qed.

(** ** Completion *)

(** When the awaited promise settles, under callbacks that make no cache
    calls and no [notify] that throws, the entry ends settled: not loading, not fetching, handle
    cleared. *)
Lemma resume_completes env fuel p q Q awaited w :
  passive env →
  promises w !! p = Some (Awaiting q) → queries w !! q = Some Q →
  ∃ w' Q', resume env (run env fuel) p awaited w = Some (Normal tt, w')
           ∧ queries w' !! q = Some Q'
           ∧ status (state Q') ≠ Loading
           ∧ isFetching (state Q') = false
           ∧ promise Q' = None
           ∧ promises w' !! p = Some Fulfilled.
Proof.
  intros Hpas Hp HQ. eexists _, _.
  split; [by apply resume_passive, run_nil|].
  unfold resumed. rewrite Hp. simpl. rewrite settled_queries, settled_promises.
  rewrite list_lookup_alter_eq, HQ. simpl. split_and!; try done.
  - by destruct awaited.
  - apply list_lookup_insert_eq. by eapply lookup_lt_Some.
Qed.

(** C5, at the input where the code breaks it.  The fetch function throws
    when called, so the whole body of the async function, [finally]
    included, runs before [query.promise] is assigned: the operation is
    over (error, not fetching, its promise fulfilled) and the handle then
    gets set to that finished promise.  It stays: a later [fetch] finds it
    and does nothing. *)
Theorem fetch_sync_throw_leaves_handle :
  ∃ w Q,
    steps thrower 0 [GetQuery (VRef 0) 1; Call (CFetch 0)] empty_world = Some w
    ∧ queries w !! 0 = Some Q
    ∧ state Q = mkQueryState Error false undefined (str "boom")
    ∧ promises w = [Fulfilled]
    ∧ promise Q = Some 0
    ∧ steps thrower 0 [Call (CFetch 0)] w = Some w.
Proof. eexists _, _. split_and!; vm_compute; reflexivity. Qed.

(** ** States *)

(** C3 fails when an entry is fetched again after a failure: the start of
    the fetch clears [error] and leaves [status = error]. *)
Lemma refetch_after_error_has_no_error :
  ∃ w Q,
    steps quiet 0 [GetQuery (VRef 0) 1; Call (CFetch 0);
                   Settle 0 (Throw (str "boom")); Call (CFetch 0)]
      empty_world = Some w
    ∧ queries w !! 0 = Some Q
    ∧ status (state Q) = Error
    ∧ error (state Q) = undefined.
Proof. eexists _, _. split_and!; vm_compute; reflexivity. Qed.

(** Why the amended C3 asks for callbacks that make no cache calls: with
    two operations in flight on one entry, the [finally] of one can end
    the fetching flag while the other, started since the failure, has
    cleared [error]. *)
Example overlapping_fetches_break_consistency :
  ∃ w Q,
    steps eager_twice 1
      [GetQuery (VRef 0) 1; Call (CSubscribe 0 10); Call (CFetch 0);
       Settle 0 (Normal (str "X")); Settle 1 (Throw (str "boom"))]
      empty_world = Some w
    ∧ queries w !! 0 = Some Q
    ∧ state Q = mkQueryState Error false (str "X") undefined.
Proof. eexists _, _. split_and!; vm_compute; reflexivity. Qed.

(** C3, amended.  When callbacks make no cache calls, no [notify] throws
    and the fetch function never settles with [undefined], every run from
    the empty
    cache goes through, and in every state an entry is in or was ever
    written with, [status = success] implies [data] is set, and
    [status = error] implies [error] is set or [isFetching] is true (a
    fetch started since the failure and cleared [error]). *)
Theorem states_consistent env fuel ins :
  passive env → throws_defined env → Forall settles_defined ins →
  ∃ w, steps env fuel ins empty_world = Some w ∧ all_consistent w.
Proof.
  intros Hpas Henv Hins. eexists. split; [by apply steps_passive|].
  generalize all_consistent_empty. generalize empty_world.
  induction Hins as [|i ins Hi _ IH]; intros w0 Hw0; simpl; [done|].
  apply IH. by apply stepped_all_consistent.
Qed.

Lemma states_consistent_witness :
  ∃ w, steps quiet 0 [GetQuery (VRef 0) 1; Call (CFetch 0);
                      Settle 0 (Throw (str "boom")); Call (CFetch 0)]
         empty_world = Some w
       ∧ all_consistent w.
Proof.
  apply (states_consistent quiet 0).
  - exact quiet_passive.
  - intros f n e. simpl. discriminate.
  - repeat constructor. simpl. discriminate.
Defined.

(** * Further properties of the code *)

(** ** The registry *)

Lemma evolves_well_keyed env lo keep w w' :
  evolves lo keep w w' → well_keyed env w → well_keyed env w'.
Proof.
  intros E [HK HU].
  assert (back : ∀ q Q', queries w' !! q = Some Q' →
            ∃ Q, queries w !! q = Some Q ∧ same_entry keep Q Q').
  { intros q Q' HQ'.
    destruct (queries w !! q) as [Q|] eqn:HQ.
    - exists Q. split; [done|]. by eapply ev_entries.
    - apply lookup_ge_None in HQ. apply lookup_lt_Some in HQ'.
      rewrite (ev_length _ _ _ _ E) in HQ'. lia. }
  split.
  - intros q Q' HQ'. destruct (back _ _ HQ') as (Q & HQ & HK' & HH & _).
    rewrite HK', HH. eauto.
  - intros i j Qi Qj Hi Hj Heq.
    destruct (back _ _ Hi) as (Qi0 & Hi0 & _ & HHi & _).
    destruct (back _ _ Hj) as (Qj0 & Hj0 & _ & HHj & _).
    eapply HU; eauto. congruence.
Qed.

Lemma getQuery_well_keyed env key f w c w' :
  getQuery env key f w = Some (c, w') → well_keyed env w → well_keyed env w'.
Proof.
  destruct c as [i|e].
  - intros HG [HK HU]. apply getQuery_entry in HG
      as (hash & Q & HS & HQ & HH & [->|(HF & -> & -> & ->)]); [done|].
    simpl in *.
    assert (HN : ∀ j Qj, queries w !! j = Some Qj → queryHash Qj ≠ hash).
    { intros j Qj Hj. eapply list_find_None in HF.
      rewrite List.Forall_forall in HF. apply HF.
      apply list_elem_of_In. by eapply list_elem_of_lookup_2. }
    split; simpl.
    + intros q Q. rewrite lookup_app_Some. simpl.
      intros [HQ'|[_ HQ']]; [eauto|].
      apply list_lookup_singleton_Some in HQ' as [_ <-]. done.
    + intros i j Qi Qj. rewrite !lookup_app_Some.
      intros [Hi|[Hi1 Hi]] [Hj|[Hj1 Hj]] Heq.
      * eauto.
      * apply list_lookup_singleton_Some in Hj as [_ <-].
        exfalso. by eapply HN.
      * apply list_lookup_singleton_Some in Hi as [_ <-].
        exfalso. by eapply HN.
      * apply list_lookup_singleton_Some in Hi as [? _].
        apply list_lookup_singleton_Some in Hj as [? _]. lia.
  - rewrite getQuery_cases.
    destruct (JSON.stringify (objects env) key); [|by intros [= _ <-]].
    by destruct (list_find _ _) as [[? ?]|].
Qed.

Lemma step_well_keyed env fuel i w w' :
  step env fuel i w = Some w' → well_keyed env w → well_keyed env w'.
Proof.
  intros HS. destruct i as [key f|c|p awaited].
  - simpl in HS. destruct (getQuery env key f w) as [[c w1]|] eqn:HG; [|done].
    injection HS as <-. by eapply getQuery_well_keyed.
  - eapply evolves_well_keyed, step_evolves; [|done]. done.
  - eapply evolves_well_keyed, step_evolves; [|done]. done.
Qed.

Lemma well_keyed_empty env : well_keyed env empty_world.
Proof. split; intros *; simpl; by rewrite ?lookup_nil. Qed.

(** X1. In every world a run reaches from the empty cache, whatever the
    callbacks do, each entry's hash is the JSON text of its key and no two
    entries have the same hash. *)
Theorem registry_one_entry_per_hash env fuel ins w :
  steps env fuel ins empty_world = Some w → well_keyed env w.
Proof.
  assert (G : ∀ w0, well_keyed env w0 →
            steps env fuel ins w0 = Some w → well_keyed env w).
  { induction ins as [|i ins IH]; intros w0 H0; simpl.
    - by intros [= <-].
    - destruct (step env fuel i w0) as [w1|] eqn:HS; [|done].
      apply IH. by eapply step_well_keyed. }
  apply G, well_keyed_empty.
Qed.

Lemma registry_one_entry_per_hash_witness :
  ∃ w, steps eager 1 [GetQuery (VRef 0) 1; GetQuery (VRef 2) 2;
                      GetQuery (VRef 1) 3; Call (CSubscribe 0 10);
                      Call (CFetch 0)] empty_world = Some w
       ∧ length (queries w) = 2 ∧ well_keyed eager w.
Proof.
  eexists. split; [vm_compute; reflexivity|]. split; [reflexivity|].
  apply (registry_one_entry_per_hash eager 1
           [GetQuery (VRef 0) 1; GetQuery (VRef 2) 2; GetQuery (VRef 1) 3;
            Call (CSubscribe 0 10); Call (CFetch 0)]).
  vm_compute. reflexivity.
Defined.

Lemma evolves_keeps_entries lo keep w w' :
  evolves lo keep w w' → keeps_entries w w'.
Proof.
  intros E q Q HQ.
  destruct (queries w' !! q) as [Q'|] eqn:HQ'.
  - exists Q'. destruct (ev_entries _ _ _ _ E _ _ _ HQ HQ') as (? & ? & ? & _).
    done.
  - apply lookup_ge_None in HQ'. apply lookup_lt_Some in HQ.
    rewrite (ev_length _ _ _ _ E) in HQ'. lia.
Qed.

Lemma step_keeps_entries env fuel i w w' :
  step env fuel i w = Some w' → keeps_entries w w'.
Proof.
  intros HS. destruct i as [key f|c|p awaited].
  - apply step_getQuery in HS as [->|[hash ->]]; intros q Q HQ; exists Q.
    + done.
    + simpl. split; [|done]. by apply lookup_app_l_Some.
  - eapply evolves_keeps_entries, step_evolves; [|done]. done.
  - eapply evolves_keeps_entries, step_evolves; [|done]. done.
Qed.

Lemma steps_keeps_entries env fuel ins w w' :
  steps env fuel ins w = Some w' → keeps_entries w w'.
Proof.
  revert w. induction ins as [|i ins IH]; intros w; simpl.
  - intros [= <-] q Q HQ. by exists Q.
  - destruct (step env fuel i w) as [w1|] eqn:HS; [|done].
    intros HR q Q HQ.
    destruct (step_keeps_entries _ _ _ _ _ HS _ _ HQ) as (Q1 & HQ1 & E1 & E2 & E3).
    destruct (IH _ HR _ _ HQ1) as (Q' & HQ' & E1' & E2' & E3').
    exists Q'. split; [done|]. split_and!; congruence.
Qed.

(** X2. Entries are never removed, moved or re-keyed: an entry of the
    cache is, after any run, whatever the callbacks do, still at its
    position with the key, hash and fetch function it was created
    with. *)
Theorem entries_are_permanent env fuel ins w w' q Q :
  steps env fuel ins w = Some w' → queries w !! q = Some Q →
  ∃ Q', queries w' !! q = Some Q'
        ∧ queryKey Q' = queryKey Q ∧ queryHash Q' = queryHash Q
        ∧ queryFn Q' = queryFn Q.
Proof. intros HS. by apply (steps_keeps_entries _ _ _ _ _ HS). Qed.

Lemma entries_are_permanent_witness :
  ∃ w' Q',
    steps thrower 0 [GetQuery (VRef 0) 7; Call (CFetch 0); GetQuery (VRef 2) 8]
      fresh_entry = Some w'
    ∧ length (queries w') = 3
    ∧ queries w' !! 0 = Some Q'
    ∧ queryKey Q' = VRef 0 ∧ queryHash Q' = None ∧ queryFn Q' = 1.
Proof.
  pose (ins := [GetQuery (VRef 0) 7; Call (CFetch 0); GetQuery (VRef 2) 8]).
  pose (w' := default fresh_entry (steps thrower 0 ins fresh_entry)).
  destruct (entries_are_permanent thrower 0 ins fresh_entry w' 0
              (mkQuery (VRef 0) None None [10] initial_state 1))
    as (Q' & H1 & H2 & H3 & H4).
  - vm_compute. reflexivity.
  - reflexivity.
  - exists w', Q'. split; [vm_compute; reflexivity|]. split; [reflexivity|].
    split; [exact H1|]. split; [exact H2|]. split; [exact H3|exact H4].
Defined.

(** X3. Keys with different JSON text get different entries: if the
    texts of the two keys differ, the second [getQuery] does not return
    the entry of the first. *)
Theorem different_text_different_entries env k1 k2 f1 f2 w i w1 j w2 :
  JSON.stringify (objects env) k1 ≠ JSON.stringify (objects env) k2 →
  getQuery env k1 f1 w = Some (Normal i, w1) →
  getQuery env k2 f2 w1 = Some (Normal j, w2) →
  i ≠ j.
Proof.
  intros HN H1 H2 ->.
  apply getQuery_entry in H1 as (h1 & Q1 & HS1 & HQ1 & HH1 & _).
  apply getQuery_entry in H2 as (h2 & Q2 & HS2 & HQ2 & HH2 & HW).
  apply HN. rewrite HS1, HS2. f_equal.
  destruct HW as [->|(_ & -> & _ & _)].
  - congruence.
  - apply lookup_lt_Some in HQ1. lia.
Qed.

Lemma different_text_different_entries_witness :
  ∃ i w1 j w2,
    getQuery quiet (VRef 8) 1 empty_world = Some (Normal i, w1)
    ∧ getQuery quiet (VRef 9) 2 w1 = Some (Normal j, w2)
    ∧ i ≠ j.
Proof.
  eexists _, _, _, _. split; [vm_compute; reflexivity|].
  split; [vm_compute; reflexivity|].
  eapply (different_text_different_entries quiet (VRef 8) (VRef 9) 1 2 empty_world).
  - vm_compute. discriminate.
  - vm_compute. reflexivity.
  - vm_compute. reflexivity.
Defined.

Lemma tree_equal_object_free :
  ∀ t1 t2, object_free t1 = true → tree_equal t1 t2 = true → t1 = t2.
Proof.
  fix IH 1. intros [p1|l1|ps1] [p2|l2|ps2]; simpl; try done.
  - intros _ HE. apply bool_decide_eq_true in HE. by subst.
  - intros HO HE. f_equal. revert l2 HO HE.
    induction l1 as [|x l1 IHl]; intros [|y l2]; try done.
    intros HO HE. apply andb_true_iff in HO as [HO1 HO2].
    apply andb_true_iff in HE as [HE1 HE2].
    f_equal; [by apply IH|by apply IHl].
Qed.

(** X4. For keys made of arrays and primitive values only, equality in
    structure is enough: if such a key was handed to [getQuery], there is
    an entry at the position returned, whose hash is the JSON text of
    that key and of every deep-equal key (the entry was there before, or
    it is the one just made from the key and fetch function), and a
    [getQuery] with a deep-equal key returns that position and adds no
    entry. *)
Theorem array_keys_equal_share_entry env k1 k2 t1 f1 f2 w i w1 :
  JSON.tree_of (objects env) k1 = Some t1 → object_free t1 = true →
  deep_equal (objects env) k1 k2 = true →
  getQuery env k1 f1 w = Some (Normal i, w1) →
  (∃ Q, queries w1 !! i = Some Q
        ∧ JSON.stringify (objects env) k1 = Normal (queryHash Q)
        ∧ JSON.stringify (objects env) k2 = Normal (queryHash Q)
        ∧ (w1 = w
           ∨ (i = length (queries w) ∧ Q = new_entry k1 (queryHash Q) f1)))
  ∧ getQuery env k2 f2 w1 = Some (Normal i, w1).
Proof.
  intros HT HO HD. apply getQuery_shared.
  apply struct_eq_stringify. exists t1. split; [done|].
  unfold deep_equal in HD. rewrite HT in HD.
  destruct (JSON.tree_of (objects env) k2) as [t2|]; [|done].
  f_equal. symmetry. by apply tree_equal_object_free.
Qed.

Lemma array_keys_equal_share_entry_witness :
  ∃ i w1 Q,
    getQuery quiet (VRef 0) 1 empty_world = Some (Normal i, w1)
    ∧ queries w1 !! i = Some Q
    ∧ queryKey Q = VRef 0 ∧ queryFn Q = 1
    ∧ getQuery quiet (VRef 1) 2 w1 = Some (Normal i, w1).
Proof.
  pose (w1 := default empty_world
                (snd <$> getQuery quiet (VRef 0) 1 empty_world)).
  destruct (array_keys_equal_share_entry quiet (VRef 0) (VRef 1)
              (TArr [TPrim (PStr "c"); TPrim (PNum 1)]) 1 2 empty_world 0 w1)
    as ((Q & HQ & _) & H2).
  - vm_compute. reflexivity.
  - reflexivity.
  - vm_compute. reflexivity.
  - vm_compute. reflexivity.
  - exists 0, w1, Q. split; [vm_compute; reflexivity|]. split; [exact HQ|].
    vm_compute in HQ. injection HQ as <-.
    split; [reflexivity|]. split; [reflexivity|exact H2].
Defined.

(** ** The entry, when callbacks make no cache calls *)

Lemma broadcast_spec q Q updater w :
  queries w !! q = Some Q →
  broadcast q updater w
  = mkWorld (<[q:=set_state (updater (state Q)) Q]> (queries w)) (promises w)
      (log w ++ EvState q (updater (state Q))
             :: map (EvNotify (length (log w)) q) (subscribers Q)).
Proof.
  intros HQ. unfold broadcast. rewrite HQ. unfold logged, put_query. simpl.
  by rewrite (alter_lookup_insert _ _ _ _ HQ).
Qed.

Lemma settled_spec q Q awaited w :
  queries w !! q = Some Q →
  settled q awaited w
  = mkWorld
      (<[q:=mkQuery (queryKey Q) (queryHash Q) None (subscribers Q)
              (finished (outcome awaited (state Q))) (queryFn Q)]> (queries w))
      (promises w)
      (log w
       ++ EvState q (outcome awaited (state Q))
       :: map (EvNotify (length (log w)) q) (subscribers Q)
       ++ EvState q (finished (outcome awaited (state Q)))
       :: map (EvNotify (length (log w) + 1 + length (subscribers Q)) q)
            (subscribers Q)).
Proof.
  intros HQ. pose proof (lookup_lt_Some _ _ _ HQ) as Hlt.
  unfold settled. rewrite (broadcast_spec _ _ _ _ HQ).
  unfold put_query at 1. simpl.
  rewrite alter_insert by done.
  erewrite broadcast_spec; last first.
  { simpl. by rewrite list_lookup_insert_eq. }
  simpl. rewrite list_insert_insert_eq.
  rewrite length_app. simpl. rewrite length_map.
  f_equal. rewrite <- app_assoc. simpl.
  by replace (length (log w) + S (length (subscribers Q)))
    with (length (log w) + 1 + length (subscribers Q)) by lia.
Qed.

Lemma fetched_returns env q Q w :
  queries w !! q = Some Q → promise Q = None →
  (on_queryFn env (queryFn Q) (count_if (is_call_of (queryFn Q)) (log w))).2
  = Returns →
  fetched env q w
  = mkWorld
      (<[q:=mkQuery (queryKey Q) (queryHash Q) (Some (length (promises w)))
              (subscribers Q) (starting (state Q)) (queryFn Q)]> (queries w))
      (promises w ++ [Awaiting q])
      (log w
       ++ EvState q (starting (state Q))
       :: map (EvNotify (length (log w)) q) (subscribers Q)
       ++ [EvQueryFn q (queryFn Q)]).
Proof.
  intros HQ Hp HR. pose proof (lookup_lt_Some _ _ _ HQ) as Hlt.
  unfold fetched. rewrite HQ, Hp.
  rewrite broadcast_calls. simpl. rewrite HR.
  erewrite broadcast_spec by (simpl; done).
  unfold put_query, put_pstate, logged. simpl.
  rewrite alter_insert by done. rewrite insert_snoc.
  f_equal. rewrite <- app_assoc. done.
Qed.

(** ** What every run keeps, whatever the callbacks do *)

(** X5. An entry's [data] changes only when a fetch succeeds: over a
    run in which no awaited promise is fulfilled, whatever else happens
    (fetches that fail or throw, subscriptions, cache calls made from
    callbacks), every entry keeps the data it had. *)
Theorem data_changes_only_on_success env fuel ins w w' q Q :
  Forall no_success ins →
  steps env fuel ins w = Some w' →
  queries w !! q = Some Q →
  ∃ Q', queries w' !! q = Some Q' ∧ data (state Q') = data (state Q).
Proof.
  intros Hins HS HQ.
  apply (steps_related same_data (λ _, False)) in HS; [by apply HS|..]; try done.
  intros st1 st2 st3. unfold same_data. congruence.
Qed.

Lemma data_changes_only_on_success_witness :
  ∃ w' Q', steps eager 1 [Call (CFetch 0); Settle 0 (Throw (str "boom"));
                          Call (CFetch 0)] refetching = Some w'
           ∧ queries w' !! 0 = Some Q' ∧ data (state Q') = str "X".
Proof.
  pose (ins := [Call (CFetch 0); Settle 0 (Throw (str "boom")); Call (CFetch 0)]).
  pose (w' := default refetching (steps eager 1 ins refetching)).
  destruct (data_changes_only_on_success eager 1 ins refetching w' 0
              (mkQuery (VRef 0) None (Some 0) [10]
                 (mkQueryState Success true (str "X") undefined) 1))
    as (Q' & HQ' & HD).
  - repeat constructor.
  - vm_compute. reflexivity.
  - reflexivity.
  - exists w', Q'. split; [vm_compute; reflexivity|]. split; [exact HQ'|exact HD].
Defined.

(** X6. An entry never goes back to [loading]: once its status is
    [success] or [error], it is one of the two after any run, whatever the
    callbacks do. *)
Theorem status_never_back_to_loading env fuel ins w w' q Q :
  steps env fuel ins w = Some w' →
  queries w !! q = Some Q → status (state Q) ≠ Loading →
  ∃ Q', queries w' !! q = Some Q' ∧ status (state Q') ≠ Loading.
Proof.
  intros HS HQ HL.
  apply (steps_related stays_settled (λ _, True)) in HS.
  - destruct (HS _ _ HQ) as (Q' & HQ' & HR). eauto.
  - by intros st H.
  - intros st1 st2 st3 H1 H2 H. auto.
  - by intros st H.
  - by intros st H.
  - by intros e st H.
  - by intros d st _ H.
  - apply List.Forall_forall. by intros [?|?|? [?|?]].
Qed.

Lemma status_never_back_to_loading_witness :
  ∃ w' Q', steps quiet 0 [Call (CFetch 0); Settle 0 (Throw (str "boom"));
                          Call (CFetch 0)] refetching = Some w'
           ∧ queries w' !! 0 = Some Q' ∧ status (state Q') ≠ Loading.
Proof.
  pose (ins := [Call (CFetch 0); Settle 0 (Throw (str "boom")); Call (CFetch 0)]).
  pose (w' := default refetching (steps quiet 0 ins refetching)).
  destruct (status_never_back_to_loading quiet 0 ins refetching w' 0
              (mkQuery (VRef 0) None (Some 0) [10]
                 (mkQueryState Success true (str "X") undefined) 1))
    as (Q' & HQ' & HD).
  - vm_compute. reflexivity.
  - reflexivity.
  - discriminate.
  - exists w', Q'. split; [vm_compute; reflexivity|]. split; [exact HQ'|exact HD].
Defined.

Lemma step_success_has_data env fuel i w w' :
  resolves_defined i → step env fuel i w = Some w' →
  (∀ q Q, queries w !! q = Some Q → success_has_data (state Q)) →
  ∀ q Q, queries w' !! q = Some Q → success_has_data (state Q).
Proof.
  intros Hi HS Hw q Q' HQ'.
  assert (Hcase : (∃ key f, i = GetQuery key f) ∨ ∀ key f, i ≠ GetQuery key f).
  { destruct i; [left; eauto|by right..]. }
  destruct Hcase as [(key & f & ->)|Hn].
  { apply step_getQuery in HS as [->|[hash ->]]; [eauto|].
    simpl in HQ'. apply lookup_app_Some in HQ' as [?|[_ HQ']]; [eauto|].
    apply list_lookup_singleton_Some in HQ' as [_ <-]. done. }
  assert (E : evolves (length (log w)) false w w').
  { by eapply step_evolves. }
  apply (step_related keeps_success_data is_set) in HS.
  - destruct (queries w !! q) as [Q|] eqn:HQ.
    + destruct (HS _ _ HQ) as (Q'' & HQ'' & HR).
      assert (Q'' = Q') as -> by congruence. apply HR. eauto.
    + apply lookup_ge_None in HQ. apply lookup_lt_Some in HQ'.
      rewrite (ev_length _ _ _ _ E) in HQ'. lia.
  - by intros st H.
  - intros st1 st2 st3 H1 H2 H. auto.
  - by intros st H.
  - by intros st H.
  - by intros e st H.
  - by intros d st Hd _ _.
  - by destruct i as [?|?|? [?|?]].
Qed.

(** X7. Success comes with data, also when callbacks call back into the
    cache: if no awaited promise is fulfilled with [undefined], then in
    every world a run reaches from the empty cache an entry whose status
    is [success] has data. *)
Theorem success_has_data_always env fuel ins w q Q :
  Forall resolves_defined ins →
  steps env fuel ins empty_world = Some w →
  queries w !! q = Some Q → status (state Q) = Success →
  is_set (data (state Q)).
Proof.
  intros Hins HS HQ.
  assert (G : ∀ w0, (∀ q Q, queries w0 !! q = Some Q → success_has_data (state Q)) →
            steps env fuel ins w0 = Some w →
            ∀ q Q, queries w !! q = Some Q → success_has_data (state Q)).
  { clear HS HQ. induction Hins as [|i ins Hi _ IH]; intros w0 H0; simpl.
    - by intros [= <-].
    - destruct (step env fuel i w0) as [w1|] eqn:HS; [|done].
      apply IH. by eapply step_success_has_data. }
  eapply (G empty_world); [|done|done]. intros q0 Q0 H0. done.
Qed.

Lemma success_has_data_always_witness :
  ∃ w Q, steps eager_twice 1
           [GetQuery (VRef 0) 1; Call (CSubscribe 0 10); Call (CFetch 0);
            Settle 0 (Normal (str "X")); Settle 1 (Throw (str "boom"));
            Call (CFetch 0); Settle 2 (Normal (str "Y"))] empty_world = Some w
         ∧ queries w !! 0 = Some Q ∧ status (state Q) = Success
         ∧ is_set (data (state Q)).
Proof.
  eexists _, _. split; [vm_compute; reflexivity|].
  split; [reflexivity|]. split; [reflexivity|].
  eapply (success_has_data_always eager_twice 1
            [GetQuery (VRef 0) 1; Call (CSubscribe 0 10); Call (CFetch 0);
             Settle 0 (Normal (str "X")); Settle 1 (Throw (str "boom"));
             Call (CFetch 0); Settle 2 (Normal (str "Y"))] _ 0).
  - repeat constructor; done.
  - vm_compute. reflexivity.
  - reflexivity.
  - reflexivity.
Defined.

(** ** One operation per entry, when callbacks make no cache calls *)

Lemma put_query_in_flight_fetching q f w :
  (∀ Q, state (f Q) = state Q) →
  in_flight_fetching w → in_flight_fetching (put_query q f w).
Proof.
  intros Hf Hw p q' Hp. simpl in *. destruct (Hw p q' Hp) as (Q & HQ & HF).
  rewrite list_lookup_alter. case_decide as Hd; [subst q'|eauto].
  rewrite HQ. simpl. eexists. split; [done|]. by rewrite Hf.
Qed.

Lemma stepped_in_flight_fetching env i w :
  single_flight w → in_flight_fetching w →
  in_flight_fetching (stepped env i w).
Proof.
  intros Hs Hw. destruct i as [key f|[q|q sub|q sub]|p awaited]; simpl.
  - rewrite getQuery_cases. destruct (JSON.stringify _ _) as [hash|e]; [|done].
    destruct (list_find _ _) as [[i Q]|]; [done|].
    intros p q Hp. simpl in *. destruct (Hw p q Hp) as (Q & HQ & HF).
    exists Q. split; [by apply lookup_app_l_Some|done].
  - destruct (queries w !! q) as [Q|] eqn:HQ.
    2:{ rewrite fetched_idle; [done|]. intros Q. by rewrite HQ. }
    destruct (promise Q) as [p0|] eqn:Hp0.
    { rewrite fetched_idle; [done|]. intros Q'. rewrite HQ.
      intros [= <-]. congruence. }
    destruct (fetched_spec env q Q w HQ Hp0) as (s & st & Hq & Hps & Hst & _).
    pose proof (lookup_lt_Some _ _ _ HQ) as Hlt.
    intros p q' Hp. rewrite Hps in Hp. rewrite Hq.
    apply lookup_app_Some in Hp as [Hp|[Hge Hp]].
    + destruct (Hw p q' Hp) as (Q' & HQ' & HF').
      destruct (Hs p q' Hp) as (Q'' & HQ'' & HpQ'').
      assert (q' ≠ q) by (intros ->; congruence).
      exists Q'. by rewrite list_lookup_insert_ne.
    + apply list_lookup_singleton_Some in Hp as [_ ->].
      destruct Hst as [[[= <-] ->]|(? & ? & _ & [=] & _)].
      eexists. by rewrite list_lookup_insert_eq.
  - by apply put_query_in_flight_fetching.
  - by apply put_query_in_flight_fetching.
  - unfold resumed. destruct (promises w !! p) as [[q|q| |e]|] eqn:Hp; try done.
    destruct (Hs p q Hp) as (Q & HQ & HpQ).
    intros p' q' Hp'. simpl in *. rewrite settled_promises in Hp'.
    rewrite settled_queries.
    assert (p' ≠ p) as Hne.
    { intros ->. rewrite list_lookup_insert_eq in Hp'
        by (by eapply lookup_lt_Some). done. }
    rewrite list_lookup_insert_ne in Hp' by done.
    destruct (Hw p' q' Hp') as (Q' & HQ' & HF').
    destruct (Hs p' q' Hp') as (Q'' & HQ'' & HpQ'').
    assert (q' ≠ q) by (intros ->; congruence).
    exists Q'. by rewrite list_lookup_alter_ne.
Qed.

(** X8. When callbacks make no cache calls and no [notify] throws, an
    operation that waits for its fetch function is the one its entry's [promise] names, and the
    entry says [isFetching]; so no entry has two operations in flight. *)
Theorem passive_one_operation_per_entry env fuel ins w :
  passive env → steps env fuel ins empty_world = Some w →
  (∀ p q, promises w !! p = Some (Awaiting q) →
     ∃ Q, queries w !! q = Some Q ∧ promise Q = Some p
          ∧ isFetching (state Q) = true)
  ∧ (∀ p1 p2 q, promises w !! p1 = Some (Awaiting q) →
       promises w !! p2 = Some (Awaiting q) → p1 = p2).
Proof.
  intros Hpas. rewrite steps_passive by done. intros [= <-].
  assert (G : ∀ w0, single_flight w0 ∧ in_flight_fetching w0 →
            let w := foldl (λ w i, stepped env i w) w0 ins in
            single_flight w ∧ in_flight_fetching w).
  { induction ins as [|i ins IH]; intros w0 [H1 H2]; simpl; [done|].
    apply IH. split; [by apply stepped_single_flight|].
    by apply stepped_in_flight_fetching. }
  destruct (G empty_world) as [H1 H2].
  { split; intros p q H; done. }
  split.
  - intros p q Hp. destruct (H1 _ _ Hp) as (Q & HQ & HpQ).
    destruct (H2 _ _ Hp) as (Q' & HQ' & HF).
    exists Q. split_and!; [done..|congruence].
  - intros p1 p2 q. by apply single_flight_unique.
Qed.

Lemma passive_one_operation_per_entry_witness :
  ∃ w, steps quiet 0 (GetQuery (VRef 0) 1 :: attach 0 10 ++ attach 0 11)
         empty_world = Some w
       ∧ ∃ Q, queries w !! 0 = Some Q ∧ promise Q = Some 0
              ∧ isFetching (state Q) = true.
Proof.
  eexists. split; [vm_compute; reflexivity|].
  apply (passive_one_operation_per_entry quiet 0
           (GetQuery (VRef 0) 1 :: attach 0 10 ++ attach 0 11) _
           quiet_passive ltac:(vm_compute; reflexivity)).
  reflexivity.
Defined.

(** X9. When callbacks make no cache calls and no [notify] throws, any
    number of [fetch] calls in a row on an idle entry are one fetch: the fetch function is called
    once and one operation is added. *)
Theorem passive_fetch_calls_are_one env fuel n q Q w :
  passive env → queries w !! q = Some Q → promise Q = None →
  ∃ w', steps env fuel (replicate (S n) (Call (CFetch q))) w = Some w'
        ∧ steps env fuel [Call (CFetch q)] w = Some w'
        ∧ count_if (is_call_of (queryFn Q)) (log w')
          = S (count_if (is_call_of (queryFn Q)) (log w))
        ∧ length (promises w') = S (length (promises w)).
Proof.
  intros Hpas HQ Hp.
  destruct (fetch_dedup_passive env fuel n q Q w Hpas HQ Hp) as [H1 H2].
  exists (fetched env q w). split_and!; try done.
  - by rewrite steps_passive.
  - destruct (fetched_spec env q Q w HQ Hp) as (s & st & _ & -> & _).
    rewrite length_app. simpl. lia.
Qed.

Lemma passive_fetch_calls_are_one_witness :
  ∃ w', steps quiet 0 (replicate 3 (Call (CFetch 0))) fresh_entry = Some w'
        ∧ count_if (is_call_of 1) (log w') = 1
        ∧ length (promises w') = 1.
Proof.
  destruct (passive_fetch_calls_are_one quiet 0 2 0
              (mkQuery (VRef 0) None None [10] initial_state 1) fresh_entry
              quiet_passive eq_refl eq_refl) as (w' & H1 & _ & H2 & H3).
  exists w'. split; [exact H1|]. split; [exact H2|exact H3].
Defined.

(** ** A fetch from start to end, when callbacks make no cache calls *)

(** X10. A [fetch] on an idle entry whose fetch function returns a
    promise, followed by the settlement of that promise, writes three
    states and tells every subscriber about each: fetching (status and
    data kept, error cleared), then the outcome, then the same with
    [isFetching] off; the fetch function is called once in between, the
    entry's [promise] is empty again and the operation is over.
    (Callbacks make no cache calls and no [notify] throws.) *)
Theorem fetch_cycle env fuel q Q awaited w :
  passive env → queries w !! q = Some Q → promise Q = None →
  (on_queryFn env (queryFn Q) (count_if (is_call_of (queryFn Q)) (log w))).2
  = Returns →
  let subs := subscribers Q in
  let n := length (log w) in
  let s1 := mkQueryState (status (state Q)) true (data (state Q)) undefined in
  let s2 := match awaited with
            | Normal d => mkQueryState Success true d undefined
            | Throw e => mkQueryState Error true (data (state Q)) e
            end in
  let s3 := mkQueryState (status s2) false (data s2) (error s2) in
  steps env fuel [Call (CFetch q); Settle (length (promises w)) awaited] w
  = Some (mkWorld
            (<[q:=mkQuery (queryKey Q) (queryHash Q) None subs s3 (queryFn Q)]>
               (queries w))
            (promises w ++ [Fulfilled])
            (log w
             ++ EvState q s1 :: map (EvNotify n q) subs
             ++ EvQueryFn q (queryFn Q)
             :: EvState q s2 :: map (EvNotify (n + 2 + length subs) q) subs
             ++ EvState q s3
             :: map (EvNotify (n + 3 + 2 * length subs) q) subs)).
Proof.
  intros Hpas HQ Hp HR subs n s1 s2 s3.
  pose proof (lookup_lt_Some _ _ _ HQ) as Hlt.
  rewrite steps_passive by done. simpl. f_equal.
  rewrite (fetched_returns env q Q w HQ Hp HR).
  unfold resumed. simpl.
  rewrite lookup_app_r, Nat.sub_diag by done. simpl.
  erewrite settled_spec; last first.
  { simpl. by rewrite list_lookup_insert_eq. }
  unfold put_pstate. simpl.
  rewrite list_insert_insert_eq, insert_snoc.
  rewrite !length_app. simpl. rewrite length_app, length_map. simpl.
  assert (E2 : outcome awaited (starting (state Q)) = s2) by (by destruct awaited).
  rewrite E2. f_equal. rewrite <- !app_assoc. simpl. rewrite <- app_assoc. simpl.
  fold subs n.
  replace (n + S (length subs + 1)) with (n + 2 + length subs) by lia.
  replace (n + 2 + length subs + 1 + length subs)
    with (n + 3 + 2 * length subs) by lia.
  done.
Qed.

Lemma fetch_cycle_witness :
  steps quiet 0 [Call (CFetch 0); Settle 0 (Normal (str "X"))] fresh_entry
  = Some (mkWorld
            [mkQuery (VRef 0) None None [10]
               (mkQueryState Success false (str "X") undefined) 1]
            [Fulfilled]
            [EvState 0 (mkQueryState Loading true undefined undefined);
             EvNotify 0 0 10; EvQueryFn 0 1;
             EvState 0 (mkQueryState Success true (str "X") undefined);
             EvNotify 3 0 10;
             EvState 0 (mkQueryState Success false (str "X") undefined);
             EvNotify 5 0 10]).
Proof.
  exact (fetch_cycle quiet 0 0 (mkQuery (VRef 0) None None [10] initial_state 1)
           (Normal (str "X")) fresh_entry quiet_passive eq_refl eq_refl eq_refl).
Defined.

(** X11. A fetch that has ended does not block the next one: after the
    awaited promise of an operation settles (either way), a [fetch] on
    its entry calls the fetch function again and starts a new
    operation.  (Callbacks make no cache calls and no [notify] throws.) *)
Theorem fetch_again_after_settlement env fuel p q Q awaited w :
  passive env →
  promises w !! p = Some (Awaiting q) → queries w !! q = Some Q →
  ∃ w' Q',
    steps env fuel [Settle p awaited; Call (CFetch q)] w = Some w'
    ∧ count_if (is_call_of (queryFn Q)) (log w')
      = S (count_if (is_call_of (queryFn Q)) (log w))
    ∧ length (promises w') = S (length (promises w))
    ∧ queries w' !! q = Some Q'
    ∧ promise Q' = Some (length (promises w)).
Proof.
  intros Hpas Hp HQ. pose proof (lookup_lt_Some _ _ _ HQ) as Hlt.
  pose proof (lookup_lt_Some _ _ _ Hp) as Hplt.
  rewrite steps_passive by done. simpl.
  set (w1 := resumed p awaited w).
  assert (HQ1 : queries w1 !! q
                = Some (mkQuery (queryKey Q) (queryHash Q) None (subscribers Q)
                          (finished (outcome awaited (state Q))) (queryFn Q))).
  { unfold w1, resumed. rewrite Hp. simpl. rewrite settled_queries.
    by rewrite list_lookup_alter_eq, HQ. }
  assert (HP1 : length (promises w1) = length (promises w)).
  { unfold w1, resumed. rewrite Hp. simpl. rewrite settled_promises.
    by rewrite length_insert. }
  assert (HL1 : count_if (is_call_of (queryFn Q)) (log w1)
                = count_if (is_call_of (queryFn Q)) (log w)).
  { unfold w1, resumed. rewrite Hp. simpl. apply settled_calls. }
  destruct (fetched_spec env q _ w1 HQ1 eq_refl) as (s & st & Hq & Hps & _).
  pose proof (fetched_calls env q _ w1 HQ1 eq_refl) as HC. simpl in HC.
  exists (fetched env q w1). eexists. split; [done|]. split_and!.
  - by rewrite HC, HL1.
  - rewrite Hps, length_app. simpl. lia.
  - rewrite Hq. apply list_lookup_insert_eq. by eapply lookup_lt_Some.
  - simpl. by rewrite HP1.
Qed.

Lemma fetch_again_after_settlement_witness :
  ∃ w' Q',
    steps quiet 0 [Settle 0 (Throw (str "boom")); Call (CFetch 0)] refetching
    = Some w'
    ∧ count_if (is_call_of 1) (log w') = 1
    ∧ queries w' !! 0 = Some Q' ∧ promise Q' = Some 1.
Proof.
  destruct (fetch_again_after_settlement quiet 0 0 0
              (mkQuery (VRef 0) None (Some 0) [10]
                 (mkQueryState Success true (str "X") undefined) 1)
              (Throw (str "boom")) refetching quiet_passive eq_refl eq_refl)
    as (w' & Q' & H1 & H2 & _ & H3 & H4).
  exists w', Q'. split; [exact H1|]. split; [exact H2|]. split; [exact H3|exact H4].
Defined.

(** X12. When callbacks make no cache calls and no [notify] throws, a
    call on one entry, or
    the settlement of one entry's operation, leaves every other entry as
    it is; a [getQuery] leaves every entry as it is. *)
Theorem other_entries_untouched env fuel i w w' q Q :
  passive env → step env fuel i w = Some w' →
  queries w !! q = Some Q → target i w ≠ Some q →
  queries w' !! q = Some Q.
Proof.
  intros Hpas. rewrite step_passive by done. intros [= <-] HQ Ht.
  destruct i as [key f|[q0|q0 sub|q0 sub]|p awaited]; simpl in *.
  - rewrite getQuery_cases. destruct (JSON.stringify _ _) as [hash|e]; [|done].
    destruct (list_find _ _) as [[i0 Q0]|]; [done|]. simpl.
    by apply lookup_app_l_Some.
  - destruct (queries w !! q0) as [Q0|] eqn:HQ0.
    2:{ rewrite fetched_idle; [done|]. intros Q1. by rewrite HQ0. }
    destruct (promise Q0) as [p0|] eqn:Hp0.
    { rewrite fetched_idle; [done|]. intros Q'. rewrite HQ0.
      intros [= <-]. congruence. }
    destruct (fetched_spec env q0 Q0 w HQ0 Hp0) as (s & st & -> & _).
    rewrite list_lookup_insert_ne; [done|congruence].
  - rewrite list_lookup_alter_ne; [done|congruence].
  - rewrite list_lookup_alter_ne; [done|congruence].
  - unfold resumed. destruct (promises w !! p) as [[q0|q0| |e]|]; try done.
    simpl. rewrite settled_queries.
    rewrite list_lookup_alter_ne; [done|congruence].
Qed.

Lemma other_entries_untouched_witness :
  ∃ w',
    step quiet 0 (Settle 0 (Normal (str "Y")))
      (mkWorld (queries refetching ++ queries fresh_entry) [Awaiting 0] [])
    = Some w'
    ∧ queries w' !! 1 = queries fresh_entry !! 0.
Proof.
  pose (w := mkWorld (queries refetching ++ queries fresh_entry) [Awaiting 0] []).
  pose (w' := default w (step quiet 0 (Settle 0 (Normal (str "Y"))) w)).
  exists w'. split; [vm_compute; reflexivity|].
  apply (other_entries_untouched quiet 0 (Settle 0 (Normal (str "Y"))) w w' 1 _
           quiet_passive).
  - vm_compute. reflexivity.
  - reflexivity.
  - simpl. discriminate.
Defined.

(** ** Subscriptions *)

Lemma count_if_cons_false {A} (P : A → bool) x l :
  P x = false → count_if P (x :: l) = count_if P l.
Proof. intros H. unfold count_if. simpl. by rewrite H. Qed.

Lemma count_if_notify_map sub b q (subs : list obs) :
  sub ∉ subs → count_if (is_notify_of sub) (map (EvNotify b q) subs) = 0.
Proof.
  unfold count_if. induction subs as [|s subs IH]; [done|].
  intros Hn. apply not_elem_of_cons in Hn as [Hne Hn]. simpl.
  rewrite bool_decide_eq_false_2 by done. by apply IH.
Qed.

(** X13. Unsubscribing does not cancel a fetch.  When an observer
    unsubscribes while its entry's operation is in flight, the operation
    still ends when its promise settles, with the outcome written to the
    entry; the observer is not notified any more.  (Callbacks make no
    cache calls and no [notify] throws.) *)
Theorem unsubscribe_does_not_cancel env fuel p q Q sub awaited w :
  passive env →
  promises w !! p = Some (Awaiting q) → queries w !! q = Some Q →
  ∃ w' Q',
    steps env fuel [Call (CUnsubscribe q sub); Settle p awaited] w = Some w'
    ∧ queries w' !! q = Some Q'
    ∧ state Q' = finished (outcome awaited (state Q))
    ∧ promise Q' = None
    ∧ promises w' !! p = Some Fulfilled
    ∧ count_if (is_notify_of sub) (log w')
      = count_if (is_notify_of sub) (log w).
Proof.
  intros Hpas Hp HQ. pose proof (lookup_lt_Some _ _ _ HQ) as Hlt.
  pose proof (lookup_lt_Some _ _ _ Hp) as Hplt.
  rewrite steps_passive by done. simpl.
  set (subs := filter (λ s, s ≠ sub) (subscribers Q)).
  set (w1 := put_query q _ w).
  assert (HQ1 : queries w1 !! q = Some (set_subscribers subs Q)).
  { unfold w1. simpl. by rewrite list_lookup_alter_eq, HQ. }
  unfold resumed. replace (promises w1) with (promises w) by done.
  rewrite Hp. rewrite (settled_spec q _ awaited w1 HQ1).
  eexists _, _. split; [done|]. simpl. split_and!.
  - apply list_lookup_insert_eq. unfold w1. simpl. by rewrite length_alter.
  - done.
  - done.
  - by apply list_lookup_insert_eq.
  - assert (Hn : sub ∉ subs).
    { unfold subs. intros Hin. apply list_elem_of_filter in Hin as [Hne _].
      by apply Hne. }
    rewrite count_if_app, count_if_cons_false, count_if_app by done.
    rewrite count_if_cons_false, !count_if_notify_map by done. lia.
Qed.

Lemma unsubscribe_does_not_cancel_witness :
  ∃ w' Q',
    steps quiet 0 [Call (CUnsubscribe 0 10); Settle 0 (Normal (str "Y"))]
      refetching = Some w'
    ∧ queries w' !! 0 = Some Q'
    ∧ state Q' = mkQueryState Success false (str "Y") undefined
    ∧ count_if (is_notify_of 10) (log w') = 0.
Proof.
  destruct (unsubscribe_does_not_cancel quiet 0 0 0
              (mkQuery (VRef 0) None (Some 0) [10]
                 (mkQueryState Success true (str "X") undefined) 1)
              10 (Normal (str "Y")) refetching quiet_passive eq_refl eq_refl)
    as (w' & Q' & H1 & H2 & H3 & _ & _ & H4).
  exists w', Q'. split; [exact H1|]. split; [exact H2|]. split; [exact H3|exact H4].
Defined.

(** X14. [subsribe] followed by the function it returned: the entry's
    subscribers are the ones it had without any registration of that
    observer, in their order (an earlier registration of the same observer
    goes as well); if the observer was not registered before, the cache is
    as it was. *)
Theorem subscribe_then_unsubscribe q Q sub w :
  queries w !! q = Some Q →
  (subsribe q sub;; unsubscribe q sub) w
  = Some (Normal tt,
          mkWorld
            (<[q:=set_subscribers (filter (λ s, s ≠ sub) (subscribers Q)) Q]>
               (queries w))
            (promises w) (log w))
  ∧ (sub ∉ subscribers Q →
     (subsribe q sub;; unsubscribe q sub) w = Some (Normal tt, w)).
Proof.
  intros HQ. pose proof (lookup_lt_Some _ _ _ HQ) as Hlt.
  assert (E : (subsribe q sub;; unsubscribe q sub) w
              = Some (Normal tt,
                  mkWorld
                    (<[q:=set_subscribers
                            (filter (λ s, s ≠ sub) (subscribers Q)) Q]>
                       (queries w))
                    (promises w) (log w))).
  { unfold subsribe, unsubscribe, update_query, modify, mbind. simpl.
    do 2 f_equal.
    rewrite (alter_lookup_insert _ _ _ _ HQ), alter_insert by done.
    f_equal. unfold set_subscribers. simpl. f_equal.
    rewrite list.filter_app, filter_cons_False, filter_nil, app_nil_r; [done|].
    intros H. by apply H. }
  split; [done|]. intros Hn. rewrite E. do 2 f_equal.
  rewrite filter_absent by done.
  destruct w as [qs ps l]. simpl in *. f_equal.
  apply list_insert_id. rewrite HQ. by destruct Q.
Qed.

Lemma subscribe_then_unsubscribe_witness :
  (subsribe 0 11;; unsubscribe 0 11) fresh_entry = Some (Normal tt, fresh_entry)
  ∧ (subsribe 0 10;; unsubscribe 0 10) fresh_entry
    = Some (Normal tt,
            mkWorld [mkQuery (VRef 0) None None [] initial_state 1] [] []).
Proof.
  destruct (subscribe_then_unsubscribe 0
              (mkQuery (VRef 0) None None [10] initial_state 1) 11 fresh_entry
              eq_refl) as [_ H1].
  destruct (subscribe_then_unsubscribe 0
              (mkQuery (VRef 0) None None [10] initial_state 1) 10 fresh_entry
              eq_refl) as [H2 _].
  split; [apply H1|exact H2].
  intros H. apply list_elem_of_singleton in H. discriminate.
Defined.

(** ** Observers and the hook *)

Lemma in_cache_inv {A} (m : M A) a c a' :
  in_cache m a = Some (c, a') →
  ∃ w', m (cache a) = Some (c, w')
        ∧ a' = mkPage w' (observers a) (observerRef a) (cleanups a).
Proof.
  unfold in_cache. destruct (m (cache a)) as [[c0 w']|]; [|done].
  intros [= <- <-]. eauto.
Qed.

(** The three ways [createQueryObserver] ends. *)
Lemma createQueryObserver_cases env key f a :
  createQueryObserver env key f a =
  match JSON.stringify (objects env) key with
  | Throw e => Some (Throw e, a)
  | Normal hash =>
      let o := length (observers a) in
      match list_find (λ d, queryHash d = hash) (queries (cache a)) with
      | Some (i, _) =>
          Some (Normal o,
                mkPage (cache a) (observers a ++ [mkQueryObserver i None])
                  (observerRef a) (cleanups a))
      | None =>
          Some (Normal o,
                mkPage
                  (mkWorld (queries (cache a) ++ [new_entry key hash f])
                     (promises (cache a)) (log (cache a)))
                  (observers a
                   ++ [mkQueryObserver (length (queries (cache a))) None])
                  (observerRef a) (cleanups a))
      end
  end.
Proof.
  unfold createQueryObserver, in_cache. rewrite getQuery_cases.
  destruct (JSON.stringify _ _) as [hash|e]; [|by destruct a as [[]]].
  destruct (list_find _ _) as [[i Q]|]; simpl; [|done].
  by destruct a as [[]].
Qed.

(** The entry a first render binds its observer to: the one with the
    key's hash, or a new one. *)
Lemma useQuery_cases env client key f h a :
  useQuery env client key f h a =
  if client then
    match observerRef a !! h with
    | Some o => Some (Normal (getResult o a), a)
    | None =>
        match JSON.stringify (objects env) key with
        | Throw e => Some (Throw e, a)
        | Normal hash =>
            let o := length (observers a) in
            let a' :=
              match list_find (λ d, queryHash d = hash) (queries (cache a)) with
              | Some (i, _) =>
                  mkPage (cache a) (observers a ++ [mkQueryObserver i None])
                    (<[h:=o]> (observerRef a)) (cleanups a)
              | None =>
                  mkPage
                    (mkWorld (queries (cache a) ++ [new_entry key hash f])
                       (promises (cache a)) (log (cache a)))
                    (observers a
                     ++ [mkQueryObserver (length (queries (cache a))) None])
                    (<[h:=o]> (observerRef a)) (cleanups a)
              end in
            Some (Normal (getResult o a'), a')
        end
    end
  else Some (Throw new_Error, a).
Proof.
  unfold useQuery. destruct client; [|done].
  destruct (observerRef a !! h) as [o|]; [done|].
  rewrite createQueryObserver_cases.
  destruct (JSON.stringify _ _) as [hash|e]; [|done]. simpl.
  by destruct (list_find _ _) as [[i Q]|].
Qed.

(** X15. A render of [useQuery] always ends, and never fetches: it
    calls no fetch function and no observer, starts no operation and
    leaves every entry as it is.  It throws only when no client is
    provided, or when the instance has no observer yet and the key has no
    JSON text; a render that throws changes nothing, and a render that
    returns has the instance's observer in [observerRef] and returns that
    observer's result. *)
Theorem useQuery_render env client key f h a :
  ∃ r a',
    useQuery env client key f h a = Some (r, a')
    ∧ log (cache a') = log (cache a)
    ∧ promises (cache a') = promises (cache a)
    ∧ (∀ q Q, queries (cache a) !! q = Some Q → queries (cache a') !! q = Some Q)
    ∧ (∀ e, r = Throw e →
         a' = a
         ∧ ((client = false ∧ e = new_Error)
            ∨ (client = true ∧ observerRef a !! h = None
               ∧ JSON.stringify (objects env) key = Throw e)))
    ∧ (∀ st, r = Normal st →
         client = true
         ∧ ∃ o, observerRef a' !! h = Some o ∧ st = getResult o a').
Proof.
  rewrite useQuery_cases. destruct client.
  2:{ eexists _, _. split; [done|]. split_and!; try done.
      intros e [= <-]. split; [done|]. by left. }
  destruct (observerRef a !! h) as [o|] eqn:Hr.
  { eexists _, _. split; [done|]. split_and!; try done.
    intros st [= <-]. split; [done|]. eauto. }
  destruct (JSON.stringify _ _) as [hash|e] eqn:HS.
  2:{ eexists _, _. split; [done|]. split_and!; try done.
      intros e' [= <-]. split; [done|]. by right. }
  simpl. destruct (list_find _ _) as [[i Q]|].
  - eexists _, _. split; [done|]. simpl. split_and!; try done.
    intros st [= <-]. split; [done|]. eexists. split; [|done].
    by rewrite lookup_insert_eq.
  - eexists _, _. split; [done|]. simpl. split_and!; try done.
    + intros q Q HQ. by apply lookup_app_l_Some.
    + intros st [= <-]. split; [done|]. eexists. split; [|done].
      by rewrite lookup_insert_eq.
Qed.

(** What [observer.subscribe] does to the cache is [attach]. *)
Lemma observer_subscribe_inv env fuel o cb a r a' :
  observer_subscribe env (run env fuel) o cb a = Some (r, a') →
  (observers a !! o = None ∧ r = Normal None ∧ a' = a)
  ∨ ∃ ob w',
      observers a !! o = Some ob
      ∧ r = Normal (Some (CUnsubscribe (query ob) o))
      ∧ steps env fuel (attach (query ob) o) (cache a) = Some w'
      ∧ a' = mkPage w' (<[o:=mkQueryObserver (query ob) (Some cb)]> (observers a))
               (observerRef a) (cleanups a).
Proof.
  unfold observer_subscribe. destruct (observers a !! o) as [ob|] eqn:Ho.
  2:{ intros [= <- <-]. by left. }
  intros H. right. apply in_cache_inv in H as (w' & H & ->). simpl in H.
  exists ob, w'. split; [done|].
  unfold mbind at 1 in H. simpl in H.
  apply mbind_inv in H as [(x & w1 & H1 & H2)|(e & H1 & ->)].
  - injection H2 as <- <-. split; [done|]. split; [|done].
    simpl. unfold mbind. simpl. by rewrite H1.
  - by destruct (fetch_never_throws env (run env fuel) _ _ _ _ H1).
Qed.

(** Every step of a component is a run of the cache. *)
Lemma page_step_cache env fuel act a a' :
  page_step env fuel act a = Some a' →
  ∃ ins, steps env fuel ins (cache a) = Some (cache a').
Proof.
  destruct act as [h client key f|h|h|p awaited]; simpl.
  - rewrite useQuery_cases. destruct client; [|intros [= <-]; by exists []].
    destruct (observerRef a !! h); [intros [= <-]; by exists []|].
    destruct (JSON.stringify _ _) as [hash|e] eqn:HJ; [|intros [= <-]; by exists []].
    simpl. destruct (list_find _ _) as [[i Q]|] eqn:HF; intros [= <-].
    + by exists [].
    + exists [GetQuery key f]. simpl. by rewrite getQuery_cases, HJ, HF.
  - unfold effect. destruct (observerRef a !! h) as [o|].
    2:{ intros [= <-]. by exists []. }
    destruct (observer_subscribe _ _ o h a) as [[r a1]|] eqn:HO; [|done].
    apply observer_subscribe_inv in HO
      as [(_ & -> & ->)|(ob & w' & _ & -> & HS & ->)].
    + intros [= <-]. by exists [].
    + intros [= <-]. by exists (attach (query ob) o).
  - destruct (cleanups a !! h) as [c|]; [|intros [= <-]; by exists []].
    destruct (in_cache _ a) as [[r a1]|] eqn:HI; [|done].
    apply in_cache_inv in HI as (w' & HI & ->). intros [= <-].
    exists [Call c]. simpl. by rewrite HI.
  - destruct (in_cache _ a) as [[r a1]|] eqn:HI; [|done].
    apply in_cache_inv in HI as (w' & HI & ->). intros [= <-].
    exists [Settle p awaited]. simpl. by rewrite HI.
Qed.

Lemma steps_append env fuel ins1 ins2 w w1 w2 :
  steps env fuel ins1 w = Some w1 → steps env fuel ins2 w1 = Some w2 →
  steps env fuel (ins1 ++ ins2) w = Some w2.
Proof.
  revert w. induction ins1 as [|i ins1 IH]; intros w; simpl.
  - by intros [= <-].
  - destruct (step env fuel i w) as [w'|]; [|done]. apply IH.
Qed.

Lemma page_steps_cache env fuel acts a a' :
  page_steps env fuel acts a = Some a' →
  ∃ ins, steps env fuel ins (cache a) = Some (cache a').
Proof.
  revert a. induction acts as [|act acts IH]; intros a; simpl.
  - intros [= <-]. by exists [].
  - destruct (page_step env fuel act a) as [a1|] eqn:HS; [|done]. intros HR.
    destruct (page_step_cache _ _ _ _ _ HS) as (ins1 & H1).
    destruct (IH _ HR) as (ins2 & H2).
    exists (ins1 ++ ins2). by eapply steps_append.
Qed.

Lemma page_step_binding env fuel act a a' h o ob :
  page_step env fuel act a = Some a' →
  observerRef a !! h = Some o → observers a !! o = Some ob →
  observerRef a' !! h = Some o
  ∧ ∃ cb, observers a' !! o = Some (mkQueryObserver (query ob) cb).
Proof.
  intros HS Hr Ho.
  assert (Hsame : observerRef a !! h = Some o
                  ∧ ∃ cb, observers a !! o = Some (mkQueryObserver (query ob) cb)).
  { split; [done|]. exists (callback ob). by destruct ob. }
  destruct act as [h0 client key f|h0|h0|p awaited]; simpl in HS.
  - rewrite useQuery_cases in HS. destruct client; [|by injection HS as <-].
    destruct (observerRef a !! h0) as [o0|] eqn:Hr0; [by injection HS as <-|].
    destruct (JSON.stringify _ _) as [hash|e]; [|by injection HS as <-].
    assert (h ≠ h0) by congruence.
    simpl in HS. destruct (list_find _ _) as [[i Q]|]; injection HS as <-; simpl.
    + rewrite lookup_insert_ne by done. split; [done|].
      exists (callback ob). rewrite lookup_app_l by (by eapply lookup_lt_Some).
      by destruct ob.
    + rewrite lookup_insert_ne by done. split; [done|].
      exists (callback ob). rewrite lookup_app_l by (by eapply lookup_lt_Some).
      by destruct ob.
  - unfold effect in HS. destruct (observerRef a !! h0) as [o0|] eqn:Hr0.
    2:{ by injection HS as <-. }
    destruct (observer_subscribe _ _ o0 h0 a) as [[r a1]|] eqn:HO; [|done].
    apply observer_subscribe_inv in HO
      as [(_ & -> & ->)|(ob0 & w' & Ho0 & -> & _ & ->)].
    + by injection HS as <-.
    + injection HS as <-. simpl. split; [done|].
      destruct (decide (o = o0)) as [->|Hne].
      * assert (ob0 = ob) as -> by congruence.
        rewrite list_lookup_insert_eq by (by eapply lookup_lt_Some). eauto.
      * rewrite list_lookup_insert_ne by done.
        exists (callback ob). by destruct ob.
  - destruct (cleanups a !! h0) as [c|]; [|by injection HS as <-].
    destruct (in_cache _ a) as [[r a1]|] eqn:HI; [|done].
    apply in_cache_inv in HI as (w' & HI & ->). by injection HS as <-.
  - destruct (in_cache _ a) as [[r a1]|] eqn:HI; [|done].
    apply in_cache_inv in HI as (w' & HI & ->). by injection HS as <-.
Qed.

(** X16. The hook stays with its first entry.  Once an instance holds
    an observer, then after any run of the components and the cache the
    instance still holds that observer, bound to the same entry, and that
    entry still has the key and the fetch function it was created with;
    a render of the instance then returns the state of that entry and
    changes nothing, whatever key and fetch function it is called with
    (also a key that has no JSON text). *)
Theorem hook_keeps_first_entry env fuel acts a a' h o ob Q :
  observerRef a !! h = Some o → observers a !! o = Some ob →
  queries (cache a) !! query ob = Some Q →
  page_steps env fuel acts a = Some a' →
  ∃ cb Q',
    observerRef a' !! h = Some o
    ∧ observers a' !! o = Some (mkQueryObserver (query ob) cb)
    ∧ queries (cache a') !! query ob = Some Q'
    ∧ queryKey Q' = queryKey Q ∧ queryFn Q' = queryFn Q
    ∧ ∀ key f, useQuery env true key f h a' = Some (Normal (state Q'), a').
Proof.
  intros Hr Ho HQ HS.
  assert (HB : observerRef a' !! h = Some o
               ∧ ∃ cb, observers a' !! o = Some (mkQueryObserver (query ob) cb)).
  { clear HQ. revert a ob Hr Ho HS.
    induction acts as [|act acts IH]; intros a ob Hr Ho; simpl.
    - intros [= <-]. split; [done|]. exists (callback ob). by destruct ob.
    - destruct (page_step env fuel act a) as [a1|] eqn:H1; [|done]. intros HR.
      destruct (page_step_binding _ _ _ _ _ _ _ _ H1 Hr Ho) as (Hr1 & cb1 & Ho1).
      apply (IH _ _ Hr1 Ho1 HR). }
  destruct HB as (Hr' & cb & Ho').
  destruct (page_steps_cache _ _ _ _ _ HS) as (ins & HC).
  destruct (steps_keeps_entries _ _ _ _ _ HC _ _ HQ) as (Q' & HQ' & EK & _ & EF).
  exists cb, Q'. split_and!; try done.
  intros key f. unfold useQuery. rewrite Hr'. do 2 f_equal.
  unfold getResult. rewrite Ho'. simpl. by rewrite HQ'.
Qed.

Lemma hook_keeps_first_entry_witness :
  ∃ a a' st,
    page_steps quiet 0 [Render 0 true (VRef 0) 1] empty_page = Some a
    ∧ page_steps quiet 0 [Effect 0; Settled 0 (Normal (str "X"))] a = Some a'
    ∧ useQuery quiet true (VRef 4) 2 0 a' = Some (Normal st, a')
    ∧ status st = Success.
Proof.
  pose (a := default empty_page
               (page_steps quiet 0 [Render 0 true (VRef 0) 1] empty_page)).
  pose (a' := default empty_page
                (page_steps quiet 0 [Effect 0; Settled 0 (Normal (str "X"))] a)).
  destruct (hook_keeps_first_entry quiet 0
              [Effect 0; Settled 0 (Normal (str "X"))] a a' 0 0
              (mkQueryObserver 0 None)
              (mkQuery (VRef 0) (Some ("[" +:+ JSON.quote "c" +:+ ",1]")) None []
                 (mkQueryState Loading true undefined undefined) 1))
    as (cb & Q' & _ & _ & HQ' & _ & _ & HU).
  - reflexivity.
  - reflexivity.
  - vm_compute. reflexivity.
  - vm_compute. reflexivity.
  - exists a, a', (state Q'). split; [vm_compute; reflexivity|].
    split; [vm_compute; reflexivity|]. split; [apply HU|].
    vm_compute in HQ'. by injection HQ' as <-.
Defined.

(** ** Components, when callbacks make no cache calls *)

Lemma effect_passive env fuel h o ob a :
  passive env → observerRef a !! h = Some o → observers a !! o = Some ob →
  page_step env fuel (Effect h) a
  = Some (mkPage
            (fetched env (query ob)
               (put_query (query ob)
                  (λ Q, set_subscribers (subscribers Q ++ [o]) Q) (cache a)))
            (<[o:=mkQueryObserver (query ob) (Some h)]> (observers a))
            (observerRef a)
            (<[h:=CUnsubscribe (query ob) o]> (cleanups a))).
Proof.
  intros Hpas Hr Ho. simpl. unfold effect, observer_subscribe, in_cache.
  rewrite Hr, Ho. simpl. unfold mbind at 1. simpl. unfold mbind.
  by rewrite (fetch_passive env _ Hpas (run_nil env fuel)).
Qed.

Lemma cleanup_passive env fuel h q o a :
  cleanups a !! h = Some (CUnsubscribe q o) →
  page_step env fuel (Cleanup h) a
  = Some (mkPage
            (put_query q
               (λ Q, set_subscribers (filter (λ s, s ≠ o) (subscribers Q)) Q)
               (cache a))
            (observers a) (observerRef a) (delete h (cleanups a))).
Proof. intros Hc. simpl. by rewrite Hc. Qed.

Lemma settled_passive env fuel p awaited a :
  passive env →
  page_step env fuel (Settled p awaited) a
  = Some (mkPage (resumed p awaited (cache a)) (observers a) (observerRef a)
            (cleanups a)).
Proof.
  intros Hpas. simpl. unfold in_cache.
  by rewrite (resume_passive env _ Hpas (run_nil env fuel)).
Qed.

Lemma fetched_subscribers env q w q' Q' :
  queries (fetched env q w) !! q' = Some Q' →
  ∃ Q, queries w !! q' = Some Q ∧ subscribers Q' = subscribers Q.
Proof.
  destruct (queries w !! q) as [Q|] eqn:HQ.
  2:{ rewrite fetched_idle; [eauto|]. intros Q. by rewrite HQ. }
  destruct (promise Q) as [p0|] eqn:Hp0.
  { rewrite fetched_idle; [eauto|]. intros Q0. rewrite HQ.
    intros [= <-]. congruence. }
  destruct (fetched_spec env q Q w HQ Hp0) as (s & st & -> & _).
  pose proof (lookup_lt_Some _ _ _ HQ) as Hlt.
  destruct (decide (q' = q)) as [->|Hne].
  - rewrite list_lookup_insert_eq by done. intros [= <-]. eauto.
  - rewrite list_lookup_insert_ne by done. eauto.
Qed.

Lemma fetched_length env q w :
  length (queries (fetched env q w)) = length (queries w).
Proof.
  destruct (queries w !! q) as [Q|] eqn:HQ.
  2:{ rewrite fetched_idle; [done|]. intros Q. by rewrite HQ. }
  destruct (promise Q) as [p0|] eqn:Hp0.
  { rewrite fetched_idle; [done|]. intros Q0. rewrite HQ.
    intros [= <-]. congruence. }
  destruct (fetched_spec env q Q w HQ Hp0) as (s & st & -> & _).
  by rewrite length_insert.
Qed.

Lemma resumed_subscribers p awaited w q' Q' :
  queries (resumed p awaited w) !! q' = Some Q' →
  ∃ Q, queries w !! q' = Some Q ∧ subscribers Q' = subscribers Q.
Proof.
  unfold resumed. destruct (promises w !! p) as [[q|q| |e]|]; eauto.
  simpl. rewrite settled_queries, list_lookup_alter.
  case_decide; [subst q'|eauto].
  destruct (queries w !! q) as [Q|]; [|done]. intros [= <-]. eauto.
Qed.

(** The entries change, their subscribers do not grow. *)
Lemma bound_cache a w' :
  bound a →
  length (queries w') = length (queries (cache a)) →
  (∀ q Q', queries w' !! q = Some Q' →
     ∃ Q, queries (cache a) !! q = Some Q ∧ subscribers Q' ⊆ subscribers Q) →
  bound (mkPage w' (observers a) (observerRef a) (cleanups a)).
Proof.
  intros [B1 B2 B3 B4 B5 B6] HL HS. split; simpl; try done.
  - intros o ob Ho. rewrite HL. eauto.
  - intros q Q' o HQ' Hin. destruct (HS _ _ HQ') as (Q & HQ & Hsub).
    eapply B4; [done|]. by apply Hsub.
Qed.

Lemma bound_empty : bound empty_page.
Proof. by split. Qed.

Lemma page_step_bound env fuel act a a' :
  passive env → page_step env fuel act a = Some a' → bound a → bound a'.
Proof.
  intros Hpas HS HB. pose proof HB as [B1 B2 B3 B4 B5 B6].
  destruct act as [h client key f|h|h|p awaited].
  - simpl in HS. rewrite useQuery_cases in HS.
    destruct client; [|by injection HS as <-].
    destruct (observerRef a !! h) as [o|] eqn:Hr; [by injection HS as <-|].
    destruct (JSON.stringify _ _) as [hash|e]; [|by injection HS as <-].
    simpl in HS.
    set (q := match list_find (λ d, queryHash d = hash) (queries (cache a)) with
              | Some (i, _) => i
              | None => length (queries (cache a))
              end).
    set (qs := match list_find (λ d, queryHash d = hash) (queries (cache a)) with
               | Some _ => queries (cache a)
               | None => queries (cache a) ++ [new_entry key hash f]
               end).
    assert (Ea : a' = mkPage (mkWorld qs (promises (cache a)) (log (cache a)))
                        (observers a ++ [mkQueryObserver q None])
                        (<[h:=length (observers a)]> (observerRef a))
                        (cleanups a)).
    { unfold q, qs. destruct (list_find _ _) as [[i Q]|];
        injection HS as <-; [|done]. by destruct a as [[]]. }
    assert (Hq : q < length qs).
    { unfold q, qs. destruct (list_find _ _) as [[i Q]|] eqn:HF.
      - apply list_find_Some in HF as (HF & _). by eapply lookup_lt_Some.
      - rewrite length_app. simpl. lia. }
    assert (Hqs : ∀ q0 Q0, qs !! q0 = Some Q0 →
                    queries (cache a) !! q0 = Some Q0 ∨ subscribers Q0 = []).
    { unfold qs. destruct (list_find _ _) as [[i Q]|]; [by left|].
      intros q0 Q0 H0. apply lookup_app_Some in H0 as [?|[_ H0]]; [by left|].
      apply list_lookup_singleton_Some in H0 as [_ <-]. by right. }
    assert (Hlen : length (queries (cache a)) ≤ length qs).
    { unfold qs. destruct (list_find _ _) as [[i Q]|]; [done|].
      rewrite length_app. lia. }
    clear HS. subst a'. split; simpl.
    + intros h' o. rewrite length_app. simpl.
      destruct (decide (h' = h)) as [->|Hne].
      * rewrite lookup_insert_eq. intros [= <-]. lia.
      * rewrite lookup_insert_ne by done. intros H. apply B1 in H. lia.
    + intros h1 h2 o.
      destruct (decide (h1 = h)) as [->|Hne1]; destruct (decide (h2 = h)) as [->|Hne2];
        rewrite ?lookup_insert_eq, ?lookup_insert_ne by done; try done.
      * intros [= <-] H. apply B1 in H. lia.
      * intros H [= <-]. apply B1 in H. lia.
      * apply B2.
    + intros o ob Ho. apply lookup_app_Some in Ho as [Ho|[_ Ho]].
      * apply B3 in Ho. lia.
      * apply list_lookup_singleton_Some in Ho as [_ <-]. done.
    + intros q0 Q0 o HQ0 Hin. destruct (Hqs _ _ HQ0) as [HQ|HE].
      * destruct (B4 _ _ _ HQ Hin) as (cb & Ho). exists cb.
        by apply lookup_app_l_Some.
      * rewrite HE in Hin. by apply elem_of_nil in Hin.
    + intros o ob cb Ho Hcb. apply lookup_app_Some in Ho as [Ho|[_ Ho]].
      * pose proof (B5 _ _ _ Ho Hcb) as H.
        rewrite lookup_insert_ne; [done|]. intros ->.
        by pose proof (eq_trans (eq_sym Hr) H).
      * apply list_lookup_singleton_Some in Ho as [_ <-]. done.
    + intros h' c Hc. destruct (B6 _ _ Hc) as (o & ob & Hr' & Ho & ->).
      exists o, ob. split_and!; [|by apply lookup_app_l_Some|done].
      rewrite lookup_insert_ne; [done|]. intros ->.
      by pose proof (eq_trans (eq_sym Hr) Hr').
  - destruct (observerRef a !! h) as [o|] eqn:Hr.
    2:{ simpl in HS. unfold effect in HS. rewrite Hr in HS. by injection HS as <-. }
    pose proof (B1 _ _ Hr) as Hlt.
    destruct (lookup_lt_is_Some_2 _ _ Hlt) as [ob Ho].
    rewrite (effect_passive env fuel h o ob a Hpas Hr Ho) in HS.
    injection HS as <-.
    set (q := query ob).
    pose proof (B3 _ _ Ho) as Hq. fold q in Hq.
    split; simpl.
    + intros h' o'. rewrite length_insert. apply B1.
    + apply B2.
    + intros o' ob'. rewrite fetched_length. simpl. rewrite length_alter.
      destruct (decide (o' = o)) as [->|Hne].
      * rewrite list_lookup_insert_eq by done. by intros [= <-].
      * rewrite list_lookup_insert_ne by done. apply B3.
    + intros q0 Q0 o' HQ0 Hin.
      apply fetched_subscribers in HQ0 as (Q1 & HQ1 & HE). rewrite HE in Hin.
      clear HE. simpl in HQ1.
      rewrite list_lookup_alter in HQ1. case_decide as Hd.
      * subst q0. destruct (queries (cache a) !! q) as [Q|] eqn:HQ; [|done].
        injection HQ1 as <-. simpl in Hin.
        apply elem_of_app in Hin as [Hin|Hin].
        -- destruct (B4 _ _ _ HQ Hin) as (cb & Ho').
           destruct (decide (o' = o)) as [->|Hne].
           ++ rewrite list_lookup_insert_eq by done. eauto.
           ++ rewrite list_lookup_insert_ne by done. eauto.
        -- apply list_elem_of_singleton in Hin as ->.
           rewrite list_lookup_insert_eq by done. eauto.
      * destruct (B4 _ _ _ HQ1 Hin) as (cb & Ho').
        assert (o' ≠ o).
        { intros ->. pose proof (eq_trans (eq_sym Ho) Ho') as E.
          injection E as E. apply Hd. unfold q. by rewrite E. }
        rewrite list_lookup_insert_ne by done. eauto.
    + intros o' ob' cb. destruct (decide (o' = o)) as [->|Hne].
      * rewrite list_lookup_insert_eq by done. by intros [= <-] [= <-].
      * rewrite list_lookup_insert_ne by done. apply B5.
    + intros h' c. destruct (decide (h' = h)) as [->|Hne].
      * rewrite lookup_insert_eq. intros [= <-].
        exists o. eexists. split; [done|].
        rewrite list_lookup_insert_eq by done. done.
      * rewrite lookup_insert_ne by done. intros Hc.
        destruct (B6 _ _ Hc) as (o' & ob' & Hr' & Ho' & ->).
        assert (o' ≠ o) by (intros ->; apply Hne; by eapply B2).
        exists o', ob'. by rewrite list_lookup_insert_ne.
  - destruct (cleanups a !! h) as [c|] eqn:Hc.
    2:{ simpl in HS. rewrite Hc in HS. by injection HS as <-. }
    destruct (B6 _ _ Hc) as (o & ob & Hr & Ho & ->).
    rewrite (cleanup_passive env fuel h _ _ a Hc) in HS. injection HS as <-.
    assert (HB' : bound (mkPage
                     (put_query (query ob)
                        (λ Q, set_subscribers
                                (filter (λ s, s ≠ o) (subscribers Q)) Q)
                        (cache a))
                     (observers a) (observerRef a) (cleanups a))).
    { apply bound_cache; [done|simpl; by rewrite length_alter|].
      simpl. intros q Q'. rewrite list_lookup_alter. case_decide; [subst q|eauto].
      destruct (queries (cache a) !! query ob) as [Q|]; [|done].
      intros [= <-]. eexists. split; [done|]. simpl.
      intros x Hx. by apply list_elem_of_filter in Hx as [_ ?]. }
    destruct HB' as [C1 C2 C3 C4 C5 C6]. split; simpl in *; try done.
    intros h' c. destruct (decide (h' = h)) as [->|Hne].
    + by rewrite lookup_delete_eq.
    + rewrite lookup_delete_ne by done. apply C6.
  - rewrite (settled_passive env fuel p awaited a Hpas) in HS. injection HS as <-.
    apply bound_cache; [done| |].
    + unfold resumed. destruct (promises (cache a) !! p) as [[q|q| |e]|]; try done.
      simpl. by rewrite settled_queries, length_alter.
    + intros q Q' HQ'. apply resumed_subscribers in HQ' as (Q & HQ & HE).
      rewrite HE. eauto.
Qed.

(** X17. With components as the only users of the cache (and callbacks
    that make no cache calls, with no [notify] that throws), in every state reached from the start each
    instance holds its own observer; an observer is only ever subscribed
    to the entry it was made for, and only with a callback put in, so the
    do-nothing [notify] an observer starts with is never called; and the
    cleanup kept for an instance unsubscribes that instance's observer
    from its entry. *)
Theorem components_stay_bound env fuel acts a :
  passive env → page_steps env fuel acts empty_page = Some a → bound a.
Proof.
  intros Hpas. generalize bound_empty. generalize empty_page.
  induction acts as [|act acts IH]; intros a0 H0; simpl.
  - by intros [= <-].
  - destruct (page_step env fuel act a0) as [a1|] eqn:HS; [|done].
    apply IH. by eapply page_step_bound.
Qed.

Lemma components_stay_bound_witness :
  ∃ a, page_steps quiet 0
         [Render 0 true (VRef 0) 1; Effect 0; Render 1 true (VRef 1) 2;
          Effect 1; Cleanup 0; Settled 0 (Normal (str "X"))] empty_page = Some a
       ∧ bound a.
Proof.
  eexists. split; [vm_compute; reflexivity|].
  apply (components_stay_bound quiet 0
           [Render 0 true (VRef 0) 1; Effect 0; Render 1 true (VRef 1) 2;
            Effect 1; Cleanup 0; Settled 0 (Normal (str "X"))] _ quiet_passive).
  vm_compute. reflexivity.
Defined.

Lemma page_steps_cons env fuel act acts a a1 :
  page_step env fuel act a = Some a1 →
  page_steps env fuel (act :: acts) a = page_steps env fuel acts a1.
Proof. intros H. simpl. by rewrite H. Qed.

Lemma fetched_calls_other env f q Q w :
  queries w !! q = Some Q → f ≠ queryFn Q →
  count_if (is_call_of f) (log (fetched env q w))
  = count_if (is_call_of f) (log w).
Proof.
  intros HQ Hf. unfold fetched. rewrite HQ.
  destruct (promise Q); [done|].
  destruct (on_queryFn env _ _).2 as [|e]; simpl.
  - rewrite count_if_app, broadcast_calls. unfold count_if at 2. simpl.
    rewrite bool_decide_eq_false_2 by done. simpl. lia.
  - rewrite settled_calls. simpl. rewrite count_if_app, broadcast_calls.
    unfold count_if at 2. simpl.
    rewrite bool_decide_eq_false_2 by done. simpl. lia.
Qed.

(** X18. Components that ask for the same data share one fetch.  Two
    instances render with keys of the same JSON text, not yet in the
    cache, and then run their effects: the cache gets one entry, made
    from the first instance's key and fetch function; both observers are
    subscribed to it, in that order; one operation is started and the
    first fetch function is called once; the second instance's fetch
    function is never called.  (Callbacks make no cache calls and no
    [notify] throws.) *)
Theorem components_share_fetch env fuel h1 h2 k1 k2 f1 f2 hash a :
  passive env → h1 ≠ h2 →
  observerRef a !! h1 = None → observerRef a !! h2 = None →
  JSON.stringify (objects env) k1 = Normal hash →
  JSON.stringify (objects env) k2 = Normal hash →
  list_find (λ d, queryHash d = hash) (queries (cache a)) = None →
  let q := length (queries (cache a)) in
  let o := length (observers a) in
  ∃ a' Q,
    page_steps env fuel (mount_two h1 h2 k1 k2 f1 f2) a = Some a'
    ∧ length (queries (cache a')) = S q
    ∧ queries (cache a') !! q = Some Q
    ∧ queryKey Q = k1 ∧ queryFn Q = f1
    ∧ subscribers Q = [o; S o]
    ∧ observerRef a' !! h1 = Some o ∧ observerRef a' !! h2 = Some (S o)
    ∧ length (promises (cache a')) = S (length (promises (cache a)))
    ∧ count_if (is_call_of f1) (log (cache a'))
      = S (count_if (is_call_of f1) (log (cache a)))
    ∧ (f2 ≠ f1 →
       count_if (is_call_of f2) (log (cache a'))
       = count_if (is_call_of f2) (log (cache a))).
Proof.
  intros Hpas Hh Hr1 Hr2 HS1 HS2 HF q o. unfold mount_two.
  set (a1 := mkPage (mkWorld (queries (cache a) ++ [new_entry k1 hash f1])
                      (promises (cache a)) (log (cache a)))
               (observers a ++ [mkQueryObserver q None])
               (<[h1:=o]> (observerRef a)) (cleanups a)).
  assert (E1 : page_step env fuel (Render h1 true k1 f1) a = Some a1).
  { change (snd <$> useQuery env true k1 f1 h1 a = Some a1).
    rewrite useQuery_cases, Hr1, HS1. simpl. by rewrite HF. }
  set (a2 := mkPage (cache a1) (observers a1 ++ [mkQueryObserver q None])
               (<[h2:=S o]> (observerRef a1)) (cleanups a1)).
  assert (E2 : page_step env fuel (Render h2 true k2 f2) a1 = Some a2).
  { change (snd <$> useQuery env true k2 f2 h2 a1 = Some a2).
    rewrite useQuery_cases. simpl.
    rewrite lookup_insert_ne, Hr2, HS2 by done. simpl.
    rewrite (list_find_app_r _ _ _ HF). simpl.
    rewrite decide_True by done. simpl. unfold a2. simpl.
    rewrite length_app. simpl. fold o q.
    by replace (o + 1) with (S o) by lia. }
  assert (Ho1 : observers a2 !! o = Some (mkQueryObserver q None)).
  { simpl. rewrite <- app_assoc. by rewrite lookup_app_r, Nat.sub_diag. }
  assert (Ho2 : observers a2 !! S o = Some (mkQueryObserver q None)).
  { simpl. rewrite lookup_app_r; rewrite length_app; simpl; [|lia].
    by replace (S o - (length (observers a) + 1)) with 0 by (unfold o; lia). }
  assert (Hrr1 : observerRef a2 !! h1 = Some o).
  { simpl. by rewrite lookup_insert_ne, lookup_insert_eq. }
  assert (Hrr2 : observerRef a2 !! h2 = Some (S o)).
  { simpl. by rewrite lookup_insert_eq. }
  set (w2 := put_query q (λ Q, set_subscribers (subscribers Q ++ [o]) Q) (cache a2)).
  set (w3 := fetched env q w2).
  set (a3 := mkPage w3 (<[o:=mkQueryObserver q (Some h1)]> (observers a2))
               (observerRef a2) (<[h1:=CUnsubscribe q o]> (cleanups a2))).
  assert (E3 : page_step env fuel (Effect h1) a2 = Some a3).
  { exact (effect_passive env fuel h1 o _ a2 Hpas Hrr1 Ho1). }
  set (Q2 := mkQuery k1 hash None [o] initial_state f1).
  assert (HQ2 : queries w2 !! q = Some Q2).
  { unfold w2. simpl. rewrite list_lookup_alter_eq.
    by rewrite lookup_app_r, Nat.sub_diag. }
  destruct (fetched_spec env q Q2 w2 HQ2 eq_refl) as (s & st & Hq3 & Hp3 & _).
  pose proof (fetched_calls env q Q2 w2 HQ2 eq_refl) as Hc3. simpl in Hc3.
  fold w3 in Hq3, Hp3, Hc3.
  assert (Ho2' : observers a3 !! S o = Some (mkQueryObserver q None)).
  { unfold a3. simpl. rewrite list_lookup_insert_ne by lia. exact Ho2. }
  set (Q3 := mkQuery (queryKey Q2) (queryHash Q2) (Some (length (promises w2)))
               (subscribers Q2) st (queryFn Q2)) in Hq3.
  assert (Hlt : q < length (queries w2)).
  { by eapply lookup_lt_Some. }
  assert (HQ3 : queries w3 !! q = Some Q3).
  { rewrite Hq3. by apply list_lookup_insert_eq. }
  set (w3' := put_query q (λ Q, set_subscribers (subscribers Q ++ [S o]) Q) w3).
  assert (HQ3' : queries w3' !! q
                 = Some (set_subscribers (subscribers Q3 ++ [S o]) Q3)).
  { unfold w3', put_query. cbn [queries].
    by rewrite list_lookup_alter_eq, HQ3. }
  set (a4 := mkPage w3' (<[S o:=mkQueryObserver q (Some h2)]> (observers a3))
               (observerRef a3) (<[h2:=CUnsubscribe q (S o)]> (cleanups a3))).
  assert (E4 : page_step env fuel (Effect h2) a3 = Some a4).
  { rewrite (effect_passive env fuel h2 (S o) _ a3 Hpas Hrr2 Ho2').
    simpl query. change (cache a3) with w3.
    change (put_query q _ w3) with w3'.
    rewrite (fetched_idle env q w3'); [done|].
    intros Q. rewrite HQ3'. by intros [= <-]. }
  exists a4. eexists. split.
  { rewrite (page_steps_cons _ _ _ _ _ _ E1), (page_steps_cons _ _ _ _ _ _ E2).
    rewrite (page_steps_cons _ _ _ _ _ _ E3), (page_steps_cons _ _ _ _ _ _ E4).
    done. }
  unfold a4. cbn [cache observerRef]. split_and!.
  - unfold w3', put_query. cbn [queries].
    rewrite length_alter, Hq3, length_insert. unfold w2. simpl.
    rewrite length_alter, length_app. simpl. unfold q. lia.
  - exact HQ3'.
  - done.
  - done.
  - done.
  - exact Hrr1.
  - exact Hrr2.
  - unfold w3'. cbn [put_query promises]. rewrite Hp3, length_app. simpl. lia.
  - exact Hc3.
  - intros Hf. unfold w3', w3. cbn [put_query log].
    by rewrite (fetched_calls_other env f2 q Q2 w2 HQ2).
Qed.

Lemma components_share_fetch_witness :
  ∃ a' Q,
    page_steps quiet 0 (mount_two 0 1 (VRef 0) (VRef 1) 1 2) empty_page = Some a'
    ∧ length (queries (cache a')) = 1
    ∧ queries (cache a') !! 0 = Some Q
    ∧ subscribers Q = [0; 1]
    ∧ count_if (is_call_of 1) (log (cache a')) = 1
    ∧ count_if (is_call_of 2) (log (cache a')) = 0.
Proof.
  destruct (components_share_fetch quiet 0 0 1 (VRef 0) (VRef 1) 1 2
              (Some ("[" +:+ JSON.quote "c" +:+ ",1]")) empty_page quiet_passive)
    as (a' & Q & H1 & H2 & H3 & _ & _ & H4 & _ & _ & _ & H5 & H6).
  - discriminate.
  - reflexivity.
  - reflexivity.
  - vm_compute. reflexivity.
  - vm_compute. reflexivity.
  - reflexivity.
  - exists a', Q. split; [exact H1|]. split; [exact H2|]. split; [exact H3|].
    split; [exact H4|]. split; [exact H5|]. apply H6. discriminate.
Defined.

(** X19. An effect that runs, is cleaned up and runs again leaves what
    a single run of it leaves: when the instance's observer is not
    subscribed yet, the observer ends up subscribed once and the second
    run starts no second fetch.  (Callbacks make no cache calls and no
    [notify] throws.) *)
Theorem effect_twice_is_once env fuel h o ob Q a :
  passive env →
  observerRef a !! h = Some o → observers a !! o = Some ob →
  queries (cache a) !! query ob = Some Q → o ∉ subscribers Q →
  ∃ a' Q',
    page_steps env fuel [Effect h] a = Some a'
    ∧ page_steps env fuel (mount_twice h) a = Some a'
    ∧ queries (cache a') !! query ob = Some Q'
    ∧ subscribers Q' = subscribers Q ++ [o]
    ∧ promise Q' ≠ None.
Proof.
  intros Hpas Hr Ho HQ Hn. set (q := query ob) in *.
  pose proof (lookup_lt_Some _ _ _ HQ) as Hlt.
  pose proof (lookup_lt_Some _ _ _ Ho) as Holt.
  set (w0 := put_query q (λ Q, set_subscribers (subscribers Q ++ [o]) Q) (cache a)).
  set (w1 := fetched env q w0).
  set (a1 := mkPage w1 (<[o:=mkQueryObserver q (Some h)]> (observers a))
               (observerRef a) (<[h:=CUnsubscribe q o]> (cleanups a))).
  assert (E1 : page_step env fuel (Effect h) a = Some a1).
  { exact (effect_passive env fuel h o ob a Hpas Hr Ho). }
  assert (HQ0 : queries w0 !! q
                = Some (set_subscribers (subscribers Q ++ [o]) Q)).
  { unfold w0, put_query. cbn [queries]. by rewrite list_lookup_alter_eq, HQ. }
  assert (HQ1 : ∃ Q1, queries w1 !! q = Some Q1
                      ∧ subscribers Q1 = subscribers Q ++ [o]
                      ∧ promise Q1 ≠ None).
  { destruct (promise Q) as [p0|] eqn:Hp0.
    - unfold w1. rewrite fetched_idle.
      + eexists. split; [exact HQ0|]. split; [done|]. simpl. by rewrite Hp0.
      + intros Q0. rewrite HQ0. intros [= <-]. simpl. by rewrite Hp0.
    - destruct (fetched_spec env q _ w0 HQ0 Hp0) as (s & st & Hq1 & _).
      eexists. split.
      + unfold w1. rewrite Hq1. apply list_lookup_insert_eq.
        by eapply lookup_lt_Some.
      + done. }
  destruct HQ1 as (Q1 & HQ1 & Hs1 & Hp1).
  set (w2 := put_query q
               (λ Q, set_subscribers (filter (λ s, s ≠ o) (subscribers Q)) Q) w1).
  set (a2 := mkPage w2 (observers a1) (observerRef a1) (delete h (cleanups a1))).
  assert (E2 : page_step env fuel (Cleanup h) a1 = Some a2).
  { apply cleanup_passive. unfold a1. cbn [cleanups]. by rewrite lookup_insert_eq. }
  assert (Ho2 : observers a2 !! o = Some (mkQueryObserver q (Some h))).
  { unfold a2, a1. cbn [observers]. by apply list_lookup_insert_eq. }
  assert (E3 : page_step env fuel (Effect h) a2 = Some a1).
  { rewrite (effect_passive env fuel h o _ a2 Hpas Hr Ho2). f_equal.
    simpl query. unfold a2, a1. cbn [cache observers observerRef cleanups].
    rewrite list_insert_insert_eq, insert_delete_eq, insert_insert_eq.
    f_equal.
    assert (Ew : put_query q (λ Q, set_subscribers (subscribers Q ++ [o]) Q) w2
                 = w1).
    { unfold w2, put_query. cbn [queries promises log].
      destruct w1 as [qs ps l]. cbn [queries promises log] in *. f_equal.
      rewrite (alter_lookup_insert _ _ _ _ HQ1).
      rewrite alter_insert by (by eapply lookup_lt_Some).
      apply list_insert_id. rewrite HQ1. f_equal.
      unfold set_subscribers. cbn. rewrite Hs1.
      rewrite list.filter_app, filter_absent by done.
      rewrite filter_cons_False, filter_nil, app_nil_r by (intros H; by apply H).
      rewrite <- Hs1. by destruct Q1. }
    rewrite Ew. apply fetched_idle. intros Q0. rewrite HQ1. by intros [= <-]. }
  exists a1, Q1. split_and!; try done.
  - by rewrite (page_steps_cons _ _ _ _ _ _ E1).
  - unfold mount_twice.
    rewrite (page_steps_cons _ _ _ _ _ _ E1), (page_steps_cons _ _ _ _ _ _ E2).
    by rewrite (page_steps_cons _ _ _ _ _ _ E3).
Qed.

Lemma effect_twice_is_once_witness :
  ∃ a a' Q',
    page_steps quiet 0 [Render 0 true (VRef 0) 1] empty_page = Some a
    ∧ page_steps quiet 0 (mount_twice 0) a = Some a'
    ∧ queries (cache a') !! 0 = Some Q'
    ∧ subscribers Q' = [0]
    ∧ count_if (is_call_of 1) (log (cache a')) = 1.
Proof.
  pose (a := default empty_page
               (page_steps quiet 0 [Render 0 true (VRef 0) 1] empty_page)).
  destruct (effect_twice_is_once quiet 0 0 0 (mkQueryObserver 0 None)
              (mkQuery (VRef 0) (Some ("[" +:+ JSON.quote "c" +:+ ",1]")) None []
                 (mkQueryState Loading true undefined undefined) 1)
              a quiet_passive)
    as (a' & Q' & H1 & H2 & H3 & H4 & _).
  - reflexivity.
  - reflexivity.
  - vm_compute. reflexivity.
  - intros H. by apply elem_of_nil in H.
  - exists a, a', Q'. split; [vm_compute; reflexivity|].
    split; [exact H2|]. split; [exact H3|]. split; [exact H4|].
    vm_compute in H1. injection H1 as <-. vm_compute. reflexivity.
Defined.

(** X20. What a component sees of a fetch.  An instance renders for
    the first time with a key that is not in the cache and gets
    [loading]; its effect subscribes and starts the fetch, and a render
    still gets [loading]; once the promise of the fetch function has
    settled, a render gets the data with [success], or the reason with
    [error], and [isFetching] off.  Along the way the instance's
    [rerender] is called three times.  (Callbacks make no cache calls and
    no [notify] throws.) *)
Theorem component_sees_fetch env fuel h key f hash awaited a :
  passive env → observerRef a !! h = None →
  JSON.stringify (objects env) key = Normal hash →
  list_find (λ d, queryHash d = hash) (queries (cache a)) = None →
  (on_queryFn env f (count_if (is_call_of f) (log (cache a)))).2 = Returns →
  let loading := mkQueryState Loading true undefined undefined in
  let final := match awaited with
               | Normal d => mkQueryState Success false d undefined
               | Throw e => mkQueryState Error false undefined e
               end in
  ∃ a1 a2 a3,
    useQuery env true key f h a = Some (Normal loading, a1)
    ∧ page_step env fuel (Effect h) a1 = Some a2
    ∧ useQuery env true key f h a2 = Some (Normal loading, a2)
    ∧ page_step env fuel (Settled (length (promises (cache a))) awaited) a2
      = Some a3
    ∧ useQuery env true key f h a3 = Some (Normal final, a3)
    ∧ count_if (is_notify_of (length (observers a))) (log (cache a3))
      = 3 + count_if (is_notify_of (length (observers a))) (log (cache a)).
Proof.
  intros Hpas Hr HS HF HR loading final.
  set (q := length (queries (cache a))). set (o := length (observers a)).
  set (a1 := mkPage (mkWorld (queries (cache a) ++ [new_entry key hash f])
                      (promises (cache a)) (log (cache a)))
               (observers a ++ [mkQueryObserver q None])
               (<[h:=o]> (observerRef a)) (cleanups a)).
  assert (Hr1 : observerRef a1 !! h = Some o).
  { unfold a1. cbn [observerRef]. by rewrite lookup_insert_eq. }
  assert (Ho1 : observers a1 !! o = Some (mkQueryObserver q None)).
  { unfold a1. cbn [observers]. by rewrite lookup_app_r, Nat.sub_diag. }
  assert (E1 : useQuery env true key f h a = Some (Normal loading, a1)).
  { rewrite useQuery_cases, Hr, HS. cbn zeta. rewrite HF.
    change (Some (Normal (getResult o a1), a1) = Some (Normal loading, a1)).
    assert (getResult o a1 = loading) as ->; [|done].
    unfold getResult, obs. rewrite Ho1. cbn.
    by rewrite lookup_app_r, Nat.sub_diag. }
  set (Q0 := mkQuery key hash None [o] initial_state f).
  set (w0 := put_query q (λ Q, set_subscribers (subscribers Q ++ [o]) Q) (cache a1)).
  assert (HQ0 : queries w0 !! q = Some Q0).
  { unfold w0, put_query, a1. cbn [queries cache].
    rewrite list_lookup_alter_eq. by rewrite lookup_app_r, Nat.sub_diag. }
  pose proof (fetched_returns env q Q0 w0 HQ0 eq_refl HR) as Ef.
  cbn [queryKey queryHash subscribers state queryFn] in Ef.
  set (w1 := fetched env q w0) in *.
  set (a2 := mkPage w1 (<[o:=mkQueryObserver q (Some h)]> (observers a1))
               (observerRef a1) (<[h:=CUnsubscribe q o]> (cleanups a1))).
  assert (E2 : page_step env fuel (Effect h) a1 = Some a2).
  { exact (effect_passive env fuel h o _ a1 Hpas Hr1 Ho1). }
  assert (Hlt : q < length (queries w0)) by (by eapply lookup_lt_Some).
  assert (Hol : o < length (observers a1)) by (by eapply lookup_lt_Some).
  assert (Ho2 : observers a2 !! o = Some (mkQueryObserver q (Some h))).
  { unfold a2. cbn [observers]. by apply list_lookup_insert_eq. }
  set (Q1 := mkQuery key hash (Some (length (promises w0))) [o]
               (starting initial_state) f) in Ef.
  assert (HQ1 : queries w1 !! q = Some Q1).
  { rewrite Ef. cbn [queries]. by apply list_lookup_insert_eq. }
  assert (E3 : useQuery env true key f h a2 = Some (Normal loading, a2)).
  { rewrite useQuery_cases. unfold a2 at 1. cbn [observerRef]. unfold obs in *. rewrite Hr1.
    assert (getResult o a2 = loading) as ->; [|done].
    unfold getResult, obs. rewrite Ho2.
    unfold a2. simpl. by rewrite HQ1. }
  assert (Hp1 : promises w1 !! length (promises (cache a)) = Some (Awaiting q)).
  { rewrite Ef. cbn [promises]. unfold w0, a1. cbn [put_query promises cache].
    by rewrite lookup_app_r, Nat.sub_diag. }
  set (w2 := resumed (length (promises (cache a))) awaited w1).
  set (a3 := mkPage w2 (observers a2) (observerRef a2) (cleanups a2)).
  assert (E4 : page_step env fuel (Settled (length (promises (cache a))) awaited) a2
               = Some a3).
  { exact (settled_passive env fuel _ awaited a2 Hpas). }
  assert (Ew2 : w2 = put_pstate (length (promises (cache a))) Fulfilled
                       (settled q awaited w1)).
  { unfold w2, resumed. unfold pid in *. by rewrite Hp1. }
  rewrite (settled_spec q Q1 awaited w1 HQ1) in Ew2.
  unfold put_pstate, Q1 in Ew2.
  cbn [queryKey queryHash subscribers state queryFn queries promises log] in Ew2.
  assert (Hlt1 : q < length (queries w1)) by (by eapply lookup_lt_Some).
  assert (HQ2 : ∃ Q2, queries w2 !! q = Some Q2 ∧ state Q2 = final).
  { rewrite Ew2. cbn [queries]. rewrite list_lookup_insert_eq by done.
    eexists. split; [done|]. by destruct awaited. }
  destruct HQ2 as (Q2 & HQ2 & Hst2).
  exists a1, a2, a3. split_and!; try done.
  - assert (Hr3 : observerRef a3 !! h = Some o) by exact Hr1.
    assert (Ho3 : observers a3 !! o = Some (mkQueryObserver q (Some h)))
      by exact Ho2.
    rewrite useQuery_cases. unfold obs in *. rewrite Hr3.
    assert (getResult o a3 = final) as ->; [|done].
    unfold getResult, obs. rewrite Ho3. simpl. rewrite HQ2. simpl.
    by rewrite Hst2.
  - unfold a3. cbn [cache]. rewrite Ew2. cbn [log]. rewrite Ef. cbn [log].
    unfold w0, a1. cbn [put_query log cache].
    rewrite !count_if_app. unfold Q0. cbn [subscribers map].
    unfold count_if at 2 3. simpl.
    rewrite !bool_decide_eq_true_2 by done. simpl. lia.
Qed.

Lemma component_sees_fetch_witness :
  ∃ a1 a2 a3,
    useQuery quiet true (VRef 0) 1 0 empty_page
    = Some (Normal (mkQueryState Loading true undefined undefined), a1)
    ∧ page_step quiet 0 (Effect 0) a1 = Some a2
    ∧ page_step quiet 0 (Settled 0 (Normal (str "X"))) a2 = Some a3
    ∧ useQuery quiet true (VRef 0) 1 0 a3
      = Some (Normal (mkQueryState Success false (str "X") undefined), a3).
Proof.
  destruct (component_sees_fetch quiet 0 0 (VRef 0) 1
              (Some ("[" +:+ JSON.quote "c" +:+ ",1]")) (Normal (str "X"))
              empty_page quiet_passive)
    as (a1 & a2 & a3 & H1 & H2 & _ & H3 & H4 & _).
  - reflexivity.
  - vm_compute. reflexivity.
  - reflexivity.
  - reflexivity.
  - exists a1, a2, a3. split; [exact H1|]. split; [exact H2|].
    split; [exact H3|exact H4].
Defined.
